(** * BFD data extraction: admission, sharding, item pipeline and report

    A shallow embedding of the endpoint [POST /extract/] and of the
    pipeline of one Chrome instance ([extract-data.js]), followed by the
    properties the specification states of them.

    The sources hold several revisions of [endpoints/extract.js]. The
    embedding follows the batched one: the single-flight flag [isRunning],
    the limit [maxChromeInstances * maxBatchSize], the division of the
    accepted list into [batches], one [runBatch] per shard and one timeout
    for the whole batch. The single-instance revisions share its duplicate
    removal, its conversion of thumbnail names and its two logs. *)

From Stdlib Require Import List String Ascii Arith ZArith Lia Bool Permutation.
From Stdlib Require Import DecimalString.
Import ListNotations.
Open Scope string_scope.
Open Scope list_scope.

(* ================================================================== *)
(** * Part I: the embedding                                            *)
(* ================================================================== *)

(** ** The JavaScript built-ins the endpoint relies on *)

Module JS.

(** [String.prototype.endsWith]. *)
Definition endsWith (s suffix : string) : bool :=
  let n := String.length s in
  let m := String.length suffix in
  Nat.leb m n && String.eqb (substring (n - m) m s) suffix.

(** [String.prototype.replace] called with a string pattern: only the
    first occurrence of the pattern is replaced (the replacement text
    used by the endpoint holds no [$] escape). *)
Definition replace (s pattern replacement : string) : string :=
  match index 0 pattern s with
  | Some i =>
      (substring 0 i s ++ replacement
         ++ substring (i + String.length pattern)
                      (String.length s - (i + String.length pattern)) s)%string
  | None => s
  end.

(** [Array.prototype.indexOf] on an array of strings: position of the
    first strictly equal element, [-1] when there is none. *)
Fixpoint indexOfFrom (i : Z) (l : list string) (x : string) : Z :=
  match l with
  | [] => (-1)%Z
  | y :: t => if (y =? x)%string then i else indexOfFrom (i + 1)%Z t x
  end.

Definition indexOf (l : list string) (x : string) : Z := indexOfFrom 0%Z l x.

(** [Array.prototype.filter] with the two-argument callback
    [(element, index) => ...]. *)
Fixpoint filterFrom {A} (i : Z) (f : A -> Z -> bool) (l : list A) : list A :=
  match l with
  | [] => []
  | x :: t => if f x i then x :: filterFrom (i + 1)%Z f t
              else filterFrom (i + 1)%Z f t
  end.

Definition filter {A} (f : A -> Z -> bool) (l : list A) : list A :=
  filterFrom 0%Z f l.

(** [Array.prototype.slice(start, end)] for [0 <= start <= end]; both
    bounds are clamped to the length of the array. *)
Definition slice {A} (start stop : nat) (l : list A) : list A :=
  firstn (stop - start) (skipn start l).

(** [[].concat(...arrays)]. *)
Definition concatAll {A} (ls : list (list A)) : list A := List.concat ls.

(** [Math.ceil(n / k)] for array lengths: the quotient of two small
    non-negative integers, rounded up. *)
Definition ceilDiv (n k : nat) : nat := (n + (k - 1)) / k.

(** [url.split('/').pop()]: the text after the last slash. *)
Fixpoint lastSegment (acc s : string) : string :=
  match s with
  | EmptyString => acc
  | String c t =>
      if Ascii.eqb c "/"%char then lastSegment EmptyString t
      else lastSegment (acc ++ String c EmptyString)%string t
  end.

(** Truthiness of a string: only the empty string is falsy. *)
Definition truthy (s : string) : bool :=
  match s with EmptyString => false | _ => true end.

End JS.

(** ** Admission: size limit, duplicate removal, thumbnail conversion *)

Module Admission.

Definition maxChromeInstances : nat := 3.
Definition maxBatchSize : nat := 75.

(** What [urls.map(...)] builds for a usable entry:
    [{ url }] or [{ url, isThumbTransparent }]. *)
Record Reference := mkReference {
  url : string;
  isThumbTransparent : option bool
}.

(** [urls.filter((url, index) => urls.indexOf(url) === index)]. *)
Definition removeDuplicates (urls : list string) : list string :=
  JS.filter (fun url index => (JS.indexOf urls url =? index)%Z) urls.

(** [bfdOrThumbURL.match(/\.bfd_thumb\.(jpg|png)$/)]: the pattern is
    anchored at the end of the text, so the match, when there is one, is
    the final fourteen characters; the pair is [(match[0], match[1])]. *)
Definition thumbMatch (s : string) : option (string * string) :=
  if JS.endsWith s ".bfd_thumb.jpg" then Some (".bfd_thumb.jpg", "jpg")
  else if JS.endsWith s ".bfd_thumb.png" then Some (".bfd_thumb.png", "png")
  else None.

(** The callback of [urls.map]; [None] stands for the [false] it returns
    for an entry that is neither a BFD nor a thumbnail URL. *)
Definition convert (bfdOrThumbURL : string) : option Reference :=
  if JS.endsWith bfdOrThumbURL ".bfd"
  then Some (mkReference bfdOrThumbURL None)
  else match thumbMatch bfdOrThumbURL with
       | None => None
       | Some (m0, m1) =>
           Some (mkReference (JS.replace bfdOrThumbURL m0 ".bfd")
                             (Some (m1 =? "png")%string))
       end.

(** [urls.filter(Boolean)]. *)
Fixpoint filterBoolean {A} (l : list (option A)) : list A :=
  match l with
  | [] => []
  | Some x :: t => x :: filterBoolean t
  | None :: t => filterBoolean t
  end.

(** The three reassignments of [urls], in the order of the handler. *)
Definition accepted (urls : list string) : list Reference :=
  filterBoolean (map convert (removeDuplicates urls)).

(** Duplicate removal as the specification words it, "first occurrence
    wins, preserving original order", over the raw strings: an entry is
    kept when no equal entry was met before it. *)
Fixpoint keepFirst (seen : list string) (urls : list string) : list string :=
  match urls with
  | [] => []
  | u :: t =>
      if existsb (String.eqb u) seen then keepFirst seen t
      else u :: keepFirst (u :: seen) t
  end.

End Admission.

(** ** The batch coordinator: shards, merged report *)

Module Coordinator.

(** A key of the [batches] object, the template string
    [`${batchID} ${index + 1} ${randomAlphaString(3)}`], kept as its three
    interpolated parts ([randomAlphaString] draws letters only, so two
    keys are the same text exactly when the three parts agree). *)
Record InstanceID := mkInstanceID {
  batchID : string;
  ordinal : nat;
  tag : string
}.

Definition sameID (a b : InstanceID) : bool :=
  String.eqb (batchID a) (batchID b) && Nat.eqb (ordinal a) (ordinal b)
  && String.eqb (tag a) (tag b).

(** [object[key] = value] on a plain object whose keys are not array
    indices: an existing key keeps its place, a new key goes last, which
    is the order [Object.keys], [Object.values] and [Object.entries] use. *)
Fixpoint assign {V} (o : list (InstanceID * V)) (k : InstanceID) (v : V)
  : list (InstanceID * V) :=
  match o with
  | [] => [(k, v)]
  | (k', v') :: t => if sameID k' k then (k', v) :: t
                     else (k', v') :: assign t k v
  end.

Section Divide.

Context {A : Type}.
Variable instances : nat.          (* maxChromeInstances *)
Variable batch : string.           (* const batchID = randomAlphaString(3) *)
Variable letters : nat -> string.  (* the randomAlphaString(3) of each turn *)

Definition batchSize (urls : list A) : nat :=
  JS.ceilDiv (List.length urls) instances.

Definition instanceID (index : nat) : InstanceID :=
  mkInstanceID batch (index + 1) (letters index).

(** One turn of [for (let index = 0; index < maxChromeInstances; index++)]. *)
Definition divideTurn (urls : list A) (batches : list (InstanceID * list A))
  (index : nat) : list (InstanceID * list A) :=
  let urlsInBatch :=
    JS.slice (index * batchSize urls) ((index + 1) * batchSize urls) urls in
  match List.length urlsInBatch with
  | O => batches
  | S _ => assign batches (instanceID index) urlsInBatch
  end.

Definition divide (urls : list A) : list (InstanceID * list A) :=
  fold_left (divideTurn urls) (seq 0 instances) [].

(** The slice of turn [index]. *)
Definition shardAt (urls : list A) (index : nat) : list A :=
  JS.slice (index * batchSize urls) ((index + 1) * batchSize urls) urls.

(** What the loop leaves in [batches] over the turns [a, a + k), written
    by recursion on the number of turns (used to reason about [divide]). *)
Fixpoint turns (urls : list A) (a k : nat) : list (InstanceID * list A) :=
  match k with
  | O => []
  | S k' =>
      match shardAt urls a with
      | [] => turns urls (S a) k'
      | _ :: _ => (instanceID a, shardAt urls a) :: turns urls (S a) k'
      end
  end.

End Divide.

(** The [batches] object of the handler. *)
Definition batches (batch : string) (letters : nat -> string)
  (urls : list Admission.Reference)
  : list (InstanceID * list Admission.Reference) :=
  divide Admission.maxChromeInstances batch letters urls.

End Coordinator.

(** ** The item pipeline of one Chrome instance ([extract-data.js]) *)

Module ExtractData.

Definition Error : Type := string.

Definition inParallel : nat := 5.

(** What a successful render returns: [{ thumbURL, projectWidth, ... }]. *)
Record Rendered := mkRendered {
  thumbURL : string;
  projectWidth : Z;
  projectHeight : Z;
  text : string;
  sectionID : string;
  version : Z;
  sourceTemplateID : string;
  transparencyMismatch : option bool   (* absent once the endpoint deleted it *)
}.

(** The two objects [openProjectAndGenerateThumbnail] can return. *)
Inductive OpenResult :=
| FontsObject (fontsToSwap : list string)   (* { fontsToSwap } *)
| ThumbObject (r : Rendered).

(** An entry of the queue, with the properties it gathers on its way:
    [sizeInKB], [error], [fontsToSwap] and the render result copied in
    by [Object.assign(project, result)]. *)
Record Project := mkProject {
  index : nat;
  url : string;
  isThumbTransparent : option bool;
  sizeInKB : option Z;
  error : option Error;
  fontsToSwap : option (list string);
  rendered : option Rendered
}.

(** The same entry once [delete p.index] has run. *)
Record Entry := mkEntry {
  e_url : string;
  e_isThumbTransparent : option bool;
  e_sizeInKB : option Z;
  e_error : option Error;
  e_fontsToSwap : option (list string);
  e_rendered : option Rendered
}.

Definition deleteIndex (p : Project) : Entry :=
  mkEntry (url p) (isThumbTransparent p) (sizeInKB p) (error p)
          (fontsToSwap p) (rendered p).

(** The object the queue resolves with (its [result] text, a log line
    built from wall-clock times, is overwritten by the endpoint and left
    out). *)
Record Result := mkResult {
  r_openedProjects : list Entry;
  r_missingProjects : list Entry;
  r_fontSwapProjects : list Entry;
  r_unopenedProjects : list Entry
}.

(** *** The render host, as seen from the page *)

(** Answers of the two [BeFunky.request] calls of a preload: an error, or
    the size of the blob. *)
Record Requests := mkRequests {
  firstRequest : Error + Z;
  secondRequest : Error + Z
}.

Record ProjectVO := mkProjectVO {
  vo_text : string;
  vo_projectWidth : Z;
  vo_projectHeight : Z;
  vo_section : string;
  vo_sourceTemplateID : option string
}.

(** Answers of the page while one project is opened; [inl] is a rejected
    or throwing call. *)
Record PageReplies := mkPageReplies {
  getBefunkyBfd : Error + option Z;      (* parseInt(bfdObject.version) *)
  loadingComplete : Error + unit;
  swappedFonts : Error + list string;    (* Object.keys(swappedFonts) *)
  projectVO : Error + ProjectVO;
  thumbnailBlob : Error + (string * bool); (* blob.type, isProjectTransparent *)
  downloadPath : Error + option string;
  copyFile : Error + unit;
  resetApp : Error + unit
}.

Definition bind {A B} (m : Error + A) (k : A -> Error + B) : Error + B :=
  match m with
  | inl e => inl e
  | inr a => k a
  end.

Notation "'await' x <- m ; k" := (bind m (fun x => k))
  (at level 10, x name, m at level 100, k at level 200).

(** The promise built inside [page.$eval] by [preloadNextURL]: one
    request, and one more when the first reports an error. The second
    component counts the requests made. *)
Definition preload (host : Requests) : (Error + Z) * nat :=
  match firstRequest host with
  | inr size => (inr size, 1)
  | inl _ =>
      match secondRequest host with
      | inr secondSize => (inr secondSize, 2)
      | inl secondError => (inl secondError, 2)
      end
  end.

(** [Math.round(blobSize / 1024)]. *)
Definition roundKB (blobSize : Z) : Z := ((2 * blobSize + 1024) / 2048)%Z.

(** [args.isThumbTransparent === !isProjectTransparent]. *)
Definition mismatch (isThumbTransparent : option bool)
  (isProjectTransparent : bool) : bool :=
  match isThumbTransparent with
  | Some b => Bool.eqb b (negb isProjectTransparent)
  | None => false
  end.

Definition openProjectAndGenerateThumbnail (page : PageReplies)
  (bfdUrl : string) (isThumbTransparent : option bool)
  : Error + OpenResult :=
  if negb (JS.truthy bfdUrl) then inl "BFD path/URL missing" else
  let bfdFileName := JS.lastSegment "" bfdUrl in
  await parsed <- getBefunkyBfd page;
  let bfdVersion :=
    match parsed with
    | Some v => if (v =? 0)%Z then 1%Z else v
    | None => 1%Z
    end in
  await _ <- loadingComplete page;
  await keys <- swappedFonts page;
  match keys with
  | _ :: _ => inr (FontsObject keys)
  | [] =>
      await vo <- projectVO page;
      await blob <- thumbnailBlob page;
      let thumbnailExtension :=
        if (fst blob =? "image/jpeg")%string then "jpg" else "png" in
      let mismatched := mismatch isThumbTransparent (snd blob) in
      await path <- downloadPath page;
      match path with
      | None => inl "Failed to download file"
      | Some file =>
          if negb (JS.truthy file) then inl "Failed to download file" else
          let thumbFileName :=
            JS.replace bfdFileName ".bfd"
                       (".bfd_thumb_v1." ++ thumbnailExtension)%string in
          await _ <- copyFile page;
          await _ <- resetApp page;
          inr (ThumbObject
                 (mkRendered ("/thumbnails/" ++ thumbFileName)%string
                    (vo_projectWidth vo) (vo_projectHeight vo) (vo_text vo)
                    (vo_section vo) bfdVersion
                    (match vo_sourceTemplateID vo with
                     | Some id => id
                     | None => ""
                     end)
                    (Some mismatched)))
      end
  end.

(** [result && result.fontsToSwap] and [result && result.thumbURL]. *)
Definition hasFontsToSwap (result : option OpenResult) : option (list string) :=
  match result with
  | Some (FontsObject fonts) => Some fonts
  | _ => None
  end.

Definition hasThumbURL (result : option OpenResult) : option Rendered :=
  match result with
  | Some (ThumbObject r) => if JS.truthy (thumbURL r) then Some r else None
  | _ => None
  end.

(** *** The queue

    The state below is what [preloadNextURL] and [openNextProject] share.
    Logging, the [reportLongLoadTime] timer (it only logs and re-arms
    itself) and the [isDebug] branches ([isDebug] is [false]) change none
    of it and are left out; the two [close()] calls of the last branch of
    [openNextProject] are taken to return. *)

Record State := mkState {
  queuedProjects : list Project;
  loadingProjects : list Project;
  preloadedProjects : list Project;
  missingProjects : list Project;
  fontSwapProjects : list Project;
  unopenedProjects : list Project;
  openedProjects : list Project;
  isOpeningProject : bool;
  (* what the event loop still holds *)
  opening : list Project;  (* calls of openProjectAndGenerateThumbnail awaited *)
  timers : nat;            (* setTimeout(preloadNextURL, i * 200) not yet fired *)
  settled : nat;           (* preloads whose last [.then] has not run yet *)
  closing : nat;           (* openNextProject calls awaiting context/browser.close() *)
  resolved : option Result (* what resolveQueue was first called with *)
}.

(** [urlsToProcess.map(({ url, isThumbTransparent }, index) => ...)]. *)
Fixpoint enqueue (i : nat) (urlsToProcess : list Admission.Reference)
  : list Project :=
  match urlsToProcess with
  | [] => []
  | r :: t =>
      mkProject (i + 1) (Admission.url r) (Admission.isThumbTransparent r)
                None None None None
      :: enqueue (i + 1) t
  end.

Definition start (urlsToProcess : list Admission.Reference) : State :=
  mkState (enqueue 0 urlsToProcess) [] [] [] [] [] [] false
          [] inParallel 0 0 None.

(** Two entries are the same object exactly when they were made at the
    same position of [urlsToProcess], that is when [index] agrees. *)
Definition sameProject (p q : Project) : bool := Nat.eqb (index p) (index q).

(** [array.indexOf(project)], [None] for [-1]. *)
Fixpoint indexOfProject (l : list Project) (p : Project) : option nat :=
  match l with
  | [] => None
  | q :: t => if sameProject q p then Some 0
              else option_map S (indexOfProject t p)
  end.

(** [array.splice(position, 1)]. *)
Definition splice1 {A} (position : nat) (l : list A) : list A :=
  firstn position l ++ skipn (S position) l.

Definition preloadNextURL (s : State) : State :=
  match queuedProjects s with
  | [] => s
  | project :: rest =>
      if Nat.leb inParallel (List.length (loadingProjects s)) then s
      else mkState rest (loadingProjects s ++ [project]) (preloadedProjects s)
             (missingProjects s) (fontSwapProjects s) (unopenedProjects s)
             (openedProjects s) (isOpeningProject s) (opening s) (timers s)
             (settled s) (closing s) (resolved s)
  end.

Definition openNextProject (s : State) : State :=
  if isOpeningProject s then s else
  match preloadedProjects s, queuedProjects s, loadingProjects s with
  | [], [], [] =>
      (* every project has been attempted: close, then resolve *)
      mkState (queuedProjects s) (loadingProjects s) (preloadedProjects s)
        (missingProjects s) (fontSwapProjects s) (unopenedProjects s)
        (openedProjects s) (isOpeningProject s) (opening s) (timers s)
        (settled s) (S (closing s)) (resolved s)
  | [], _, _ => s
  | project :: rest, _, _ =>
      mkState (queuedProjects s) (loadingProjects s) rest
        (missingProjects s) (fontSwapProjects s) (unopenedProjects s)
        (openedProjects s) true (opening s ++ [project]) (timers s)
        (settled s) (closing s) (resolved s)
  end.

(** The [.then] of a preload that resolved with [blobSize]; [None] is the
    [throw new Error('Can't find loading URL')]. *)
Definition preloaded (project : Project) (blobSize : Z) (s : State)
  : option State :=
  let project' :=
    mkProject (index project) (url project) (isThumbTransparent project)
      (Some (roundKB blobSize)) (error project) (fontsToSwap project)
      (rendered project) in
  match indexOfProject (loadingProjects s) project with
  | None => None
  | Some position =>
      Some (mkState (queuedProjects s)
              (splice1 position (loadingProjects s))
              (preloadedProjects s ++ [project'])
              (missingProjects s) (fontSwapProjects s) (unopenedProjects s)
              (openedProjects s) (isOpeningProject s) (opening s) (timers s)
              (settled s) (closing s) (resolved s))
  end.

(** The [.catch] of a preload. *)
Definition preloadFailed (project : Project) (err : Error) (s : State)
  : option State :=
  match indexOfProject (loadingProjects s) project with
  | None => None
  | Some position =>
      let project' :=
        mkProject (index project) (url project) (isThumbTransparent project)
          (sizeInKB project) (Some err) (fontsToSwap project)
          (rendered project) in
      Some (mkState (queuedProjects s)
              (splice1 position (loadingProjects s))
              (preloadedProjects s)
              (missingProjects s ++ [project']) (fontSwapProjects s)
              (unopenedProjects s) (openedProjects s) (isOpeningProject s)
              (opening s) (timers s) (settled s) (closing s) (resolved s))
  end.

Definition awaitLastThen (s : State) : State :=
  mkState (queuedProjects s) (loadingProjects s) (preloadedProjects s)
    (missingProjects s) (fontSwapProjects s) (unopenedProjects s)
    (openedProjects s) (isOpeningProject s) (opening s) (timers s)
    (S (settled s)) (closing s) (resolved s).

(** The chain [.then(...).catch(...)] once the page has answered: a
    throwing [.then] falls into the [.catch]; when that throws as well
    the chain is rejected and its last [.then] never runs. *)
Definition preloadSettled (host : nat -> Requests) (project : Project)
  (s : State) : State :=
  match fst (preload (host (index project))) with
  | inr blobSize =>
      match preloaded project blobSize s with
      | Some s' => awaitLastThen s'
      | None =>
          match preloadFailed project "Can't find loading URL" s with
          | Some s' => awaitLastThen s'
          | None => s
          end
      end
  | inl err =>
      match preloadFailed project err s with
      | Some s' => awaitLastThen s'
      | None => s
      end
  end.

(** The last [.then] of a preload. *)
Definition preloadThen (s : State) : State :=
  preloadNextURL (openNextProject s).

Definition withTimers (n : nat) (s : State) : State :=
  mkState (queuedProjects s) (loadingProjects s) (preloadedProjects s)
    (missingProjects s) (fontSwapProjects s) (unopenedProjects s)
    (openedProjects s) (isOpeningProject s) (opening s) n
    (settled s) (closing s) (resolved s).

Definition withSettled (n : nat) (s : State) : State :=
  mkState (queuedProjects s) (loadingProjects s) (preloadedProjects s)
    (missingProjects s) (fontSwapProjects s) (unopenedProjects s)
    (openedProjects s) (isOpeningProject s) (opening s) (timers s)
    n (closing s) (resolved s).

(** Dropping a settled call from the calls awaited. *)
Fixpoint settle (l : list Project) (p : Project) : list Project :=
  match l with
  | [] => []
  | q :: t => if sameProject q p then t else q :: settle t p
  end.

(** The rest of [openNextProject] once the awaited
    [openProjectAndGenerateThumbnail] has settled. *)
Definition opened (page : nat -> PageReplies) (project : Project)
  (s : State) : State :=
  let outcome :=
    openProjectAndGenerateThumbnail (page (index project)) (url project)
      (isThumbTransparent project) in
  let result := match outcome with inr r => Some r | inl _ => None end in
  let unopened' :=
    match outcome with
    | inl err =>
        unopenedProjects s ++
          [mkProject (index project) (url project)
             (isThumbTransparent project) (sizeInKB project) (Some err)
             (fontsToSwap project) (rendered project)]
    | inr _ => unopenedProjects s
    end in
  let fontSwap' :=
    match hasFontsToSwap result with
    | Some fonts =>
        fontSwapProjects s ++
          [mkProject (index project) (url project)
             (isThumbTransparent project) (sizeInKB project) (error project)
             (Some fonts) (rendered project)]
    | None => fontSwapProjects s
    end in
  let opened' :=
    match hasThumbURL result with
    | Some r =>
        openedProjects s ++
          [mkProject (index project) (url project)
             (isThumbTransparent project) (sizeInKB project) (error project)
             (fontsToSwap project) (Some r)]
    | None => openedProjects s
    end in
  openNextProject
    (mkState (queuedProjects s) (loadingProjects s) (preloadedProjects s)
       (missingProjects s) fontSwap' unopened' opened' false
       (settle (opening s) project) (timers s) (settled s) (closing s)
       (resolved s)).

Definition report (s : State) : Result :=
  mkResult (map deleteIndex (openedProjects s))
           (map deleteIndex (missingProjects s))
           (map deleteIndex (fontSwapProjects s))
           (map deleteIndex (unopenedProjects s)).

(** [resolveQueue({...})] after the two [close()] calls: a promise keeps
    the first value it is resolved with. *)
Definition resolveQueue (s : State) : State :=
  mkState (queuedProjects s) (loadingProjects s) (preloadedProjects s)
    (missingProjects s) (fontSwapProjects s) (unopenedProjects s)
    (openedProjects s) (isOpeningProject s) (opening s) (timers s)
    (settled s) (Nat.pred (closing s))
    (match resolved s with
     | Some r => Some r
     | None => Some (report s)
     end).

Section Run.

Variable host : nat -> Requests.
Variable page : nat -> PageReplies.

(** One turn of the event loop. *)
Inductive step : State -> State -> Prop :=
| step_timer s n :
    timers s = S n ->
    step s (preloadNextURL (withTimers n s))
| step_preload_settled s project :
    In project (loadingProjects s) ->
    step s (preloadSettled host project s)
| step_preload_then s n :
    settled s = S n ->
    step s (preloadThen (withSettled n s))
| step_opened s project :
    In project (opening s) ->
    step s (opened page project s)
| step_resolve s :
    0 < closing s ->
    step s (resolveQueue s).

Inductive reachable (s0 : State) : State -> Prop :=
| reach_start : reachable s0 s0
| reach_step s s' : reachable s0 s -> step s s' -> reachable s0 s'.

(** The pipeline run on [urlsToProcess] resolves with [r]. *)
Definition resolvesWith (urlsToProcess : list Admission.Reference)
  (r : Result) : Prop :=
  exists s, reachable (start urlsToProcess) s /\ resolved s = Some r.

(** A scheduler: one order in which the event loop can take its turns. *)
Definition next (s : State) : option State :=
  match timers s with
  | S n => Some (preloadNextURL (withTimers n s))
  | O =>
      match settled s with
      | S n => Some (preloadThen (withSettled n s))
      | O =>
          match loadingProjects s with
          | project :: _ => Some (preloadSettled host project s)
          | [] =>
              match opening s with
              | project :: _ => Some (opened page project s)
              | [] =>
                  match closing s with
                  | S _ => Some (resolveQueue s)
                  | O => None
                  end
              end
          end
      end
  end.

Fixpoint run (fuel : nat) (s : State) : State :=
  match fuel with
  | O => s
  | S fuel' =>
      match next s with
      | Some s' => run fuel' s'
      | None => s
      end
  end.

(** *** What holds of every state the queue can be in *)

(** Every entry of the queue is in exactly one of these lists. *)
Definition everyProject (s : State) : list Project :=
  queuedProjects s ++ loadingProjects s ++ preloadedProjects s ++ opening s
  ++ missingProjects s ++ fontSwapProjects s ++ unopenedProjects s
  ++ openedProjects s.

(** What an entry was made from: its position and its reference. *)
Definition base (p : Project) : nat * Admission.Reference :=
  (index p, Admission.mkReference (url p) (isThumbTransparent p)).

(** The answer of the page to the preload of [p], and to its opening. *)
Definition preloadOf (p : Project) : Error + Z :=
  fst (preload (host (index p))).

Definition openingOf (p : Project) : Error + OpenResult :=
  openProjectAndGenerateThumbnail (page (index p)) (url p)
    (isThumbTransparent p).

Record Invariant (urlsToProcess : list Admission.Reference) (s : State)
  : Prop := mkInvariant {
  inv_conserved :
    Permutation (map base (everyProject s))
                (map base (enqueue 0 urlsToProcess));
  inv_serial :
    (opening s = [] /\ isOpeningProject s = false)
    \/ (exists p, opening s = [p] /\ isOpeningProject s = true);
  inv_drained :
    0 < closing s \/ resolved s <> None ->
    queuedProjects s = [] /\ loadingProjects s = []
    /\ preloadedProjects s = [] /\ opening s = [];
  inv_resolved :
    forall r, resolved s = Some r -> r = report s;
  inv_fetched :
    Forall (fun p => exists size,
                preloadOf p = inr size /\ sizeInKB p = Some (roundKB size))
           (preloadedProjects s ++ opening s ++ fontSwapProjects s
            ++ unopenedProjects s ++ openedProjects s);
  inv_missing :
    Forall (fun p => exists e, preloadOf p = inl e /\ error p = Some e)
           (missingProjects s);
  inv_fontSwap :
    Forall (fun p => exists fonts,
                openingOf p = inr (FontsObject fonts)
                /\ fontsToSwap p = Some fonts)
           (fontSwapProjects s);
  inv_unopened :
    Forall (fun p => exists e, openingOf p = inl e /\ error p = Some e)
           (unopenedProjects s);
  inv_opened :
    Forall (fun p => exists r,
                openingOf p = inr (ThumbObject r) /\ rendered p = Some r)
           (openedProjects s)
}.

(** *** Why the scheduler comes to an end *)

(** What is left to do, weighted so that every turn lowers it. *)
Definition weight (s : State) : nat :=
  timers s + 2 * settled s + closing s
  + 7 * List.length (queuedProjects s) + 6 * List.length (loadingProjects s)
  + 3 * List.length (preloadedProjects s) + 2 * List.length (opening s).

(** Nothing waits without something that will wake it: a queued entry
    has a preload slot that is busy or about to be refilled, a preloaded
    entry has an opening or a [.then] ahead of it, and a queue with
    nothing left and nothing pending has resolved. *)
Record Live (s : State) : Prop := mkLive {
  live_slots :
    queuedProjects s <> [] ->
    timers s + settled s + List.length (loadingProjects s) = inParallel;
  live_opening :
    preloadedProjects s <> [] -> opening s <> [] \/ 0 < settled s;
  live_end :
    settled s = 0 -> closing s = 0 -> loadingProjects s = [] ->
    opening s = [] -> queuedProjects s = [] -> preloadedProjects s = [] ->
    resolved s <> None
}.

End Run.

Definition reference_eq_dec (x y : Admission.Reference) : {x = y} + {x <> y}.
Proof.
  decide equality.
  - decide equality. apply Bool.bool_dec.
  - apply string_dec.
Defined.

Definition base_eq_dec (x y : nat * Admission.Reference) : {x = y} + {x <> y}.
Proof.
  decide equality.
  - apply reference_eq_dec.
  - apply Nat.eq_dec.
Defined.

(** The reference an entry of the report was made from. *)
Definition referenceOf (e : Entry) : Admission.Reference :=
  Admission.mkReference (e_url e) (e_isThumbTransparent e).

End ExtractData.

(** ** The endpoint [POST /extract/] *)

Module Endpoint.

Import ExtractData.

Definition limit : nat := Admission.maxChromeInstances * Admission.maxBatchSize.

(** A length inside a template string. *)
Definition decimal (n : nat) : string := NilEmpty.string_of_uint (Nat.to_uint n).

Definition newline : string := String (ascii_of_nat 10) EmptyString.

(** The body of a 200 reply. *)
Record Report := mkReport {
  result : string;
  openedProjects : list Entry;
  missingProjects : list Entry;
  fontSwapProjects : list Entry;
  unopenedProjects : list Entry
}.

Inductive Reply :=
| Status503 (error : string)
| Status400 (error : string)
| Status200 (body : Report).

(** How the handler ends: after [reply.send], or by an exception that
    leaves the [async] handler (nothing was sent by the handler). *)
Inductive Outcome :=
| Sent (r : Reply)
| Thrown (e : Error).

Inductive Log := MissingFontsCsv | TransparencyMismatchesCsv.

Record Disk := mkDisk {
  missingFonts : string;
  transparencyMismatches : string
}.

(** The module-level [let isRunning], and the two files under [results/]. *)
Record Server := mkServer {
  isRunning : bool;
  disk : Disk
}.

(** What the handler gets from outside during one request. *)
Record World := mkWorld {
  batchLetters : string;                 (* randomAlphaString(3), the batch *)
  instanceLetters : nat -> string;       (* randomAlphaString(3), each turn *)
  extractData :
    Coordinator.InstanceID -> list Admission.Reference -> Error + Result;
  settledAt : nat -> nat;                (* when the promise at a position of
                                            [promises] settles *)
  timedOut : bool;                       (* the timeout ran before Promise.all *)
  seconds : string;                      (* toSeconds(totalTime) *)
  secondsPerBFD : string;                (* toSeconds(totalTime / openedLength) *)
  appendFails : Log -> option Error      (* fs.appendFileSync throws *)
}.

(** The rejection that comes first in time among the promises from
    position [i] on, [when k] being the time at which the promise at
    position [k] settles (two promises do not settle at the same time; of
    two rejections given the same time the one of the earlier promise is
    kept). *)
Fixpoint firstRejection {A} (when : nat -> nat) (i : nat)
  (l : list (Error + A)) : option (nat * Error) :=
  match l with
  | [] => None
  | p :: t =>
      match p, firstRejection when (S i) t with
      | inl e, Some (time, e') =>
          if Nat.ltb time (when i) then Some (time, e') else Some (when i, e)
      | inl e, None => Some (when i, e)
      | inr _, later => later
      end
  end.

(** The values of the promises that are fulfilled. *)
Fixpoint fulfilled {A} (l : list (Error + A)) : list A :=
  match l with
  | [] => []
  | inl _ :: t => fulfilled t
  | inr a :: t => a :: fulfilled t
  end.

(** [Promise.all]: the values in the order of the promises when all of
    them are fulfilled; otherwise the rejection that came first in
    time. *)
Definition promiseAll {A} (when : nat -> nat) (l : list (Error + A))
  : Error + list A :=
  match firstRejection when 0 l with
  | Some (_, e) => inl e
  | None => inr (fulfilled l)
  end.

Definition resultText (w : World) (openedLength urlsLength instances : nat)
  : string :=
  let perBFD :=
    match openedLength with
    | O => ""
    | S _ => "(" ++ secondsPerBFD w ++ "s / BFD)"
    end%string in
  ("Generated thumbnails for " ++ decimal openedLength ++ " / "
   ++ decimal urlsLength ++ " BFDs in " ++ seconds w ++ "s " ++ perBFD
   ++ " using " ++ decimal instances ++ " Chrome instance(s)")%string.

(** [if (timedOut) result.result = 'Timed out. ' + result.result]. *)
Definition mark (timedOut : bool) (text : string) : string :=
  if timedOut then ("Timed out. " ++ text)%string else text.

(** The [.then] of [Promise.all(promises)], and the mark of a timeout. *)
Definition combine (w : World) (urlsLength : nat) (allResults : list Result)
  : Report :=
  let opened := JS.concatAll (map r_openedProjects allResults) in
  mkReport
    (mark (timedOut w)
       (resultText w (List.length opened) urlsLength (List.length allResults)))
    opened
    (JS.concatAll (map r_missingProjects allResults))
    (JS.concatAll (map r_fontSwapProjects allResults))
    (JS.concatAll (map r_unopenedProjects allResults)).

(** [fonts = [...fonts, ...fontsToSwap]] over the font-swap entries; an
    entry without [fontsToSwap] cannot be spread. *)
Fixpoint collectFonts (fonts : list string) (l : list Entry)
  : Error + list string :=
  match l with
  | [] => inr fonts
  | e :: t =>
      match e_fontsToSwap e with
      | Some fontsToSwap => collectFonts (fonts ++ fontsToSwap) t
      | None => inl "fontsToSwap is not iterable"
      end
  end.

(** [if (project.transparencyMismatch) transparencyMismatches.push(project.thumbURL)]. *)
Fixpoint collectMismatches (l : list Entry) : list string :=
  match l with
  | [] => []
  | e :: t =>
      match e_rendered e with
      | Some r =>
          match transparencyMismatch r with
          | Some true => thumbURL r :: collectMismatches t
          | _ => collectMismatches t
          end
      | None => collectMismatches t
      end
  end.

(** [delete project.transparencyMismatch]. *)
Definition deleteMismatch (e : Entry) : Entry :=
  match e_rendered e with
  | Some r =>
      mkEntry (e_url e) (e_isThumbTransparent e) (e_sizeInKB e) (e_error e)
        (e_fontsToSwap e)
        (Some (mkRendered (thumbURL r) (projectWidth r) (projectHeight r)
                 (text r) (sectionID r) (version r) (sourceTemplateID r) None))
  | None => e
  end.

(** [fs.appendFileSync(path, lines.join('\n') + '\n')]. *)
Definition appendFileSync (w : World) (log : Log) (lines : list string)
  (d : Disk) : Error + Disk :=
  match appendFails w log with
  | Some e => inl e
  | None =>
      let data := (String.concat newline lines ++ newline)%string in
      inr match log with
          | MissingFontsCsv =>
              mkDisk (missingFonts d ++ data)%string (transparencyMismatches d)
          | TransparencyMismatchesCsv =>
              mkDisk (missingFonts d) (transparencyMismatches d ++ data)%string
          end
  end.

(** [if (lines.length) fs.appendFileSync(...)]. *)
Definition appendIfAny (w : World) (log : Log) (lines : list string)
  (d : Disk) : Error + Disk :=
  match lines with
  | [] => inr d
  | _ :: _ => appendFileSync w log lines d
  end.

(** The handler, from the first test to [isRunning = false]. *)
Definition handler (w : World) (srv : Server) (urls : list string)
  : Server * Outcome :=
  if isRunning srv then
    (srv, Sent (Status503 "Already running, please wait."))
  else if Nat.ltb limit (List.length urls) then
    (srv, Sent (Status400 ("Too many URLs. Limit = " ++ decimal limit)%string))
  else
    let accepted := Admission.accepted urls in
    let batches :=
      Coordinator.batches (batchLetters w) (instanceLetters w) accepted in
    let promises := map (fun kv => extractData w (fst kv) (snd kv)) batches in
    match promiseAll (settledAt w) promises with
    | inl e => (mkServer true (disk srv), Thrown e)
    | inr allResults =>
        let result := combine w (List.length accepted) allResults in
        match collectFonts [] (fontSwapProjects result) with
        | inl e => (mkServer true (disk srv), Thrown e)
        | inr fonts =>
            match appendIfAny w MissingFontsCsv fonts (disk srv) with
            | inl e => (mkServer true (disk srv), Thrown e)
            | inr disk1 =>
                let mismatches := collectMismatches (openedProjects result) in
                let result' :=
                  mkReport (Endpoint.result result)
                    (map deleteMismatch (openedProjects result))
                    (missingProjects result) (fontSwapProjects result)
                    (unopenedProjects result) in
                match appendIfAny w TransparencyMismatchesCsv mismatches disk1
                with
                | inl e => (mkServer true disk1, Thrown e)
                | inr disk2 => (mkServer false disk2, Sent (Status200 result'))
                end
            end
        end
    end.

(** Every pipeline of the request ran until its queue resolved (the
    timeout did not cut it short). *)
Definition everyPipelineCompletes (w : World) : Prop :=
  forall id shard r,
    extractData w id shard = inr r ->
    exists host page, resolvesWith host page shard r.

(** The four lists of a report, one after the other. *)
Definition outcomes (body : Report) : list Entry :=
  openedProjects body ++ fontSwapProjects body ++ missingProjects body
  ++ unopenedProjects body.

End Endpoint.

(** ** The deadline of a batch: [batchTerminations], [runBatch], the timeout *)

Module Deadline.

Import ExtractData.

(** The [exit] property of [batchTerminations[instanceID]]. The object is
    created empty and handed to [extractData] as a fourth argument;
    [extractData] takes three parameters and does nothing with it, so the
    only assignment to [exit] is the one of [runBatch]. *)
Inductive Exit :=
| Undefined   (* [{}]: nothing was assigned *)
| Noop.       (* [() => { }], assigned once the pipeline has returned *)

(** The promise of [extractData] inside [runBatch]. *)
Inductive Status :=
| Running
| Returned
| Rejected (e : Error).

Record Instance := mkInstance {
  exit : Exit;
  status : Status
}.

(** The variables of one request that the timeout callback, [runBatch]
    and the rest of the handler share. *)
Record Batch := mkBatch {
  instances : list (Coordinator.InstanceID * Instance); (* by insertion order *)
  resultText : string;     (* the summary the [.then] of [Promise.all] builds *)
  timedOut : bool;         (* let timedOut *)
  timer : bool;            (* the timeout has neither fired nor been cleared *)
  awaiting : bool;         (* the handler is at [await Promise.all(promises)] *)
  summary : option string; (* [result.result] once the handler has marked it *)
  thrown : option Error;   (* the rejection that left the handler *)
  uncaught : option Error  (* an exception left the timeout callback *)
}.

Inductive Event :=
| Returns (position : nat)
| Rejects (position : nat) (e : Error)
| Expires.

Definition isReturned (i : Instance) : bool :=
  match status i with Returned => true | _ => false end.

(** [runBatch] after [await extractData(...)]: [forceTerminate.exit =
    () => { }], then [return result]. *)
Definition returned (i : Instance) : Instance := mkInstance Noop Returned.

(** [runBatch] when [extractData] rejects: the exception leaves it at the
    [await], and the assignment to [exit] is not reached. *)
Definition rejected (e : Error) (i : Instance) : Instance :=
  mkInstance (exit i) (Rejected e).

Fixpoint update {A} (k : nat) (x : A) (l : list A) : list A :=
  match l, k with
  | [], _ => []
  | _ :: t, O => x :: t
  | y :: t, S j => y :: update j x t
  end.

Definition withInstances
  (l : list (Coordinator.InstanceID * Instance)) (b : Batch) : Batch :=
  mkBatch l (resultText b) (timedOut b) (timer b) (awaiting b) (summary b)
    (thrown b) (uncaught b).

(** The handler from [await Promise.all(promises)] to the mark of the
    summary, once every promise is fulfilled: [clearTimeout(timeout)],
    then [if (timedOut) result.result = 'Timed out. ' + result.result].
    It runs in the turn in which the last pipeline returns: no timer
    fires in between. *)
Definition resume (b : Batch) : Batch :=
  if awaiting b && forallb (fun kv => isReturned (snd kv)) (instances b) then
    mkBatch (instances b) (resultText b) (timedOut b) false false
      (Some (Endpoint.mark (timedOut b) (resultText b))) (thrown b)
      (uncaught b)
  else b.

(** A rejected pipeline rejects [Promise.all]: the exception leaves the
    handler at the [await], and [clearTimeout] is not reached. *)
Definition abandon (e : Error) (b : Batch) : Batch :=
  if awaiting b then
    mkBatch (instances b) (resultText b) (timedOut b) (timer b) false
      (summary b) (Some e) (uncaught b)
  else b.

(** [Object.values(batchTerminations).forEach(termination =>
    termination.exit())]: the first object without an [exit] ends the
    loop with a [TypeError]. *)
Fixpoint callExits (l : list (Coordinator.InstanceID * Instance))
  : option Error :=
  match l with
  | [] => None
  | kv :: t =>
      match exit (snd kv) with
      | Undefined => Some "termination.exit is not a function"
      | Noop => callExits t
      end
  end.

(** The callback of [setTimeout]. An exception that leaves it is caught
    by nobody (the repository installs no handler for it), and Node ends
    the process. *)
Definition expire (b : Batch) : Batch :=
  mkBatch (instances b) (resultText b) true false (awaiting b) (summary b)
    (thrown b) (callExits (instances b)).

(** The handler from [setTimeout] to [await Promise.all(promises)]: the
    timer is set, every pipeline is started with its empty
    [forceTerminate]. (With no shard at all [Promise.all([])] is
    fulfilled at once.) *)
Definition launch (ids : list Coordinator.InstanceID) (text : string) : Batch :=
  resume
    (mkBatch (map (fun id => (id, mkInstance Undefined Running)) ids) text
       false true true None None None).

(** One turn of the event loop; [None] when the turn cannot be taken: the
    process has ended, a promise settles once, a timer that is not armed
    does not fire. *)
Definition turn (b : Batch) (ev : Event) : option Batch :=
  match uncaught b with
  | Some _ => None
  | None =>
      match ev with
      | Returns k =>
          match nth_error (instances b) k with
          | Some kv =>
              match status (snd kv) with
              | Running =>
                  Some (resume
                          (withInstances
                             (update k (fst kv, returned (snd kv)) (instances b))
                             b))
              | _ => None
              end
          | None => None
          end
      | Rejects k e =>
          match nth_error (instances b) k with
          | Some kv =>
              match status (snd kv) with
              | Running =>
                  Some (abandon e
                          (withInstances
                             (update k (fst kv, rejected e (snd kv))
                                (instances b))
                             b))
              | _ => None
              end
          | None => None
          end
      | Expires => if timer b then Some (expire b) else None
      end
  end.

Inductive reachable (b0 : Batch) : Batch -> Prop :=
| reach_start : reachable b0 b0
| reach_turn b ev b' : reachable b0 b -> turn b ev = Some b' -> reachable b0 b'.

(** A run of the event loop through a list of turns. *)
Fixpoint turns (b : Batch) (evs : list Event) : option Batch :=
  match evs with
  | [] => Some b
  | ev :: rest =>
      match turn b ev with
      | Some b' => turns b' rest
      | None => None
      end
  end.

(** What [exit] holds, by the state of the pipeline. *)
Definition consistent (i : Instance) : Prop :=
  match status i with
  | Returned => exit i = Noop
  | _ => exit i = Undefined
  end.

End Deadline.

(** ** Worked inputs *)

Module Demo.

Import ExtractData Endpoint.

(** Answers by position in the shard: the first entry needs a font
    swap, the second is opened (and its thumbnail does not match the
    transparency asked for), the third cannot be opened, the fourth cannot
    be downloaded, the fifth is downloaded at the second request. *)
Definition requests (i : nat) : Requests :=
  match i with
  | 4 => mkRequests (inl "timeout") (inl "not found")
  | 5 => mkRequests (inl "timeout") (inr 4096%Z)
  | _ => mkRequests (inr 2048%Z) (inl "unused")
  end.

Definition page (i : nat) : PageReplies :=
  mkPageReplies (inr (Some 3%Z)) (inr tt)
    (inr (if Nat.eqb i 1 then ["Arial"] else []))
    (if Nat.eqb i 3 then inl "no_flattened_image"
     else inr (mkProjectVO "hello" 10 20 "designer" None))
    (inr ("image/jpeg", false)) (inr (Some "/tmp/download")) (inr tt) (inr tt).

Definition fiveReferences : list Admission.Reference :=
  Admission.accepted
    ["a.bfd"; "b.bfd_thumb.png"; "c.bfd"; "d.bfd"; "dir/e.bfd_thumb.jpg"].

(** [extractData], by the scheduler. *)
Definition extract (id : Coordinator.InstanceID)
  (shard : list Admission.Reference) : Error + Result :=
  match resolved (run requests page 200 (start shard)) with
  | Some r => inr r
  | None => inl "unresolved"
  end.

Definition world : World :=
  mkWorld "abc" (fun _ => "xyz") extract (fun i => i) false "1.0" "0.5"
    (fun _ => None).

(** The same, with a font log that cannot be written. *)
Definition diskFull : World :=
  mkWorld "abc" (fun _ => "xyz") extract (fun i => i) false "1.0" "0.5"
    (fun log => match log with
                | MissingFontsCsv => Some "ENOSPC"
                | TransparencyMismatchesCsv => None
                end).

(** The same, with a browser that cannot be launched. *)
Definition noBrowser : World :=
  mkWorld "abc" (fun _ => "xyz") (fun _ _ => inl "browserType.launch failed")
    (fun i => i) false "1.0" "0.5" (fun _ => None).

Definition idle : Server := mkServer false (mkDisk "" "").

Definition fourUrls : list string :=
  ["a.bfd"; "b.bfd_thumb.png"; "a.bfd"; "c.bfd"; "notes.txt"; "d.bfd"].

(** 226 raw entries. *)
Definition tooMany : list string := repeat "a.bfd" 226.

Definition threeIDs : list Coordinator.InstanceID :=
  [Coordinator.mkInstanceID "abc" 1 "xyz"; Coordinator.mkInstanceID "abc" 2 "xyz";
   Coordinator.mkInstanceID "abc" 3 "xyz"].

Definition tenReferences : list Admission.Reference :=
  Admission.accepted
    ["1.bfd"; "2.bfd"; "3.bfd"; "4.bfd"; "5.bfd";
     "6.bfd"; "7.bfd"; "8.bfd"; "9.bfd"; "10.bfd"].

(** A batch of three pipelines, the second of which has returned. *)
Definition oneReturned : Deadline.Batch :=
  Deadline.mkBatch
    [(Coordinator.mkInstanceID "abc" 1 "xyz",
      Deadline.mkInstance Deadline.Undefined Deadline.Running);
     (Coordinator.mkInstanceID "abc" 2 "xyz",
      Deadline.mkInstance Deadline.Noop Deadline.Returned);
     (Coordinator.mkInstanceID "abc" 3 "xyz",
      Deadline.mkInstance Deadline.Undefined Deadline.Running)]
    (Endpoint.resultText world 1 3 3) false true true None None None.

End Demo.

(** ** One design under two names *)

Module TwoNames.

Import ExtractData Endpoint.

(** The first Chrome instance downloads and renders its project, the
    second cannot download it. *)
Definition requests (id : Coordinator.InstanceID) (i : nat) : Requests :=
  if Nat.eqb (Coordinator.ordinal id) 1
  then mkRequests (inr 2048%Z) (inl "unused")
  else mkRequests (inl "timeout") (inl "not found").

Definition page (i : nat) : PageReplies :=
  mkPageReplies (inr (Some 3%Z)) (inr tt) (inr [])
    (inr (mkProjectVO "hello" 10 20 "designer" None))
    (inr ("image/png", true)) (inr (Some "/tmp/download")) (inr tt) (inr tt).

(** [extractData], by the scheduler. *)
Definition extract (id : Coordinator.InstanceID)
  (shard : list Admission.Reference) : Error + Result :=
  match resolved (run (requests id) page 200 (start shard)) with
  | Some r => inr r
  | None => inl "unresolved"
  end.

Definition world : World :=
  mkWorld "abc" (fun _ => "xyz") extract (fun i => i) false "1.0" "0.5"
    (fun _ => None).

(** A design named by its payload, by its thumbnail, and by its payload
    once more. *)
Definition urls : list string := ["foo.bfd"; "foo.bfd_thumb.png"; "foo.bfd"].

End TwoNames.

(** ** The pipeline, one entry at a time

    What [preloadNextURL] and [openNextProject] do to a single entry, read
    without the queue: the preload decides between the missing entries and
    the rest, the opening between the three other lists. The queue is
    compared with it in Part III. *)

Module Sequential.

Import ExtractData.

Inductive Bucket := Opened | FontSwap | Missing | Unopened.

Definition sameBucket (a b : Bucket) : bool :=
  match a, b with
  | Opened, Opened | FontSwap, FontSwap | Missing, Missing
  | Unopened, Unopened => true
  | _, _ => false
  end.

Section Outcome.

Variable host : nat -> Requests.
Variable page : nat -> PageReplies.

(** The list the entry at position [i] ends in, and the entry as it is
    reported. *)
Definition outcome (i : nat) (r : Admission.Reference) : Bucket * Entry :=
  let u := Admission.url r in
  let h := Admission.isThumbTransparent r in
  match fst (preload (host i)) with
  | inl e => (Missing, mkEntry u h None (Some e) None None)
  | inr size =>
      match openProjectAndGenerateThumbnail (page i) u h with
      | inl err =>
          (Unopened, mkEntry u h (Some (roundKB size)) (Some err) None None)
      | inr (FontsObject fonts) =>
          (FontSwap, mkEntry u h (Some (roundKB size)) None (Some fonts) None)
      | inr (ThumbObject r) =>
          (Opened, mkEntry u h (Some (roundKB size)) None None (Some r))
      end
  end.

Fixpoint outcomes (i : nat) (urlsToProcess : list Admission.Reference)
  : list (Bucket * Entry) :=
  match urlsToProcess with
  | [] => []
  | r :: t => outcome (i + 1) r :: outcomes (i + 1) t
  end.

(** The entries of one list, in the order of [urlsToProcess]. *)
Definition bucket (b : Bucket) (urlsToProcess : list Admission.Reference)
  : list Entry :=
  map snd (filter (fun o => sameBucket (fst o) b) (outcomes 0 urlsToProcess)).

(** An entry of the queue that no handler has touched yet. *)
Definition fresh (p : Project) : Prop :=
  sizeInKB p = None /\ error p = None /\ fontsToSwap p = None
  /\ rendered p = None.

(** An entry whose preload resolved. *)
Definition ready (p : Project) : Prop :=
  exists size,
    fst (preload (host (index p))) = inr size
    /\ sizeInKB p = Some (roundKB size)
    /\ error p = None /\ fontsToSwap p = None /\ rendered p = None.

(** An entry that sits in list [b] as [outcome] has it. *)
Definition settledAs (b : Bucket) (p : Project) : Prop :=
  outcome (index p)
          (Admission.mkReference (url p) (isThumbTransparent p))
  = (b, deleteIndex p).

Record Shaped (s : State) : Prop := mkShaped {
  shaped_fresh : Forall fresh (queuedProjects s ++ loadingProjects s);
  shaped_ready : Forall ready (preloadedProjects s ++ opening s);
  shaped_missing : Forall (settledAs Missing) (missingProjects s);
  shaped_fontSwap : Forall (settledAs FontSwap) (fontSwapProjects s);
  shaped_unopened : Forall (settledAs Unopened) (unopenedProjects s);
  shaped_opened : Forall (settledAs Opened) (openedProjects s)
}.

End Outcome.

End Sequential.

(** ** Characters of a file name *)

Module Text.

(** Whether [c] is one of the characters of [s]. *)
Fixpoint hasChar (c : ascii) (s : string) : bool :=
  match s with
  | EmptyString => false
  | String d t => Ascii.eqb d c || hasChar c t
  end.

End Text.

(** ** The endpoint [POST /extract/] of [endpoints/extract.js]

    The revision that runs one Chrome instance for each request and
    counts the instances in [activeChromeInstances]. The handler has one
    [await]; between the turns of the event loop (the arrival of a
    request, the timeout of a request, the settling of its
    [extractData]) its code runs to the end. [reply.send], the log stream
    and [clearTimeout] are taken to return. [forceTerminate.exit] is
    whatever [extractData] has put there, and a call of it may throw; an
    exception that leaves the callback of a timer is caught by nobody
    (the repository installs no handler for it), and Node ends the
    process. *)

Module SingleInstance.

Import ExtractData.

Definition maxChromeInstances : Z := 3.

Definition maxBatchSize : nat := 75.

Inductive Reply :=
| Status503 (error : string)
| Status400 (error : string)
| Status200 (body : Result).

(** What the timeout callback and the rest of the handler share of one
    request, from [await extractData(...)] on. *)
Record Pending := mkPending {
  urls : list Admission.Reference; (* what extractData was called with *)
  hasTimedOut : bool;
  timeout : bool;         (* the timer has neither fired nor been cleared *)
  awaiting : bool;        (* extractData has not settled *)
  sent : list Reply;      (* the calls of reply.send by the handler *)
  thrown : option Error   (* an exception left the handler *)
}.

(** The module-level [let activeChromeInstances], the two files under
    [results/], the requests that reached [extractData], by order of
    arrival, and the exception that ended the process, if any. *)
Record Server := mkServer {
  activeChromeInstances : Z;
  disk : Endpoint.Disk;
  pending : list Pending;
  uncaught : option Error
}.

(** What the handler gets from outside. *)
Record World := mkWorld {
  exit : nat -> option Error;           (* forceTerminate.exit() throws *)
  appendFails : Endpoint.Log -> option Error (* fs.appendFileSync throws *)
}.

Inductive Event :=
| Receive (urls : list string)
| Timeout (request : nat)
| Resolve (request : nat) (result : Result)
| Reject (request : nat) (e : Error).

(** [array[i] = x] on the requests. *)
Fixpoint update {A} (i : nat) (x : A) (l : list A) : list A :=
  match l, i with
  | [], _ => []
  | _ :: t, O => x :: t
  | y :: t, S j => y :: update j x t
  end.

(** The handler up to [await extractData(...)]; a reply when the request
    is refused. *)
Definition receive (srv : Server) (urls : list string)
  : Server * option Reply :=
  if (maxChromeInstances <=? activeChromeInstances srv)%Z then
    (srv, Some (Status503 "Too many active Chrome instances. Limit = 3"))
  else if Nat.ltb maxBatchSize (List.length urls) then
    (srv, Some (Status400 "Too many URLs. Limit = 75"))
  else
    (mkServer (activeChromeInstances srv + 1) (disk srv)
       (pending srv ++ [mkPending (Admission.accepted urls) false true true
                          [] None])
       (uncaught srv),
     None).

(** The callback of [setTimeout]. *)
Definition timedOut (w : World) (request : nat) (p : Pending) (srv : Server)
  : Server :=
  let p' :=
    mkPending (urls p) true false (awaiting p)
      (sent p ++ [Status503 "Timed out"]) (thrown p) in
  match exit w request with
  | Some e =>
      mkServer (activeChromeInstances srv) (disk srv)
        (update request p' (pending srv)) (Some e)
  | None =>
      mkServer (activeChromeInstances srv - 1) (disk srv)
        (update request p' (pending srv)) (uncaught srv)
  end.

(** [fs.appendFileSync] behind [if (lines.length)]. *)
Definition appendIfAny (w : World) (log : Endpoint.Log) (lines : list string)
  (d : Endpoint.Disk) : Error + Endpoint.Disk :=
  match lines with
  | [] => inr d
  | _ :: _ =>
      match appendFails w log with
      | Some e => inl e
      | None =>
          let data :=
            (String.concat Endpoint.newline lines ++ Endpoint.newline)%string in
          inr match log with
              | Endpoint.MissingFontsCsv =>
                  Endpoint.mkDisk (Endpoint.missingFonts d ++ data)%string
                    (Endpoint.transparencyMismatches d)
              | Endpoint.TransparencyMismatchesCsv =>
                  Endpoint.mkDisk (Endpoint.missingFonts d)
                    (Endpoint.transparencyMismatches d ++ data)%string
              end
      end
  end.

(** The two logs and the reply: the files as they are left, and the reply
    or the exception. *)
Definition logAndReply (w : World) (result : Result) (d : Endpoint.Disk)
  : Endpoint.Disk * (Error + Reply) :=
  match Endpoint.collectFonts [] (r_fontSwapProjects result) with
  | inl e => (d, inl e)
  | inr fonts =>
      match appendIfAny w Endpoint.MissingFontsCsv fonts d with
      | inl e => (d, inl e)
      | inr disk1 =>
          let mismatches :=
            Endpoint.collectMismatches (r_openedProjects result) in
          match appendIfAny w Endpoint.TransparencyMismatchesCsv mismatches
                  disk1 with
          | inl e => (disk1, inl e)
          | inr disk2 =>
              (disk2,
               inr (Status200
                      (mkResult
                         (map Endpoint.deleteMismatch (r_openedProjects result))
                         (r_missingProjects result)
                         (r_fontSwapProjects result)
                         (r_unopenedProjects result))))
          end
      end
  end.

(** The handler after [await extractData(...)], when it resolved. *)
Definition resolved (w : World) (request : nat) (p : Pending)
  (result : Result) (srv : Server) : Server :=
  if hasTimedOut p then
    mkServer (activeChromeInstances srv) (disk srv)
      (update request
         (mkPending (urls p) (hasTimedOut p) (timeout p) false (sent p)
            (thrown p))
         (pending srv))
      (uncaught srv)
  else
    let (disk', outcome) := logAndReply w result (disk srv) in
    mkServer (activeChromeInstances srv - 1) disk'
      (update request
         (match outcome with
          | inl e => mkPending (urls p) false false false (sent p) (Some e)
          | inr reply =>
              mkPending (urls p) false false false (sent p ++ [reply])
                (thrown p)
          end)
         (pending srv))
      (uncaught srv).

(** The same when it rejected: the exception leaves the handler at the
    [await]. *)
Definition rejected (request : nat) (p : Pending) (e : Error) (srv : Server)
  : Server :=
  mkServer (activeChromeInstances srv) (disk srv)
    (update request
       (mkPending (urls p) (hasTimedOut p) (timeout p) false (sent p) (Some e))
       (pending srv))
    (uncaught srv).

(** One turn of the event loop; [None] when the turn cannot be taken: the
    process has ended, a timer that is not armed does not fire, a promise
    settles once. *)
Definition turn (w : World) (srv : Server) (ev : Event) : option Server :=
  match uncaught srv with
  | Some _ => None
  | None =>
      match ev with
      | Receive urls => Some (fst (receive srv urls))
      | Timeout request =>
          match nth_error (pending srv) request with
          | Some p =>
              if timeout p then Some (timedOut w request p srv) else None
          | None => None
          end
      | Resolve request result =>
          match nth_error (pending srv) request with
          | Some p =>
              if awaiting p then Some (resolved w request p result srv)
              else None
          | None => None
          end
      | Reject request e =>
          match nth_error (pending srv) request with
          | Some p =>
              if awaiting p then Some (rejected request p e srv) else None
          | None => None
          end
      end
  end.

Definition idle (d : Endpoint.Disk) : Server := mkServer 0 d [] None.

Inductive reachable (w : World) (d : Endpoint.Disk) : Server -> Prop :=
| reach_idle : reachable w d (idle d)
| reach_turn srv ev srv' :
    reachable w d srv -> turn w srv ev = Some srv' -> reachable w d srv'.

(** A run of the event loop through a list of turns. *)
Fixpoint turns (w : World) (srv : Server) (evs : list Event) : option Server :=
  match evs with
  | [] => Some srv
  | ev :: rest =>
      match turn w srv ev with
      | Some srv' => turns w srv' rest
      | None => None
      end
  end.

(** The timers that are armed. *)
Definition armed (l : list Pending) : nat := List.length (List.filter timeout l).

End SingleInstance.

(** ** Runs of [endpoints/extract.js] *)

Module DemoSingle.

Import SingleInstance.

(** [forceTerminate.exit] returns, and the files can be written. *)
Definition returning : World := mkWorld (fun _ => None) (fun _ => None).

Definition empty : Endpoint.Disk := Endpoint.mkDisk "" "".

Definition nothing : ExtractData.Result := ExtractData.mkResult [] [] [] [].

(** Three requests: the first times out and its pipeline resolves
    afterwards, the pipeline of the second is rejected, the third is
    still running. *)
Definition threeRequests : list Event :=
  [Receive ["a.bfd"]; Receive ["b.bfd"]; Receive ["c.bfd"];
   Timeout 0; Reject 1 "browserType.launch failed"; Resolve 0 nothing].

(** [extractData] takes three parameters: nothing assigns
    [forceTerminate.exit]. *)
Definition throwing : World :=
  mkWorld (fun _ => Some "forceTerminate.exit is not a function")
          (fun _ => None).

(** Two requests, the first of which times out. *)
Definition oneTimeout : list Event :=
  [Receive ["a.bfd"]; Receive ["b.bfd"]; Timeout 0].

(** The server after [evs]. *)
Definition after (w : World) (evs : list Event) : Server :=
  match turns w (idle empty) evs with
  | Some srv => srv
  | None => idle empty
  end.

End DemoSingle.

(* ================================================================== *)
(** * Part II: properties                                             *)
(* ================================================================== *)

(** ** Admission *)

Section AdmissionFacts.

Import Admission.

Lemma existsb_eqb_In (u : string) (seen : list string) :
  existsb (String.eqb u) seen = true <-> In u seen.
Proof.
  rewrite existsb_exists. split.
  - intros [x [Hin Heq]]. apply String.eqb_eq in Heq. now subst.
  - intros Hin. exists u. split; [assumption | apply String.eqb_refl].
Qed.

Lemma indexOfFrom_lower (i : Z) (l : list string) (x : string) :
  In x l -> (i <= JS.indexOfFrom i l x < i + Z.of_nat (List.length l))%Z.
Proof.
  revert i. induction l as [|y t IH]; intros i Hin; [destruct Hin|].
  cbn [JS.indexOfFrom List.length]. destruct (String.eqb_spec y x) as [->|Hne].
  - lia.
  - destruct Hin as [Heq|Hin]; [congruence|].
    specialize (IH (i + 1)%Z Hin). lia.
Qed.

Lemma indexOfFrom_skip (i : Z) (pre suf : list string) (x : string) :
  ~ In x pre ->
  JS.indexOfFrom i (pre ++ x :: suf) x = (i + Z.of_nat (List.length pre))%Z.
Proof.
  revert i. induction pre as [|y t IH]; intros i Hnot; cbn [app JS.indexOfFrom List.length].
  - rewrite String.eqb_refl. lia.
  - destruct (String.eqb_spec y x) as [->|Hne].
    + exfalso. apply Hnot. now left.
    + rewrite IH by (intro; apply Hnot; now right). lia.
Qed.

Lemma indexOfFrom_app_l (i : Z) (pre suf : list string) (x : string) :
  In x pre -> JS.indexOfFrom i (pre ++ suf) x = JS.indexOfFrom i pre x.
Proof.
  revert i. induction pre as [|y t IH]; intros i Hin; [destruct Hin|].
  cbn [app JS.indexOfFrom]. destruct (String.eqb_spec y x) as [->|Hne]; [reflexivity|].
  destruct Hin as [Heq|Hin]; [congruence|]. now apply IH.
Qed.

(** The callback [urls.indexOf(url) === index] holds at a position exactly
    when the entry does not occur before it. *)
Lemma first_position_test (pre suf : list string) (x : string) :
  (JS.indexOf (pre ++ x :: suf) x =? Z.of_nat (List.length pre))%Z
  = negb (existsb (String.eqb x) pre).
Proof.
  unfold JS.indexOf.
  destruct (existsb (String.eqb x) pre) eqn:E; cbn [negb].
  - apply existsb_eqb_In in E. rewrite indexOfFrom_app_l by assumption.
    pose proof (indexOfFrom_lower 0 pre x E). apply Z.eqb_neq. lia.
  - rewrite indexOfFrom_skip.
    + apply Z.eqb_eq. lia.
    + intro Hin. apply existsb_eqb_In in Hin. congruence.
Qed.

Lemma keepFirst_ext (seen seen' urls : list string) :
  (forall u, In u seen <-> In u seen') ->
  keepFirst seen urls = keepFirst seen' urls.
Proof.
  revert seen seen'. induction urls as [|u t IH]; intros seen seen' H; [reflexivity|].
  cbn [keepFirst].
  assert (E : existsb (String.eqb u) seen = existsb (String.eqb u) seen').
  { destruct (existsb (String.eqb u) seen) eqn:E1, (existsb (String.eqb u) seen') eqn:E2;
      try reflexivity.
    - apply existsb_eqb_In, H, existsb_eqb_In in E1. congruence.
    - apply existsb_eqb_In, H, existsb_eqb_In in E2. congruence. }
  rewrite E. destruct (existsb (String.eqb u) seen').
  - now apply IH.
  - f_equal. apply IH. intros v. cbn [In]. now rewrite H.
Qed.

Lemma filterFrom_keepFirst (pre suf : list string) :
  JS.filterFrom (Z.of_nat (List.length pre))
    (fun url index => (JS.indexOf (pre ++ suf) url =? index)%Z) suf
  = keepFirst pre suf.
Proof.
  revert pre. induction suf as [|x t IH]; intros pre; [reflexivity|].
  cbn [JS.filterFrom keepFirst]. rewrite first_position_test.
  assert (Hshift : (Z.of_nat (List.length pre) + 1)%Z
                   = Z.of_nat (List.length (pre ++ [x]))).
  { rewrite length_app. cbn [List.length]. lia. }
  assert (Happ : pre ++ x :: t = (pre ++ [x]) ++ t).
  { now rewrite <- app_assoc. }
  rewrite Hshift, Happ, IH.
  destruct (existsb (String.eqb x) pre) eqn:E; cbn [negb].
  - apply keepFirst_ext. intros v. rewrite in_app_iff. cbn [In].
    apply existsb_eqb_In in E. split; [|tauto].
    intros [H|[->|[]]]; assumption.
  - f_equal. apply keepFirst_ext. intros v. rewrite in_app_iff. cbn [In]. tauto.
Qed.

(** The filter of the handler is the specification's "first occurrence
    wins" over raw strings. *)
Lemma removeDuplicates_keepFirst (urls : list string) :
  removeDuplicates urls = keepFirst [] urls.
Proof.
  unfold removeDuplicates, JS.filter. apply (filterFrom_keepFirst [] urls).
Qed.

Lemma keepFirst_In (seen urls : list string) (u : string) :
  In u (keepFirst seen urls) <-> In u urls /\ ~ In u seen.
Proof.
  revert seen. induction urls as [|x t IH]; intros seen; cbn [keepFirst In].
  - tauto.
  - destruct (existsb (String.eqb x) seen) eqn:E.
    + apply existsb_eqb_In in E. rewrite IH. split; [tauto|].
      intros [[->|H] Hn]; [contradiction|tauto].
    + assert (Hx : ~ In x seen).
      { intro H. apply existsb_eqb_In in H. congruence. }
      cbn [In]. rewrite IH. cbn [In]. split.
      * intros [->|[H1 H2]]; [tauto|]. split; [tauto|]. intro; apply H2; tauto.
      * intros [[->|H1] H2]; [tauto|].
        destruct (string_dec x u) as [->|Hne]; [tauto|]. right. split; [assumption|].
        intros [H|H]; [congruence|contradiction].
Qed.

Lemma keepFirst_NoDup (seen urls : list string) : NoDup (keepFirst seen urls).
Proof.
  revert seen. induction urls as [|x t IH]; intros seen; cbn [keepFirst].
  - constructor.
  - destruct (existsb (String.eqb x) seen); [apply IH|].
    constructor; [|apply IH].
    rewrite keepFirst_In. cbn [In]. tauto.
Qed.

End AdmissionFacts.

Section ConvertFacts.

Import Admission.

Lemma length_append (a b : string) :
  String.length (a ++ b)%string = String.length a + String.length b.
Proof. induction a as [|c a IH]; cbn; [reflexivity | now rewrite IH]. Qed.

Lemma substring_skip (a b : string) (k m : nat) :
  substring (String.length a + k) m (a ++ b)%string = substring k m b.
Proof. induction a as [|c a IH]; cbn; [reflexivity | exact IH]. Qed.

Lemma substring_prefix (a b : string) :
  substring 0 (String.length a) (a ++ b)%string = a.
Proof. induction a as [|c a IH]; cbn; [now destruct b | now rewrite IH]. Qed.

Lemma substring_nothing (n : nat) (s : string) : substring n 0 s = "".
Proof.
  revert n. induction s as [|c s IH]; intros [|n]; cbn; try reflexivity. apply IH.
Qed.

(** The last [m] characters of [a ++ b], when [b] has at least [m]. *)
Lemma endsWith_append (a b suffix : string) :
  String.length suffix <= String.length b ->
  JS.endsWith (a ++ b) suffix = JS.endsWith b suffix.
Proof.
  intros Hle. unfold JS.endsWith. rewrite length_append.
  replace (String.length a + String.length b - String.length suffix)
    with (String.length a + (String.length b - String.length suffix)) by lia.
  rewrite substring_skip.
  destruct (Nat.leb_spec (String.length suffix) (String.length b)); [|lia].
  destruct (Nat.leb_spec (String.length suffix)
              (String.length a + String.length b)); [reflexivity|lia].
Qed.

Lemma replace_suffix (foo pattern replacement : string) :
  index 0 pattern (foo ++ pattern)%string = Some (String.length foo) ->
  JS.replace (foo ++ pattern) pattern replacement = (foo ++ replacement)%string.
Proof.
  intros H. unfold JS.replace. rewrite H, substring_prefix, length_append.
  rewrite Nat.sub_diag, substring_nothing.
  f_equal. induction replacement as [|c r IH]; cbn; [reflexivity | now rewrite IH].
Qed.

(** A reference that already names a design payload is kept as it is. *)
Lemma convert_design_payload (s : string) :
  JS.endsWith s ".bfd" = true -> convert s = Some (mkReference s None).
Proof. intros H. unfold convert. now rewrite H. Qed.

(** A thumbnail name whose suffix is the only occurrence of the pattern
    is rewritten to the design payload beside it. *)
Lemma convert_thumbnail_png (foo : string) :
  index 0 ".bfd_thumb.png" (foo ++ ".bfd_thumb.png")%string
    = Some (String.length foo) ->
  convert (foo ++ ".bfd_thumb.png")
  = Some (mkReference (foo ++ ".bfd") (Some true)).
Proof.
  intros H. unfold convert, thumbMatch.
  rewrite !endsWith_append by (cbn; lia). cbn [JS.endsWith].
  change (JS.endsWith ".bfd_thumb.png" ".bfd") with false.
  change (JS.endsWith ".bfd_thumb.png" ".bfd_thumb.jpg") with false.
  change (JS.endsWith ".bfd_thumb.png" ".bfd_thumb.png") with true.
  cbv iota. now rewrite replace_suffix.
Qed.

Lemma convert_thumbnail_jpg (foo : string) :
  index 0 ".bfd_thumb.jpg" (foo ++ ".bfd_thumb.jpg")%string
    = Some (String.length foo) ->
  convert (foo ++ ".bfd_thumb.jpg")
  = Some (mkReference (foo ++ ".bfd") (Some false)).
Proof.
  intros H. unfold convert, thumbMatch.
  rewrite !endsWith_append by (cbn; lia).
  change (JS.endsWith ".bfd_thumb.jpg" ".bfd") with false.
  change (JS.endsWith ".bfd_thumb.jpg" ".bfd_thumb.jpg") with true.
  cbv iota. now rewrite replace_suffix.
Qed.

(** Anything else is dropped by [filter(Boolean)]. *)
Lemma convert_invalid (s : string) :
  JS.endsWith s ".bfd" = false ->
  JS.endsWith s ".bfd_thumb.jpg" = false ->
  JS.endsWith s ".bfd_thumb.png" = false ->
  convert s = None /\ accepted [s] = [].
Proof.
  intros H1 H2 H3.
  assert (E : convert s = None).
  { unfold convert, thumbMatch. now rewrite H1, H2, H3. }
  split; [exact E|].
  unfold accepted. rewrite removeDuplicates_keepFirst. cbn. now rewrite E.
Qed.

(** C4. The conversion of a thumbnail name replaces the first occurrence
    of the matched text, not the suffix the pattern matched: a name that
    holds the text [.bfd_thumb.png] before its suffix is rewritten
    in the middle, and the result still ends in [.bfd_thumb.png]. *)
Theorem convert_rewrites_first_occurrence :
  convert "https://host/a.bfd_thumb.png/b.bfd_thumb.png"
  = Some (mkReference "https://host/a.bfd/b.bfd_thumb.png" (Some true))
  /\ convert "https://host/a.bfd_thumb.png/b.bfd_thumb.png"
     <> Some (mkReference "https://host/a.bfd_thumb.png/b.bfd" (Some true))
  /\ JS.endsWith "https://host/a.bfd/b.bfd_thumb.png" ".bfd" = false.
Proof.
  split; [reflexivity|]. split; [|reflexivity].
  intro H. vm_compute in H. discriminate H.
Qed.

(** C3, as worded. Two raw entries that name the same design, one by its
    payload and one by its thumbnail, are both kept: the batch holds
    the normalized identifier twice. *)
Lemma both_spellings_accepted :
  exists r1 r2,
    convert "foo.bfd" = Some r1 /\ convert "foo.bfd_thumb.png" = Some r2
    /\ url r1 = url r2
    /\ List.length (accepted ["foo.bfd"; "foo.bfd_thumb.png"]) = 2
    /\ ~ NoDup (map url (accepted ["foo.bfd"; "foo.bfd_thumb.png"])).
Proof.
  exists (mkReference "foo.bfd" None), (mkReference "foo.bfd" (Some true)).
  repeat split; try reflexivity.
  intro H. vm_compute in H. inversion H as [|x l Hnot _]; subst.
  apply Hnot. now left.
Qed.

(** C3, amended. Duplicates are removed among the raw strings, before the
    conversion: the entries kept are the first occurrences, in their
    original order; no raw string is kept twice and none is lost; the
    batch is the conversion of the entries kept; and [A; A; B] gives a
    batch of two when [A] and [B] are distinct usable entries. *)
Theorem removeDuplicates_first_occurrence (urls : list string) :
  removeDuplicates urls = keepFirst [] urls
  /\ NoDup (removeDuplicates urls)
  /\ (forall u, In u (removeDuplicates urls) <-> In u urls)
  /\ accepted urls = filterBoolean (map convert (keepFirst [] urls))
  /\ (forall A B a b,
        A <> B -> convert A = Some a -> convert B = Some b ->
        accepted [A; A; B] = [a; b]).
Proof.
  split; [apply removeDuplicates_keepFirst|].
  split; [rewrite removeDuplicates_keepFirst; apply keepFirst_NoDup|].
  split.
  { intros u. rewrite removeDuplicates_keepFirst, keepFirst_In. cbn [In]. tauto. }
  split; [unfold accepted; now rewrite removeDuplicates_keepFirst|].
  intros A B a b Hne Ha Hb. unfold accepted.
  rewrite removeDuplicates_keepFirst. cbn [keepFirst existsb].
  rewrite String.eqb_refl. cbn [orb].
  destruct (String.eqb_spec B A) as [E|_]; [congruence|]. cbn [orb map filterBoolean].
  now rewrite Ha, Hb.
Qed.

Lemma removeDuplicates_first_occurrence_witness :
  accepted ["a.bfd"; "a.bfd"; "b.bfd_thumb.jpg"]
  = [mkReference "a.bfd" None; mkReference "b.bfd" (Some false)].
Proof.
  apply (removeDuplicates_first_occurrence []).
  - intro H. discriminate H.
  - reflexivity.
  - reflexivity.
Defined.

End ConvertFacts.

(** ** Sharding *)

Section DivideFacts.

Import Coordinator.

Context {A : Type}.
Variable instances : nat.
Variable batch : string.
Variable letters : nat -> string.
Variable urls : list A.

Local Abbreviation size := (batchSize instances urls).
Local Abbreviation shard := (shardAt instances urls).
Local Abbreviation turns := (turns instances batch letters urls).

Lemma shard_length (i : nat) :
  List.length (shard i) = Nat.min size (List.length urls - i * size).
Proof.
  unfold shardAt, JS.slice. rewrite length_firstn, length_skipn. lia.
Qed.

Lemma turns_ordinal (a k : nat) :
  Forall (fun kv => a < ordinal (fst kv)) (turns a k).
Proof.
  revert a. induction k as [|k IH]; intros a; cbn [turns]; [constructor|].
  assert (H : Forall (fun kv => a < ordinal (fst kv)) (turns (S a) k)).
  { eapply Forall_impl; [|apply IH]. cbn. intros kv Hlt. lia. }
  destruct (shard a); [exact H|].
  constructor; [cbn; lia | exact H].
Qed.

Lemma assign_fresh {V} (o : list (InstanceID * V)) (k : InstanceID) (v : V) :
  Forall (fun kv => ordinal (fst kv) <> ordinal k) o ->
  assign o k v = o ++ [(k, v)].
Proof.
  induction o as [|[k' v'] t IH]; intros H; cbn [assign app]; [reflexivity|].
  inversion H as [|x l Hne Ht]; subst. cbn in Hne.
  unfold sameID. destruct (Nat.eqb_spec (ordinal k') (ordinal k)); [contradiction|].
  rewrite andb_false_r. cbn [andb]. now rewrite IH.
Qed.

Lemma fold_turns (a k : nat) (acc : list (InstanceID * list A)) :
  Forall (fun kv => ordinal (fst kv) <= a) acc ->
  fold_left (divideTurn instances batch letters urls) (seq a k) acc
  = acc ++ turns a k.
Proof.
  revert a acc. induction k as [|k IH]; intros a acc Hacc; cbn [seq fold_left turns].
  - now rewrite app_nil_r.
  - unfold divideTurn at 2. fold (shard a).
    destruct (shard a) as [|x t] eqn:E; cbn [List.length].
    + apply IH. eapply Forall_impl; [|exact Hacc]. cbn. intros; lia.
    + rewrite assign_fresh.
      * rewrite IH.
        -- now rewrite <- app_assoc.
        -- apply Forall_app. split.
           ++ eapply Forall_impl; [|exact Hacc]. cbn. intros; lia.
           ++ constructor; [cbn; lia | constructor].
      * eapply Forall_impl; [|exact Hacc]. cbn. intros; lia.
Qed.

Lemma divide_turns : divide instances batch letters urls = turns 0 instances.
Proof. unfold divide. now rewrite fold_turns by constructor. Qed.

Lemma firstn_plus (n m : nat) (l : list A) :
  firstn (n + m) l = firstn n l ++ firstn m (skipn n l).
Proof.
  revert l. induction n as [|n IH]; intros l; [reflexivity|].
  destruct l as [|x l]; cbn [Nat.add firstn skipn app].
  - now rewrite firstn_nil.
  - now rewrite IH.
Qed.

Lemma skipn_plus (n m : nat) (l : list A) :
  skipn (n + m) l = skipn m (skipn n l).
Proof.
  revert l. induction n as [|n IH]; intros l; [reflexivity|].
  destruct l as [|x l]; cbn [Nat.add skipn]; [now rewrite skipn_nil | apply IH].
Qed.

Lemma turns_concat (a k : nat) :
  JS.concatAll (map snd (turns a k)) = firstn (k * size) (skipn (a * size) urls).
Proof.
  unfold JS.concatAll. revert a. induction k as [|k IH]; intros a; [reflexivity|].
  cbn [turns]. change (S k * size) with (size + k * size).
  rewrite firstn_plus, <- skipn_plus.
  replace (a * size + size) with (S a * size) by (cbn; lia).
  rewrite <- IH.
  assert (Hs : shard a = firstn size (skipn (a * size) urls)).
  { unfold shardAt, JS.slice. f_equal. lia. }
  rewrite <- Hs. destruct (shard a); reflexivity.
Qed.

Lemma ceilDiv_covers : 0 < instances -> List.length urls <= instances * size.
Proof.
  intros Hpos. unfold batchSize, JS.ceilDiv.
  pose proof (Nat.div_mod_eq (List.length urls + (instances - 1)) instances) as E.
  pose proof (Nat.mod_upper_bound (List.length urls + (instances - 1)) instances).
  lia.
Qed.

(** Nothing is lost and nothing is repeated: the shards, in the order of
    the keys, are the list cut into consecutive pieces. *)
Lemma divide_concat :
  0 < instances ->
  JS.concatAll (map snd (divide instances batch letters urls)) = urls.
Proof.
  intros Hpos. rewrite divide_turns, turns_concat. cbn [Nat.mul skipn].
  apply firstn_all2. pose proof (ceilDiv_covers Hpos). lia.
Qed.

Lemma turns_bounds (a k : nat) :
  Forall (fun kv => snd kv <> [] /\ List.length (snd kv) <= size) (turns a k).
Proof.
  revert a. induction k as [|k IH]; intros a; cbn [turns]; [constructor|].
  destruct (shard a) as [|x t] eqn:E; [apply IH|].
  constructor; [|apply IH]. cbn [snd]. split; [discriminate|].
  rewrite <- E, shard_length. lia.
Qed.

Lemma turns_count (a k : nat) : List.length (turns a k) <= k.
Proof.
  revert a. induction k as [|k IH]; intros a; cbn [turns]; [cbn; lia|].
  specialize (IH (S a)). destruct (shard a); cbn [List.length]; lia.
Qed.

Lemma turns_keys (a k : nat) : NoDup (map fst (turns a k)).
Proof.
  revert a. induction k as [|k IH]; intros a; cbn [turns]; [constructor|].
  destruct (shard a); [apply IH|]. cbn [map fst]. constructor; [|apply IH].
  intros Hin. apply in_map_iff in Hin. destruct Hin as [kv [Heq Hin]].
  pose proof (turns_ordinal (S a) k) as Hord.
  rewrite Forall_forall in Hord. specialize (Hord kv Hin).
  rewrite Heq in Hord. cbn in Hord. lia.
Qed.

Lemma turns_In (a k : nat) (kv : InstanceID * list A) :
  In kv (turns a k) -> exists j, a <= j /\ snd kv = shard j /\ shard j <> [].
Proof.
  revert a. induction k as [|k IH]; intros a Hin; cbn [turns] in Hin; [destruct Hin|].
  assert (Hlater : In kv (turns (S a) k) ->
                   exists j, a <= j /\ snd kv = shard j /\ shard j <> []).
  { intros H. destruct (IH (S a) H) as [j [Hj Hs]]. exists j. split; [lia|exact Hs]. }
  destruct (shard a) as [|x t] eqn:E; [now apply Hlater|].
  destruct Hin as [<-|Hin]; [|now apply Hlater].
  exists a. cbn [snd]. rewrite E. repeat split; [lia|discriminate].
Qed.

Lemma shard_full (a j : nat) :
  a < j -> shard j <> [] -> List.length (shard a) = size.
Proof.
  intros Hlt Hne.
  assert (Hj : 0 < List.length (shard j)).
  { destruct (shard j); [congruence | cbn; lia]. }
  rewrite shard_length in Hj. rewrite shard_length.
  assert (S a * size <= j * size) by (apply Nat.mul_le_mono_r; lia).
  cbn [Nat.mul] in *. lia.
Qed.

(** A shard that is followed by another one is full. *)
Lemma turns_full (a k : nat) (front back : list (InstanceID * list A))
  (kv : InstanceID * list A) :
  turns a k = front ++ kv :: back -> back <> [] ->
  List.length (snd kv) = size.
Proof.
  revert a front. induction k as [|k IH]; intros a front Heq Hback; cbn [turns] in Heq.
  - destruct front; discriminate.
  - destruct (shard a) as [|x t] eqn:E; [now apply (IH (S a) front)|].
    destruct front as [|kv' front]; cbn [app] in Heq.
    + injection Heq as Hkv Hrest. subst kv. cbn [snd]. rewrite <- E.
      destruct back as [|kv2 back]; [congruence|].
      assert (Hin : In kv2 (turns (S a) k)) by (rewrite Hrest; now left).
      destruct (turns_In _ _ _ Hin) as [j [Hj [_ Hne]]].
      apply (shard_full a j); [lia | exact Hne].
    + injection Heq as _ Hrest. now apply (IH (S a) front).
Qed.

End DivideFacts.

(** C2, as worded. Ten usable references are cut into shards of four,
    four and two items, not of four, three and three. *)
Lemma ten_references_not_4_3_3 :
  List.length Demo.tenReferences = 10
  /\ map (fun kv => List.length (snd kv))
         (Coordinator.batches "abc" (fun _ => "xyz") Demo.tenReferences)
     = [4; 4; 2]
  /\ ~ Permutation
         (map (fun kv => List.length (snd kv))
              (Coordinator.batches "abc" (fun _ => "xyz") Demo.tenReferences))
         [4; 3; 3].
Proof.
  split; [reflexivity|]. split; [reflexivity|].
  intros H. apply (Permutation_in 2) in H.
  - cbn in H. intuition discriminate.
  - vm_compute. tauto.
Qed.

(** C2, amended. With [K] instances a batch of [N] references is cut, in
    its original order, into consecutive shards of [ceil(N/K)] items, the
    last shard taking what is left; empty shards are left out; every
    reference is in exactly one shard. Ten references and three instances
    give shards of 4, 4 and 2 items. *)
Theorem divide_consecutive_shards {A : Type} (instances : nat) (batch : string)
  (letters : nat -> string) (urls : list A) :
  0 < instances ->
  let shards := Coordinator.divide instances batch letters urls in
  let size := JS.ceilDiv (List.length urls) instances in
  JS.concatAll (map snd shards) = urls
  /\ List.length shards <= instances
  /\ NoDup (map fst shards)
  /\ Forall (fun kv => snd kv <> [] /\ List.length (snd kv) <= size) shards
  /\ (forall front kv back,
        shards = front ++ kv :: back -> back <> [] ->
        List.length (snd kv) = size)
  /\ (instances = 3 -> List.length urls = 10 ->
      map (fun kv => List.length (snd kv)) shards = [4; 4; 2]).
Proof.
  intros Hpos shards size. subst shards size.
  split; [now apply divide_concat|].
  rewrite divide_turns.
  split; [apply turns_count|].
  split; [apply turns_keys|].
  split; [apply turns_bounds|].
  split; [intros front kv back; apply turns_full|].
  intros -> Hlen.
  do 10 (destruct urls as [|? urls]; [discriminate Hlen|]).
  destruct urls; [reflexivity | discriminate Hlen].
Qed.

Lemma divide_consecutive_shards_witness :
  JS.concatAll (map snd (Coordinator.batches "abc" (fun _ => "xyz") Demo.tenReferences))
  = Demo.tenReferences.
Proof.
  apply (divide_consecutive_shards 3 "abc" (fun _ => "xyz") Demo.tenReferences).
  lia.
Defined.

(** ** The item pipeline *)

Section PipelineFacts.

Import ExtractData.

Variable host : nat -> Requests.
Variable page : nat -> PageReplies.

Local Abbreviation Inv := (Invariant host page).

(** *** The three ways an opening can end *)

Lemma open_result_shape (replies : PageReplies) (bfdUrl : string)
  (hint : option bool) :
  match openProjectAndGenerateThumbnail replies bfdUrl hint with
  | inl _ => True
  | inr (FontsObject fonts) => fonts <> []
  | inr (ThumbObject r) => JS.truthy (thumbURL r) = true
  end.
Proof.
  unfold openProjectAndGenerateThumbnail, bind.
  destruct (JS.truthy bfdUrl); cbn [negb]; [|exact I].
  destruct (getBefunkyBfd replies); [exact I|].
  destruct (loadingComplete replies); [exact I|].
  destruct (swappedFonts replies) as [|[|f fonts]]; [exact I| |discriminate].
  destruct (projectVO replies); [exact I|].
  destruct (thumbnailBlob replies); [exact I|].
  destruct (downloadPath replies) as [|[file|]]; [exact I| |exact I].
  destruct (JS.truthy file); cbn [negb]; [|exact I].
  destruct (copyFile replies); [exact I|].
  destruct (resetApp replies); [exact I|].
  reflexivity.
Qed.

(** The two tests that follow the [try] pick at most one list, and
    exactly one when the call returned. *)
Lemma open_result_classified (replies : PageReplies) (bfdUrl : string)
  (hint : option bool) :
  let outcome := openProjectAndGenerateThumbnail replies bfdUrl hint in
  let result := match outcome with inr r => Some r | inl _ => None end in
  (exists e, outcome = inl e
             /\ hasFontsToSwap result = None /\ hasThumbURL result = None)
  \/ (exists fonts, outcome = inr (FontsObject fonts)
             /\ hasFontsToSwap result = Some fonts /\ hasThumbURL result = None)
  \/ (exists r, outcome = inr (ThumbObject r)
             /\ hasFontsToSwap result = None /\ hasThumbURL result = Some r).
Proof.
  intros outcome result. subst result.
  pose proof (open_result_shape replies bfdUrl hint) as Hshape.
  fold outcome in Hshape. destruct outcome as [e|[fonts|r]].
  - left. now exists e.
  - right. left. now exists fonts.
  - right. right. exists r. cbn. now rewrite Hshape.
Qed.

(** *** Positions in the queue *)

Lemma enqueue_index (i : nat) (urlsToProcess : list Admission.Reference) :
  map index (enqueue i urlsToProcess) = seq (i + 1) (List.length urlsToProcess).
Proof.
  revert i. induction urlsToProcess as [|r t IH]; intros i; [reflexivity|].
  cbn [enqueue map index List.length seq]. f_equal.
  rewrite IH. f_equal. lia.
Qed.

Lemma enqueue_reference (i : nat) (urlsToProcess : list Admission.Reference) :
  map (fun p => snd (base p)) (enqueue i urlsToProcess) = urlsToProcess.
Proof.
  revert i. induction urlsToProcess as [|[u h] t IH]; intros i; [reflexivity|].
  cbn [enqueue map]. now rewrite IH.
Qed.

Lemma enqueue_length (i : nat) (urlsToProcess : list Admission.Reference) :
  List.length (enqueue i urlsToProcess) = List.length urlsToProcess.
Proof.
  revert i. induction urlsToProcess as [|r t IH]; intros i; [reflexivity|].
  cbn [enqueue List.length]. now rewrite IH.
Qed.

Lemma index_of_base (l : list Project) : map index l = map fst (map base l).
Proof. rewrite map_map. reflexivity. Qed.

Lemma invariant_distinct (urlsToProcess : list Admission.Reference) (s : State) :
  Inv urlsToProcess s -> NoDup (map index (everyProject s)).
Proof.
  intros [Hc _ _ _ _ _ _ _ _].
  rewrite index_of_base.
  eapply Permutation_NoDup.
  - apply Permutation_map, Permutation_sym, Hc.
  - rewrite <- index_of_base, enqueue_index. apply seq_NoDup.
Qed.

Lemma indexOfProject_found (l : list Project) (p : Project) :
  NoDup (map index l) -> In p l ->
  exists position l1 l2,
    indexOfProject l p = Some position
    /\ l = l1 ++ p :: l2 /\ splice1 position l = l1 ++ l2.
Proof.
  induction l as [|q t IH]; intros Hnd Hin; [destruct Hin|].
  cbn [map] in Hnd. inversion Hnd as [|x xs Hnot Hnd']; subst.
  cbn [indexOfProject]. unfold sameProject.
  destruct (Nat.eqb_spec (index q) (index p)) as [E|E].
  - assert (q = p) as ->.
    { destruct Hin as [H|H]; [exact H|]. exfalso. apply Hnot.
      rewrite E. now apply in_map. }
    exists 0, [], t. repeat split.
  - destruct Hin as [H|H]; [congruence|].
    destruct (IH Hnd' H) as [position [l1 [l2 [Hi [Hl Hs]]]]].
    exists (S position), (q :: l1), l2. rewrite Hi. repeat split.
    + cbn [app]. now rewrite Hl.
    + change (splice1 (S position) (q :: t)) with (q :: splice1 position t).
      now rewrite Hs.
Qed.

(** *** Every turn of the event loop keeps the invariant *)

Ltac fields :=
  cbn [queuedProjects loadingProjects preloadedProjects missingProjects
       fontSwapProjects unopenedProjects openedProjects isOpeningProject
       opening timers settled closing resolved] in *.

Ltac conserve H :=
  apply (Permutation_count_occ base_eq_dec); intros x;
  let C := fresh "C" in
  pose proof (proj1 (Permutation_count_occ base_eq_dec _ _) H x) as C;
  revert C; unfold everyProject; fields;
  rewrite ?map_app, ?count_occ_app;
  cbn [map count_occ base index url isThumbTransparent];
  repeat match goal with
         | |- context [base_eq_dec ?a x] => destruct (base_eq_dec a x)
         end;
  first [lia | contradiction | exfalso; cbn in *; congruence].

Lemma invariant_start (urlsToProcess : list Admission.Reference) :
  Inv urlsToProcess (start urlsToProcess).
Proof.
  constructor; unfold start, everyProject; fields.
  - now rewrite !app_nil_r.
  - left. split; reflexivity.
  - intros [H|H]; [lia | congruence].
  - discriminate.
  - constructor.
  - constructor.
  - constructor.
  - constructor.
  - constructor.
Qed.

Lemma invariant_preloadNextURL (urlsToProcess : list Admission.Reference)
  (s : State) :
  Inv urlsToProcess s -> Inv urlsToProcess (preloadNextURL s).
Proof.
  intros H. unfold preloadNextURL.
  destruct (queuedProjects s) as [|project rest] eqn:Eq; [exact H|].
  destruct (Nat.leb inParallel (List.length (loadingProjects s))); [exact H|].
  destruct H as [Hc Hs Hd Hr Hf Hm Hfs Hu Ho].
  destruct s as [q l pre mis fs un opd iso op tm st cl res]. fields. subst q.
  constructor; fields; try assumption.
  - conserve Hc.
  - intros Hp. destruct (Hd Hp) as [E _]. discriminate E.
Qed.

Lemma invariant_withTimers (urlsToProcess : list Admission.Reference)
  (s : State) (n : nat) :
  Inv urlsToProcess s -> Inv urlsToProcess (withTimers n s).
Proof.
  intros [Hc Hs Hd Hr Hf Hm Hfs Hu Ho].
  destruct s as [q l pre mis fs un opd iso op tm st cl res].
  constructor; unfold withTimers in *; fields; assumption.
Qed.

Lemma invariant_withSettled (urlsToProcess : list Admission.Reference)
  (s : State) (n : nat) :
  Inv urlsToProcess s -> Inv urlsToProcess (withSettled n s).
Proof.
  intros [Hc Hs Hd Hr Hf Hm Hfs Hu Ho].
  destruct s as [q l pre mis fs un opd iso op tm st cl res].
  constructor; unfold withSettled in *; fields; assumption.
Qed.

Lemma invariant_awaitLastThen (urlsToProcess : list Admission.Reference)
  (s : State) :
  Inv urlsToProcess s -> Inv urlsToProcess (awaitLastThen s).
Proof.
  intros [Hc Hs Hd Hr Hf Hm Hfs Hu Ho].
  destruct s as [q l pre mis fs un opd iso op tm st cl res].
  constructor; unfold awaitLastThen in *; fields; assumption.
Qed.

Lemma invariant_openNextProject (urlsToProcess : list Admission.Reference)
  (s : State) :
  Inv urlsToProcess s -> Inv urlsToProcess (openNextProject s).
Proof.
  intros H. unfold openNextProject.
  destruct (isOpeningProject s) eqn:Eo; [exact H|].
  destruct H as [Hc Hs Hd Hr Hf Hm Hfs Hu Ho].
  destruct s as [q l pre mis fs un opd iso op tm st cl res]. fields. subst iso.
  assert (op = []) as ->.
  { destruct Hs as [[E _]|[p [_ E]]]; [exact E | discriminate E]. }
  destruct pre as [|project rest].
  - destruct q as [|? ?]; [destruct l as [|? ?]|];
      constructor; fields; try assumption.
    intros _. repeat split.
  - constructor; fields; try assumption.
    + conserve Hc.
    + right. exists project. split; reflexivity.
    + intros Hp. destruct (Hd Hp) as [_ [_ [E _]]]. discriminate E.
    + cbn [app] in *. inversion Hf as [|x xs Hx Hxs]; subst.
      apply Forall_app. split; [|constructor; [exact Hx|]].
      * apply Forall_app in Hxs. tauto.
      * apply Forall_app in Hxs. tauto.
Qed.

Lemma invariant_loading_distinct (urlsToProcess : list Admission.Reference)
  (s : State) :
  Inv urlsToProcess s -> NoDup (map index (loadingProjects s)).
Proof.
  intros H. apply invariant_distinct in H. unfold everyProject in H.
  rewrite !map_app in H.
  apply NoDup_app_remove_l in H. now apply NoDup_app_remove_r in H.
Qed.

Lemma invariant_preloadSettled (urlsToProcess : list Admission.Reference)
  (s : State) (project : Project) :
  In project (loadingProjects s) ->
  Inv urlsToProcess s -> Inv urlsToProcess (preloadSettled host project s).
Proof.
  intros Hin H.
  destruct (indexOfProject_found _ _ (invariant_loading_distinct _ _ H) Hin)
    as [position [l1 [l2 [Hi [Hl Hsp]]]]].
  unfold preloadSettled, preloaded, preloadFailed. rewrite Hi, Hsp.
  destruct H as [Hc Hs Hd Hr Hf Hm Hfs Hu Ho].
  destruct s as [q l pre mis fs un opd iso op tm st cl res]. fields. subst l.
  assert (Hbusy : ~ (0 < cl \/ res <> None)).
  { intros Hp. destruct (Hd Hp) as [_ [E _]]. now destruct l1. }
  destruct (fst (preload (host (index project)))) as [e|size] eqn:Ep;
    apply invariant_awaitLastThen; constructor; fields; try assumption.
  - conserve Hc.
  - intros Hp. contradiction.
  - intros r Hres. exfalso. apply Hbusy. right. congruence.
  - apply Forall_app. split; [assumption|]. constructor; [|constructor].
    exists e. split; [exact Ep | reflexivity].
  - conserve Hc.
  - intros Hp. contradiction.
  - rewrite <- app_assoc. apply Forall_app in Hf. destruct Hf as [Hf1 Hf2].
    apply Forall_app. split; [assumption|]. constructor; [|assumption].
    exists size. split; [exact Ep | reflexivity].
Qed.

Lemma invariant_opened (urlsToProcess : list Admission.Reference)
  (s : State) (project : Project) :
  In project (opening s) ->
  Inv urlsToProcess s -> Inv urlsToProcess (opened page project s).
Proof.
  intros Hin H. unfold opened. cbv zeta. apply invariant_openNextProject.
  destruct H as [Hc Hs Hd Hr Hf Hm Hfs Hu Ho].
  destruct s as [q l pre mis fs un opd iso op tm st cl res]. fields.
  destruct Hs as [[E _]|[p [E Eo]]]; [rewrite E in Hin; destruct Hin|].
  subst op iso. destruct Hin as [<-|[]].
  assert (Hbusy : ~ (0 < cl \/ res <> None)).
  { intros Hp. destruct (Hd Hp) as [_ [_ [_ E]]]. discriminate E. }
  assert (Hsettle : settle [p] p = []).
  { cbn. unfold sameProject. now rewrite Nat.eqb_refl. }
  rewrite Hsettle.
  assert (Hp : exists size, preloadOf host p = inr size
                            /\ sizeInKB p = Some (roundKB size)).
  { apply Forall_app in Hf. destruct Hf as [_ Hf].
    now inversion Hf. }
  assert (Hrest : Forall (fun p => exists size, preloadOf host p = inr size
                            /\ sizeInKB p = Some (roundKB size))
                    (pre ++ fs ++ un ++ opd)).
  { apply Forall_app in Hf. destruct Hf as [Hf1 Hf2]. inversion Hf2; subst.
    apply Forall_app. split; assumption. }
  pose proof (open_result_classified (page (index p)) (url p)
                (isThumbTransparent p)) as Hcl.
  cbv zeta in Hcl.
  destruct Hcl as [[e [E1 [E2 E3]]]|[[fonts [E1 [E2 E3]]]|[r [E1 [E2 E3]]]]];
    rewrite E2, E3, E1; constructor; fields; try assumption.
  - conserve Hc.
  - left. split; reflexivity.
  - intros Hq. contradiction.
  - intros r Hres. exfalso. apply Hbusy. right. congruence.
  - cbn [app]. apply Forall_app in Hrest. destruct Hrest as [H1 Hrest].
    apply Forall_app in Hrest. destruct Hrest as [H2 Hrest].
    apply Forall_app in Hrest. destruct Hrest as [H3 H4].
    repeat (apply Forall_app; split); try assumption.
    constructor; [exact Hp | constructor].
  - apply Forall_app. split; [assumption|]. constructor; [|constructor].
    exists e. split; [exact E1 | reflexivity].
  - conserve Hc.
  - left. split; reflexivity.
  - intros Hq. contradiction.
  - intros r Hres. exfalso. apply Hbusy. right. congruence.
  - cbn [app]. apply Forall_app in Hrest. destruct Hrest as [H1 Hrest].
    apply Forall_app in Hrest. destruct Hrest as [H2 Hrest].
    apply Forall_app in Hrest. destruct Hrest as [H3 H4].
    repeat (apply Forall_app; split); try assumption.
    constructor; [exact Hp | constructor].
  - apply Forall_app. split; [assumption|]. constructor; [|constructor].
    exists fonts. split; [exact E1 | reflexivity].
  - conserve Hc.
  - left. split; reflexivity.
  - intros Hq. contradiction.
  - intros r' Hres. exfalso. apply Hbusy. right. congruence.
  - cbn [app]. apply Forall_app in Hrest. destruct Hrest as [H1 Hrest].
    apply Forall_app in Hrest. destruct Hrest as [H2 Hrest].
    apply Forall_app in Hrest. destruct Hrest as [H3 H4].
    repeat (apply Forall_app; split); try assumption.
    constructor; [exact Hp | constructor].
  - apply Forall_app. split; [assumption|]. constructor; [|constructor].
    exists r. split; [exact E1 | reflexivity].
Qed.

Lemma invariant_resolveQueue (urlsToProcess : list Admission.Reference)
  (s : State) :
  0 < closing s ->
  Inv urlsToProcess s -> Inv urlsToProcess (resolveQueue s).
Proof.
  intros Hpos [Hc Hs Hd Hr Hf Hm Hfs Hu Ho].
  destruct s as [q l pre mis fs un opd iso op tm st cl res].
  unfold resolveQueue. fields. constructor; fields; try assumption.
  - intros _. apply Hd. now left.
  - intros r. destruct res as [r0|]; intros E.
    + now apply Hr.
    + now injection E as <-.
Qed.

Theorem invariant_step (urlsToProcess : list Admission.Reference)
  (s s' : State) :
  Inv urlsToProcess s -> step host page s s' -> Inv urlsToProcess s'.
Proof.
  intros H Hstep. destruct Hstep.
  - now apply invariant_preloadNextURL, invariant_withTimers.
  - now apply invariant_preloadSettled.
  - unfold preloadThen.
    now apply invariant_preloadNextURL, invariant_openNextProject,
      invariant_withSettled.
  - now apply invariant_opened.
  - now apply invariant_resolveQueue.
Qed.

Theorem invariant_reachable (urlsToProcess : list Admission.Reference)
  (s : State) :
  reachable host page (start urlsToProcess) s -> Inv urlsToProcess s.
Proof.
  induction 1 as [|s s' _ IH Hstep].
  - apply invariant_start.
  - exact (invariant_step _ _ _ IH Hstep).
Qed.

(** *** The scheduler takes turns of the event loop *)

Lemma next_step (s s' : State) : next host page s = Some s' -> step host page s s'.
Proof.
  unfold next. intros H.
  destruct (timers s) as [|n] eqn:Et; [|injection H as <-; now constructor].
  destruct (settled s) as [|n] eqn:Es; [|injection H as <-; now constructor].
  destruct (loadingProjects s) as [|p l] eqn:El.
  - destruct (opening s) as [|p op] eqn:Eo.
    + destruct (closing s) as [|n] eqn:Ec; [discriminate|].
      injection H as <-. constructor. lia.
    + injection H as <-. constructor. rewrite Eo. now left.
  - injection H as <-. constructor. rewrite El. now left.
Qed.

Lemma run_reachable (s0 s : State) (fuel : nat) :
  reachable host page s0 s -> reachable host page s0 (run host page fuel s).
Proof.
  revert s. induction fuel as [|fuel IH]; intros s H; cbn [run]; [exact H|].
  destruct (next host page s) as [s'|] eqn:E; [|exact H].
  apply IH. eapply reach_step; [exact H|]. now apply next_step.
Qed.

(** *** What a resolved queue has in its four lists *)

Lemma referenceOf_deleteIndex (l : list Project) :
  map referenceOf (map deleteIndex l) = map (fun p => snd (base p)) l.
Proof. rewrite map_map. reflexivity. Qed.

Lemma resolved_state (urlsToProcess : list Admission.Reference) (s : State)
  (r : Result) :
  reachable host page (start urlsToProcess) s -> resolved s = Some r ->
  r = report s
  /\ Permutation
       (map base (missingProjects s ++ fontSwapProjects s
                  ++ unopenedProjects s ++ openedProjects s))
       (map base (enqueue 0 urlsToProcess)).
Proof.
  intros Hreach Hres. apply invariant_reachable in Hreach.
  destruct Hreach as [Hc _ Hd Hr _ _ _ _ _].
  split; [now apply Hr|].
  destruct Hd as [Eq [El [Ep Eo]]]; [right; congruence|].
  unfold everyProject in Hc. now rewrite Eq, El, Ep, Eo in Hc.
Qed.

(** The four lists a pipeline resolves with hold every reference it was
    given, each one once. *)
Theorem resolved_partition (urlsToProcess : list Admission.Reference)
  (r : Result) :
  resolvesWith host page urlsToProcess r ->
  Permutation
    (map referenceOf (r_openedProjects r ++ r_fontSwapProjects r
                      ++ r_missingProjects r ++ r_unopenedProjects r))
    urlsToProcess.
Proof.
  intros [s [Hreach Hres]].
  destruct (resolved_state _ _ _ Hreach Hres) as [-> Hperm].
  apply (Permutation_map snd) in Hperm.
  rewrite !map_map in Hperm. rewrite enqueue_reference in Hperm.
  unfold report. cbn [r_openedProjects r_fontSwapProjects r_missingProjects
                      r_unopenedProjects].
  eapply Permutation_trans; [|exact Hperm].
  rewrite !map_app, !referenceOf_deleteIndex.
  apply (Permutation_count_occ reference_eq_dec). intros x.
  rewrite ?map_app, !count_occ_app. lia.
Qed.

(** No entry is in two lists, whatever the state of the queue. *)
Theorem buckets_disjoint (urlsToProcess : list Admission.Reference) (s : State) :
  reachable host page (start urlsToProcess) s ->
  NoDup (map index (openedProjects s ++ fontSwapProjects s
                    ++ missingProjects s ++ unopenedProjects s)).
Proof.
  intros Hreach. apply invariant_reachable, invariant_distinct in Hreach.
  unfold everyProject in Hreach. rewrite !map_app in Hreach.
  do 4 apply NoDup_app_remove_l in Hreach.
  rewrite !map_app.
  eapply Permutation_NoDup; [|exact Hreach].
  apply (Permutation_count_occ Nat.eq_dec). intros x.
  rewrite !count_occ_app. lia.
Qed.

(** C6. In every state the queue can reach, whatever the order in which
    preloads settle, at most one call of [openProjectAndGenerateThumbnail]
    is awaited, and one is awaited exactly while [isOpeningProject] is
    set. *)
Theorem one_opening_at_a_time (urlsToProcess : list Admission.Reference)
  (s : State) :
  reachable host page (start urlsToProcess) s ->
  List.length (opening s) <= 1
  /\ (opening s <> [] <-> isOpeningProject s = true).
Proof.
  intros Hreach. apply invariant_reachable in Hreach.
  destruct Hreach as [_ Hs _ _ _ _ _ _ _].
  destruct Hs as [[-> ->]|[p [-> ->]]]; cbn [List.length].
  - split; [lia|]. split; [congruence|discriminate].
  - split; [lia|]. split; [reflexivity|discriminate].
Qed.


End PipelineFacts.

Section PipelineProgress.

Import ExtractData.

Variable host : nat -> Requests.
Variable page : nat -> PageReplies.

Ltac fields :=
  cbn [queuedProjects loadingProjects preloadedProjects missingProjects
       fontSwapProjects unopenedProjects openedProjects isOpeningProject
       opening timers settled closing resolved] in *.

Lemma weight_preloadNextURL (s : State) : weight (preloadNextURL s) <= weight s.
Proof.
  unfold preloadNextURL. destruct (queuedProjects s) as [|p rest] eqn:E; [lia|].
  destruct (Nat.leb inParallel (List.length (loadingProjects s))); [lia|].
  unfold weight. fields. rewrite E, length_app. cbn [List.length]. lia.
Qed.

Lemma weight_openNextProject (s : State) :
  weight (openNextProject s) <= S (weight s).
Proof.
  unfold openNextProject. destruct (isOpeningProject s); [lia|].
  destruct (preloadedProjects s) as [|p rest] eqn:Ep.
  - destruct (queuedProjects s) as [|? ?] eqn:Eq; [|lia].
    destruct (loadingProjects s) as [|? ?] eqn:El; [|lia].
    unfold weight. fields. rewrite Ep, Eq, El. cbn [List.length]. lia.
  - unfold weight. fields. rewrite Ep, length_app. cbn [List.length]. lia.
Qed.

(** Every turn of the scheduler lowers the weight. *)
Lemma next_lowers (s s' : State) :
  next host page s = Some s' -> weight s' < weight s.
Proof.
  unfold next. intros H.
  destruct (timers s) as [|n] eqn:Et.
  2:{ injection H as <-.
      pose proof (weight_preloadNextURL (withTimers n s)) as Hw.
      unfold weight, withTimers in *. fields. lia. }
  destruct (settled s) as [|n] eqn:Es.
  2:{ injection H as <-. unfold preloadThen.
      pose proof (weight_preloadNextURL (openNextProject (withSettled n s))) as H1.
      pose proof (weight_openNextProject (withSettled n s)) as H2.
      assert (weight (withSettled n s) + 2 = weight s).
      { unfold weight, withSettled. fields. lia. }
      lia. }
  destruct (loadingProjects s) as [|p l] eqn:El.
  - destruct (opening s) as [|p op] eqn:Eo.
    + destruct (closing s) as [|n] eqn:Ec; [discriminate H|].
      injection H as <-. unfold weight, resolveQueue. fields. lia.
    + injection H as <-. unfold opened. cbv zeta.
      match goal with |- weight (openNextProject ?t) < _ =>
        pose proof (weight_openNextProject t) as Hw;
        assert (weight t + 2 = weight s)
      end.
      { unfold weight. fields. rewrite Eo. cbn [settle]. unfold sameProject.
        rewrite Nat.eqb_refl, El. cbn [List.length]. lia. }
      lia.
  - injection H as <-. unfold preloadSettled, preloaded, preloadFailed.
    rewrite El. cbn [indexOfProject]. unfold sameProject.
    rewrite Nat.eqb_refl. unfold splice1. cbn [firstn skipn app].
    destruct (fst (preload (host (index p))));
      unfold weight, awaitLastThen; fields; rewrite ?El, ?length_app;
      cbn [List.length]; lia.
Qed.

Lemma run_stops (fuel : nat) (s : State) :
  weight s <= fuel -> next host page (run host page fuel s) = None.
Proof.
  revert s. induction fuel as [|fuel IH]; intros s Hw; cbn [run].
  - destruct (next host page s) as [s'|] eqn:E; [|reflexivity].
    apply next_lowers in E. lia.
  - destruct (next host page s) as [s'|] eqn:E; [|exact E].
    apply IH. apply next_lowers in E. lia.
Qed.

Lemma live_start (urlsToProcess : list Admission.Reference) :
  urlsToProcess <> [] -> Live (start urlsToProcess).
Proof.
  intros Hne. constructor; unfold start; fields.
  - reflexivity.
  - congruence.
  - intros _ _ _ _ E. destruct urlsToProcess; [congruence|discriminate E].
Qed.

Lemma live_preloadNextURL (s : State) (n : nat) :
  (queuedProjects s <> [] ->
   S (timers s + settled s + List.length (loadingProjects s)) = inParallel) ->
  (preloadedProjects s <> [] -> opening s <> [] \/ 0 < settled s) ->
  (settled s = 0 -> closing s = 0 -> loadingProjects s = [] ->
   opening s = [] -> queuedProjects s = [] -> preloadedProjects s = [] ->
   resolved s <> None) ->
  Live (preloadNextURL s).
Proof.
  intros H1 H2 H3. unfold preloadNextURL.
  destruct (queuedProjects s) as [|p rest] eqn:Eq.
  - constructor; [congruence | exact H2 | intros; now apply H3].
  - specialize (H1 ltac:(discriminate)).
    destruct (Nat.leb_spec inParallel (List.length (loadingProjects s))); [lia|].
    constructor; fields.
    + intros _. rewrite length_app. cbn [List.length]. lia.
    + exact H2.
    + intros _ _ E. now destruct (loadingProjects s).
Qed.

Theorem live_step (urlsToProcess : list Admission.Reference) (s s' : State) :
  Invariant host page urlsToProcess s -> Live s ->
  step host page s s' -> Live s'.
Proof.
  intros Hinv [L1 L2 L3] Hstep.
  pose proof (inv_serial _ _ _ _ Hinv) as Hserial.
  destruct Hstep as [s n Et|s p Hin|s n Es|s p Hin|s Hpos].
  - (* a timer *)
    apply (live_preloadNextURL _ n); unfold withTimers; fields.
    + intros Hq. specialize (L1 Hq). lia.
    + exact L2.
    + exact L3.
  - (* a preload settles *)
    destruct (indexOfProject_found _ _
                (invariant_loading_distinct host page _ _ Hinv) Hin)
      as [position [l1 [l2 [Hi [Hl Hsp]]]]].
    assert (Hlen : List.length (loadingProjects s)
                   = S (List.length (l1 ++ l2))).
    { rewrite Hl, !length_app. cbn [List.length]. lia. }
    unfold preloadSettled, preloaded, preloadFailed. rewrite Hi, Hsp.
    destruct (fst (preload (host (index p))));
      constructor; unfold awaitLastThen; fields;
      try (intros Hq; specialize (L1 Hq); lia);
      try (intros _; right; lia); try discriminate.
  - (* the last [.then] of a preload *)
    unfold preloadThen.
    assert (Hopen : exists t, openNextProject (withSettled n s) = t
              /\ queuedProjects t = queuedProjects s
              /\ loadingProjects t = loadingProjects s
              /\ timers t = timers s /\ settled t = n
              /\ resolved t = resolved s
              /\ (preloadedProjects t <> [] -> opening t <> [])
              /\ (closing t = 0 -> opening t = [] ->
                  queuedProjects t <> [] \/ loadingProjects t <> [])).
    { eexists. split; [reflexivity|]. unfold openNextProject, withSettled. fields.
      destruct (isOpeningProject s) eqn:Eo; fields.
      - repeat split; try reflexivity.
        + intros _. destruct Hserial as [[_ E]|[q [E _]]]; [congruence|].
          rewrite E. discriminate.
        + intros _ E. destruct Hserial as [[_ E']|[q [E' _]]]; congruence.
      - destruct (preloadedProjects s) as [|q rest] eqn:Ep.
        + destruct (queuedProjects s) as [|? ?] eqn:Eq;
            [destruct (loadingProjects s) as [|? ?] eqn:El|]; fields;
            repeat split; try reflexivity; try congruence; try discriminate;
            try (intros; left; discriminate); try (intros; right; discriminate).
        + fields. repeat split; try reflexivity.
          * intros _. now destruct (opening s).
          * intros _ E. now destruct (opening s). }
    destruct Hopen as [t [-> [Hq [Hl [Ht [Hs [Hr [Hp Hc]]]]]]]].
    apply (live_preloadNextURL _ n).
    + rewrite Hq, Hl, Ht, Hs. intros Hne. specialize (L1 Hne). lia.
    + intros Hne. left. now apply Hp.
    + rewrite Hr. intros _ Ec El Eo Eq _.
      destruct (Hc Ec Eo) as [H|H]; congruence.
  - (* an opening settles *)
    unfold opened. cbv zeta.
    match goal with |- Live (openNextProject ?t) => set (t0 := t) end.
    assert (Hop : opening t0 = []).
    { subst t0. fields. destruct Hserial as [[E _]|[q [E _]]];
        rewrite E in *; [destruct Hin|].
      destruct Hin as [<-|[]]. cbn [settle]. unfold sameProject.
      now rewrite Nat.eqb_refl. }
    unfold openNextProject.
    assert (Hiso : isOpeningProject t0 = false) by reflexivity.
    rewrite Hiso.
    assert (Eq : queuedProjects t0 = queuedProjects s) by reflexivity.
    assert (El : loadingProjects t0 = loadingProjects s) by reflexivity.
    assert (Ep : preloadedProjects t0 = preloadedProjects s) by reflexivity.
    assert (Et : timers t0 = timers s) by reflexivity.
    assert (Es : settled t0 = settled s) by reflexivity.
    clearbody t0.
    destruct (preloadedProjects t0) as [|q rest] eqn:Ep'.
    + destruct (queuedProjects t0) as [|? ?] eqn:Eq';
        [destruct (loadingProjects t0) as [|? ?] eqn:El'|].
      * constructor; fields; try congruence; try discriminate.
      * constructor; fields; rewrite ?Eq', ?El', ?Ep'; try congruence;
          try discriminate.
      * constructor; fields; rewrite ?Eq', ?Ep'; try congruence;
          try discriminate.
        intros _. rewrite Et, Es, El.
        apply L1. rewrite <- Eq. discriminate.
    + constructor; fields.
      * intros Hne. rewrite Et, Es, El. apply L1. now rewrite <- Eq.
      * intros _. left. now destruct (opening t0).
      * intros _ _ _ E. now destruct (opening t0).
  - (* the queue resolves *)
    constructor; unfold resolveQueue; fields; try assumption.
    intros. destruct (resolved s); discriminate.
Qed.

Lemma live_reachable (urlsToProcess : list Admission.Reference) (s : State) :
  urlsToProcess <> [] ->
  reachable host page (start urlsToProcess) s -> Live s.
Proof.
  intros Hne Hreach. induction Hreach as [|s s' Hreach IH Hstep].
  - now apply live_start.
  - eapply live_step; [|exact IH|exact Hstep].
    eapply invariant_reachable. exact Hreach.
Qed.

(** Enough fuel gives the result: the scheduler runs every queue that is
    not empty until it resolves. *)
Theorem run_resolves (urlsToProcess : list Admission.Reference) :
  urlsToProcess <> [] ->
  resolved (run host page (5 + 7 * List.length urlsToProcess)
              (start urlsToProcess)) <> None.
Proof.
  intros Hne.
  set (s := run host page (5 + 7 * List.length urlsToProcess)
              (start urlsToProcess)).
  assert (Hstop : next host page s = None).
  { apply run_stops. unfold weight, start. fields.
    rewrite enqueue_length. cbn [List.length]. unfold inParallel. lia. }
  assert (Hreach : reachable host page (start urlsToProcess) s).
  { apply run_reachable. constructor. }
  pose proof (live_reachable _ _ Hne Hreach) as [L1 L2 L3].
  unfold next in Hstop.
  destruct (timers s) eqn:Et; [|discriminate Hstop].
  destruct (settled s) eqn:Es; [|discriminate Hstop].
  destruct (loadingProjects s) eqn:El; [|discriminate Hstop].
  destruct (opening s) eqn:Eo; [|discriminate Hstop].
  destruct (closing s) eqn:Ec; [|discriminate Hstop].
  apply L3; try reflexivity.
  - destruct (queuedProjects s); [reflexivity|].
    specialize (L1 ltac:(discriminate)). cbn in L1. unfold inParallel in L1. lia.
  - destruct (preloadedProjects s); [reflexivity|].
    destruct (L2 ltac:(discriminate)) as [H|H]; [congruence|lia].
Qed.

End PipelineProgress.

Section Retry.

Import ExtractData.

Variable host : nat -> Requests.
Variable page : nat -> PageReplies.

Lemma resolved_everywhere (urlsToProcess : list Admission.Reference)
  (s : State) (i : nat) :
  reachable host page (start urlsToProcess) s -> resolved s <> None ->
  1 <= i <= List.length urlsToProcess ->
  exists q, index q = i
            /\ In q (missingProjects s ++ fontSwapProjects s
                     ++ unopenedProjects s ++ openedProjects s).
Proof.
  intros Hreach Hres Hi. apply invariant_reachable in Hreach.
  destruct Hreach as [Hc _ Hd _ _ _ _ _ _].
  destruct Hd as [Eq [El [Ep Eo]]]; [now right|].
  unfold everyProject in Hc. rewrite Eq, El, Ep, Eo in Hc. cbn [app] in Hc.
  apply (Permutation_map fst) in Hc. rewrite <- !index_of_base in Hc.
  rewrite enqueue_index in Hc.
  assert (Hin : In i (seq (0 + 1) (List.length urlsToProcess))).
  { apply in_seq. lia. }
  apply (Permutation_in _ (Permutation_sym Hc)) in Hin.
  apply in_map_iff in Hin. destruct Hin as [q [E Hin]]. now exists q.
Qed.

(** C5. A preload asks once and, when that fails, once more, and no
    further. In no state of the queue is an entry whose second request
    succeeded among the missing ones, nor an entry whose two requests
    failed among the preloaded, opening, opened, font-swap or unopened
    ones. When the queue has resolved (and every queue can be run until it
    does), the first is among the opened, font-swap or unopened entries,
    and the second among the missing ones, with the second error. *)
Theorem preload_retried_once (urlsToProcess : list Admission.Reference)
  (s : State) (i : nat) :
  reachable host page (start urlsToProcess) s ->
  1 <= i <= List.length urlsToProcess ->
  (exists s', reachable host page (start urlsToProcess) s'
              /\ resolved s' <> None)
  /\ (forall size, firstRequest (host i) = inr size ->
        preload (host i) = (inr size, 1))
  /\ (forall e1 size,
        firstRequest (host i) = inl e1 -> secondRequest (host i) = inr size ->
        preload (host i) = (inr size, 2)
        /\ ~ (exists q, index q = i /\ In q (missingProjects s))
        /\ (resolved s <> None ->
            exists q, index q = i
                      /\ In q (openedProjects s ++ fontSwapProjects s
                               ++ unopenedProjects s)))
  /\ (forall e1 e2,
        firstRequest (host i) = inl e1 -> secondRequest (host i) = inl e2 ->
        preload (host i) = (inl e2, 2)
        /\ ~ (exists q, index q = i
                        /\ In q (preloadedProjects s ++ opening s
                                 ++ openedProjects s ++ fontSwapProjects s
                                 ++ unopenedProjects s))
        /\ (resolved s <> None ->
            exists q, index q = i /\ In q (missingProjects s)
                      /\ error q = Some e2)).
Proof.
  intros Hreach Hi.
  pose proof (invariant_reachable _ _ _ _ Hreach) as [_ _ _ _ Hf Hm _ _ _].
  rewrite Forall_forall in Hf, Hm.
  assert (Hsuccess : forall p, index p = i ->
            In p (preloadedProjects s ++ opening s ++ openedProjects s
                  ++ fontSwapProjects s ++ unopenedProjects s) ->
            exists size, fst (preload (host i)) = inr size).
  { intros p Ep Hp. destruct (Hf p) as [size [E _]].
    - rewrite !in_app_iff in *. tauto.
    - exists size. unfold preloadOf in E. now rewrite Ep in E. }
  assert (Hfailure : forall p, index p = i -> In p (missingProjects s) ->
            exists e, fst (preload (host i)) = inl e /\ error p = Some e).
  { intros p Ep Hp. destruct (Hm p Hp) as [e [E1 E2]].
    exists e. unfold preloadOf in E1. now rewrite Ep in E1. }
  split; [|split; [|split]].
  - eexists. split; [apply run_reachable; constructor|].
    apply run_resolves. destruct urlsToProcess; [cbn in Hi; lia|discriminate].
  - intros size E. unfold preload. now rewrite E.
  - intros e1 size E1 E2.
    assert (Ep : preload (host i) = (inr size, 2)).
    { unfold preload. now rewrite E1, E2. }
    split; [exact Ep|]. split.
    + intros [p [Ei Hp]]. destruct (Hfailure p Ei Hp) as [e [E _]].
      rewrite Ep in E. discriminate E.
    + intros Hres.
      destruct (resolved_everywhere _ _ _ Hreach Hres Hi) as [q [Eq Hin]].
      exists q. split; [exact Eq|].
      rewrite !in_app_iff in Hin. destruct Hin as [Hin|Hin].
      * destruct (Hfailure q Eq Hin) as [e [E _]]. rewrite Ep in E. discriminate E.
      * rewrite !in_app_iff. tauto.
  - intros e1 e2 E1 E2.
    assert (Ep : preload (host i) = (inl e2, 2)).
    { unfold preload. now rewrite E1, E2. }
    split; [exact Ep|]. split.
    + intros [p [Ei Hp]]. destruct (Hsuccess p Ei Hp) as [size E].
      rewrite Ep in E. discriminate E.
    + intros Hres.
      destruct (resolved_everywhere _ _ _ Hreach Hres Hi) as [q [Eq Hin]].
      exists q. split; [exact Eq|].
      rewrite !in_app_iff in Hin. destruct Hin as [Hin|Hin].
      * split; [exact Hin|]. destruct (Hfailure q Eq Hin) as [e [E Ee]].
        rewrite Ep in E. cbn in E. congruence.
      * destruct (Hsuccess q Eq) as [size E].
        -- rewrite !in_app_iff. tauto.
        -- rewrite Ep in E. discriminate E.
Qed.

End Retry.

(** ** The endpoint *)

Section EndpointFacts.

Import ExtractData Endpoint.

Lemma firstRejection_none {A} (when : nat -> nat) (i : nat)
  (l : list (Error + A)) :
  firstRejection when i l = None -> l = map inr (fulfilled l).
Proof.
  revert i. induction l as [|[e|a] t IH]; intros i H;
    cbn [firstRejection fulfilled map] in *.
  - reflexivity.
  - destruct (firstRejection when (S i) t) as [[time e']|]; [|discriminate H].
    destruct (Nat.ltb time (when i)); discriminate H.
  - f_equal. now apply (IH (S i)).
Qed.

Lemma promiseAll_resolved {A} (when : nat -> nat) (l : list (Error + A))
  (rs : list A) :
  promiseAll when l = inr rs -> l = map inr rs.
Proof.
  unfold promiseAll.
  destruct (firstRejection when 0 l) as [[time e]|] eqn:E; [discriminate|].
  intros [= <-]. exact (firstRejection_none _ _ _ E).
Qed.

Lemma referenceOf_deleteMismatch (l : list Entry) :
  map referenceOf (map deleteMismatch l) = map referenceOf l.
Proof.
  rewrite map_map. apply map_ext. intros e. unfold deleteMismatch.
  now destruct (e_rendered e).
Qed.

(** Shard by shard, the merged lists hold what the shards held. *)
Lemma merged_counts (w : World)
  (shards : list (Coordinator.InstanceID * list Admission.Reference))
  (allResults : list Result) (x : Admission.Reference) :
  everyPipelineCompletes w ->
  map (fun kv => extractData w (fst kv) (snd kv)) shards = map inr allResults ->
  count_occ reference_eq_dec
    (map referenceOf (JS.concatAll (map r_openedProjects allResults))) x
  + count_occ reference_eq_dec
      (map referenceOf (JS.concatAll (map r_fontSwapProjects allResults))) x
  + count_occ reference_eq_dec
      (map referenceOf (JS.concatAll (map r_missingProjects allResults))) x
  + count_occ reference_eq_dec
      (map referenceOf (JS.concatAll (map r_unopenedProjects allResults))) x
  = count_occ reference_eq_dec (JS.concatAll (map snd shards)) x.
Proof.
  intros Hall. unfold JS.concatAll. revert allResults.
  induction shards as [|[id shard] t IH]; intros [|r rs] H; cbn [map] in H;
    try discriminate H.
  - reflexivity.
  - injection H as Hr Hrest. specialize (IH rs Hrest).
    destruct (Hall id shard r Hr) as [host [page Hres]].
    apply resolved_partition in Hres.
    pose proof (proj1 (Permutation_count_occ reference_eq_dec _ _) Hres x) as Hx.
    cbn [map List.concat snd]. rewrite !map_app, !count_occ_app in *. lia.
Qed.

(** C1, amended. When every pipeline of a request ran to the end, the
    four lists of the reply hold the work items the handler accepts (the
    raw list without repeated strings, converted, unusable entries
    dropped), each work item once: their sizes add up to the size of the
    accepted batch, and the lists together are a rearrangement of that
    batch. Inside a pipeline no entry of the queue is ever in two of the
    four lists, and every shard (none is empty) can be run until its
    queue resolves. The count is by work item, not by normalized
    reference: a design named twice is two work items. *)
Theorem report_partitions_accepted (w : World) (srv srv' : Server)
  (urls : list string) (body : Report) :
  everyPipelineCompletes w ->
  handler w srv urls = (srv', Sent (Status200 body)) ->
  List.length (openedProjects body) + List.length (fontSwapProjects body)
  + List.length (missingProjects body) + List.length (unopenedProjects body)
  = List.length (Admission.accepted urls)
  /\ Permutation (map referenceOf (outcomes body)) (Admission.accepted urls)
  /\ (forall host page shard s,
        reachable host page (start shard) s ->
        NoDup (map index
                 (ExtractData.openedProjects s ++ ExtractData.fontSwapProjects s
                  ++ ExtractData.missingProjects s
                  ++ ExtractData.unopenedProjects s)))
  /\ (forall host page shard,
        shard <> [] -> exists r, resolvesWith host page shard r)
  /\ Admission.accepted urls
     = Admission.filterBoolean
         (map Admission.convert (Admission.keepFirst [] urls)).
Proof.
  intros Hall H.
  assert (Hperm : Permutation (map referenceOf (outcomes body))
                    (Admission.accepted urls)).
  { unfold handler in H.
    destruct (isRunning srv); [discriminate H|].
    destruct (Nat.ltb limit (List.length urls)); [discriminate H|].
    destruct (promiseAll _ _) as [e|allResults] eqn:Hp; [discriminate H|].
    destruct (collectFonts _ _) as [e|fonts]; [discriminate H|].
    destruct (appendIfAny _ MissingFontsCsv _ _) as [e|disk1]; [discriminate H|].
    destruct (appendIfAny _ TransparencyMismatchesCsv _ _) as [e|disk2];
      [discriminate H|].
    injection H as _ <-. apply promiseAll_resolved in Hp.
    unfold outcomes, combine.
    cbn [openedProjects fontSwapProjects missingProjects unopenedProjects].
    apply (Permutation_count_occ reference_eq_dec). intros x.
    pose proof (merged_counts w _ _ x Hall Hp) as Hc.
    unfold Coordinator.batches in Hc.
    rewrite divide_concat in Hc by (unfold Admission.maxChromeInstances; lia).
    rewrite !map_app, !count_occ_app, referenceOf_deleteMismatch. lia. }
  split; [|split; [|split; [|split]]].
  - apply Permutation_length in Hperm. rewrite length_map in Hperm.
    unfold outcomes in Hperm. rewrite !length_app in Hperm. lia.
  - exact Hperm.
  - intros host page shard s. apply buckets_disjoint.
  - intros host page shard Hne.
    pose proof (run_resolves host page shard Hne) as Hres.
    destruct (resolved _) as [r|] eqn:E; [|congruence].
    exists r. eexists. split; [|exact E]. apply run_reachable. constructor.
  - unfold Admission.accepted. now rewrite removeDuplicates_keepFirst.
Qed.

Lemma limit_225 : limit = 225 /\ decimal limit = "225".
Proof. split; reflexivity. Qed.

(** A request that gets past the two tests is answered with the report
    or ends with an exception: it is not answered with a 400 or a 503. *)
Lemma handler_past_tests (w : World) (srv : Server) (urls : list string) :
  isRunning srv = false -> List.length urls <= limit ->
  (exists srv' body, handler w srv urls = (srv', Sent (Status200 body)))
  \/ (exists srv' e, handler w srv urls = (srv', Thrown e)).
Proof.
  intros Hrun Hlen. unfold handler. rewrite Hrun.
  destruct (Nat.ltb_spec limit (List.length urls)); [lia|].
  destruct (promiseAll _ _); [right; eauto|].
  destruct (collectFonts _ _); [right; eauto|].
  destruct (appendIfAny _ MissingFontsCsv _ _); [right; eauto|].
  destruct (appendIfAny _ TransparencyMismatchesCsv _ _); [right; eauto|].
  left. eauto.
Qed.

(** C8, amended. In the batched endpoint a request that arrives while no
    batch is running is answered with status 400 and the text [Too many
    URLs. Limit = 225] exactly when it holds more than 3 x 75 = 225 raw
    entries; with 225 entries or fewer it is not answered with a 400. A
    request that arrives while a batch is running is refused with the
    503 before its size is looked at. In the endpoint that runs one
    instance for each request the bound is 75: a request that finds a
    free instance is answered with the 400 exactly when it holds more
    than 75 raw entries. The 400 differs from the 503. *)
Theorem too_many_urls (w : World) (srv : Server) (urls : list string) :
  (isRunning srv = false ->
   (handler w srv urls = (srv, Sent (Status400 "Too many URLs. Limit = 225"))
    <-> Admission.maxChromeInstances * Admission.maxBatchSize
        < List.length urls)
   /\ (List.length urls <= 225 ->
       forall srv' reason,
         handler w srv urls <> (srv', Sent (Status400 reason))))
  /\ (isRunning srv = true ->
      handler w srv urls
      = (srv, Sent (Status503 "Already running, please wait.")))
  /\ (forall s,
        (SingleInstance.activeChromeInstances s
         < SingleInstance.maxChromeInstances)%Z ->
        (snd (SingleInstance.receive s urls)
         = Some (SingleInstance.Status400 "Too many URLs. Limit = 75")
         <-> SingleInstance.maxBatchSize < List.length urls))
  /\ (forall reason reason', Status400 reason <> Status503 reason').
Proof.
  split; [|split; [|split]].
  - intros Hrun. split.
    + split.
      * intros H.
        destruct (Nat.le_gt_cases (List.length urls) limit) as [Hle|Hgt];
          [|exact Hgt].
        destruct (handler_past_tests w srv urls Hrun Hle)
          as [[srv' [body E]]|[srv' [e E]]]; rewrite E in H; discriminate H.
      * intros Hgt. unfold handler. rewrite Hrun.
        destruct (Nat.ltb_spec limit (List.length urls)); [reflexivity|].
        unfold limit in *. lia.
    + intros Hle srv' reason H.
      destruct (handler_past_tests w srv urls Hrun Hle)
        as [[srv'' [body E]]|[srv'' [e E]]]; rewrite E in H; discriminate H.
  - intros Hrun. unfold handler. now rewrite Hrun.
  - intros s Hfree. unfold SingleInstance.receive.
    destruct (Z.leb_spec SingleInstance.maxChromeInstances
                (SingleInstance.activeChromeInstances s)); [lia|].
    destruct (Nat.ltb_spec SingleInstance.maxBatchSize (List.length urls));
      cbn [snd].
    + split; [intros _; assumption | reflexivity].
    + split; [discriminate | lia].
  - discriminate.
Qed.

(** A request refused by one of the two tests leaves the server as it
    was. *)
Lemma refused_leaves_server (w : World) (srv srv' : Server)
  (urls : list string) (reason : string) :
  handler w srv urls = (srv', Sent (Status503 reason))
  \/ handler w srv urls = (srv', Sent (Status400 reason)) ->
  srv' = srv.
Proof.
  unfold handler. destruct (isRunning srv).
  - intros [H|H]; now injection H.
  - destruct (Nat.ltb limit (List.length urls)).
    + intros [H|H]; now injection H.
    + destruct (promiseAll _ _); [intros [H|H]; discriminate H|].
      destruct (collectFonts _ _); [intros [H|H]; discriminate H|].
      destruct (appendIfAny _ MissingFontsCsv _ _); [intros [H|H]; discriminate H|].
      destruct (appendIfAny _ TransparencyMismatchesCsv _ _);
        intros [H|H]; discriminate H.
Qed.

(** A request answered with the report leaves [isRunning] cleared. *)
Lemma answered_clears_flag (w : World) (srv srv' : Server)
  (urls : list string) (body : Report) :
  handler w srv urls = (srv', Sent (Status200 body)) ->
  isRunning srv = false /\ isRunning srv' = false.
Proof.
  unfold handler. destruct (isRunning srv); [discriminate|].
  destruct (Nat.ltb limit (List.length urls)); [discriminate|].
  destruct (promiseAll _ _); [discriminate|].
  destruct (collectFonts _ _); [discriminate|].
  destruct (appendIfAny _ MissingFontsCsv _ _); [discriminate|].
  destruct (appendIfAny _ TransparencyMismatchesCsv _ _); [discriminate|].
  intros H. injection H as <- _. split; reflexivity.
Qed.

(** A request that ends with an exception leaves [isRunning] set. *)
Lemma thrown_keeps_flag (w : World) (srv srv' : Server)
  (urls : list string) (e : Error) :
  handler w srv urls = (srv', Thrown e) -> isRunning srv' = true.
Proof.
  unfold handler. destruct (isRunning srv); [discriminate|].
  destruct (Nat.ltb limit (List.length urls)); [discriminate|].
  destruct (promiseAll _ _); [intros H; now injection H as <- _|].
  destruct (collectFonts _ _); [intros H; now injection H as <- _|].
  destruct (appendIfAny _ MissingFontsCsv _ _); [intros H; now injection H as <- _|].
  destruct (appendIfAny _ TransparencyMismatchesCsv _ _);
    [intros H; now injection H as <- _|discriminate].
Qed.

(** Once [isRunning] is set, every request is refused. *)
Lemma running_refuses (w : World) (srv : Server) (urls : list string) :
  isRunning srv = true ->
  handler w srv urls = (srv, Sent (Status503 "Already running, please wait.")).
Proof. intros H. unfold handler. now rewrite H. Qed.

(** C9, amended. The two logs are written before the reply, and a
    failure to write is not caught. When the font log has lines to take
    and its write fails, or the font log is dealt with and the mismatch
    log has lines to take and its write fails, the handler ends with
    that error and sends no report. When every write that is attempted
    succeeds the report is sent. A log with no line to take is not
    written. *)
Theorem log_failure_fails_request (w : World) (srv : Server)
  (urls : list string) (allResults : list Result) (fonts : list string) :
  isRunning srv = false -> List.length urls <= limit ->
  let accepted := Admission.accepted urls in
  let batches :=
    Coordinator.batches (batchLetters w) (instanceLetters w) accepted in
  let merged := combine w (List.length accepted) allResults in
  let mismatches := collectMismatches (openedProjects merged) in
  promiseAll (settledAt w)
    (map (fun kv => extractData w (fst kv) (snd kv)) batches)
    = inr allResults ->
  collectFonts [] (fontSwapProjects merged) = inr fonts ->
  (forall e, fonts <> [] -> appendFails w MissingFontsCsv = Some e ->
     handler w srv urls = (mkServer true (disk srv), Thrown e))
  /\ (forall e, fonts = [] \/ appendFails w MissingFontsCsv = None ->
        mismatches <> [] -> appendFails w TransparencyMismatchesCsv = Some e ->
        snd (handler w srv urls) = Thrown e)
  /\ (fonts = [] \/ appendFails w MissingFontsCsv = None ->
      mismatches = [] \/ appendFails w TransparencyMismatchesCsv = None ->
      exists d,
        handler w srv urls
        = (mkServer false d,
           Sent (Status200
                   (mkReport (result merged)
                      (map deleteMismatch (openedProjects merged))
                      (missingProjects merged) (fontSwapProjects merged)
                      (unopenedProjects merged))))
        /\ (fonts = [] -> missingFonts d = missingFonts (disk srv))
        /\ (mismatches = [] ->
            transparencyMismatches d = transparencyMismatches (disk srv))).
Proof.
  intros Hrun Hlen accepted batches merged mismatches Hp Hfonts.
  unfold handler. rewrite Hrun.
  destruct (Nat.ltb_spec limit (List.length urls)); [lia|].
  fold accepted. fold batches. rewrite Hp. fold merged. rewrite Hfonts.
  fold mismatches.
  split; [|split].
  - intros e Hne Hfail. destruct fonts as [|f fonts]; [congruence|].
    unfold appendIfAny, appendFileSync. now rewrite Hfail.
  - intros e Hfirst Hne Hfail.
    assert (Hd : exists d, appendIfAny w MissingFontsCsv fonts (disk srv) = inr d).
    { destruct Hfirst as [->|Hok]; [now exists (disk srv)|].
      unfold appendIfAny, appendFileSync. rewrite Hok.
      destruct fonts; eauto. }
    destruct Hd as [d ->].
    destruct mismatches as [|m ms]; [congruence|].
    cbn [appendIfAny]. unfold appendFileSync. now rewrite Hfail.
  - intros Hfirst Hsecond.
    destruct fonts as [|f fonts].
    + cbn [appendIfAny].
      destruct mismatches as [|m ms].
      * cbn [appendIfAny]. exists (disk srv). repeat split.
      * destruct Hsecond as [E|Hok]; [discriminate E|].
        unfold appendIfAny, appendFileSync. rewrite Hok.
        eexists. split; [reflexivity|]. split; [reflexivity|discriminate].
    + destruct Hfirst as [E|Hok]; [discriminate E|].
      cbn [appendIfAny]. unfold appendFileSync. rewrite Hok.
      destruct mismatches as [|m ms].
      * cbn [appendIfAny]. eexists. split; [reflexivity|].
        split; [discriminate|reflexivity].
      * destruct Hsecond as [E|Hok2]; [discriminate E|].
        cbn [appendIfAny]. unfold appendFileSync. rewrite Hok2.
        eexists. split; [reflexivity|]. split; discriminate.
Qed.

(** C10. A batch whose browser cannot be launched makes [extractData]
    reject; the handler ends with that exception after it has set
    [isRunning], and the statement that clears the flag is never reached:
    every later request is refused with "Already running". A log that
    cannot be written leaves the flag set in the same way. *)
Theorem flag_stuck_after_exception :
  isRunning Demo.idle = false
  /\ handler Demo.noBrowser Demo.idle ["a.bfd"]
     = (mkServer true (disk Demo.idle), Thrown "browserType.launch failed")
  /\ (forall w urls,
        handler w (fst (handler Demo.noBrowser Demo.idle ["a.bfd"])) urls
        = (mkServer true (disk Demo.idle),
           Sent (Status503 "Already running, please wait.")))
  /\ isRunning (fst (handler Demo.diskFull Demo.idle ["a.bfd"])) = true.
Proof.
  split; [reflexivity|]. split; [reflexivity|]. split; [|reflexivity].
  intros w urls. apply running_refuses. reflexivity.
Qed.

End EndpointFacts.

(** The scheduler of the worked inputs resolves every queue it reports. *)
Lemma demo_completes (w : Endpoint.World) :
  Endpoint.extractData w = Demo.extract -> Endpoint.everyPipelineCompletes w.
Proof.
  intros E id shard r H. rewrite E in H. unfold Demo.extract in H.
  destruct (ExtractData.resolved _) as [r'|] eqn:Er; [|discriminate H].
  injection H as <-. exists Demo.requests, Demo.page.
  eexists. split; [|exact Er]. apply run_reachable. constructor.
Qed.

Lemma report_partitions_accepted_witness :
  Permutation
    (map ExtractData.referenceOf
       (Endpoint.outcomes
          (match snd (Endpoint.handler Demo.world Demo.idle Demo.fourUrls) with
           | Endpoint.Sent (Endpoint.Status200 body) => body
           | _ => Endpoint.mkReport "" [] [] [] []
           end)))
    (Admission.accepted Demo.fourUrls).
Proof.
  eapply (report_partitions_accepted Demo.world Demo.idle).
  - apply demo_completes. reflexivity.
  - vm_compute. reflexivity.
Defined.

(** C1, as worded. A design named by its payload, by its thumbnail and
    by its payload again is one normalized reference but two work items
    (the repeated string is dropped, the other spelling is kept): every
    pipeline runs to its end, the four lists of the reply hold two
    entries for the one reference, and the reference is in two lists, the
    opened and the missing. *)
Lemma same_design_in_two_lists :
  Endpoint.everyPipelineCompletes TwoNames.world
  /\ exists body srv',
       Endpoint.handler TwoNames.world Demo.idle TwoNames.urls
       = (srv', Endpoint.Sent (Endpoint.Status200 body))
       /\ map ExtractData.e_url (Endpoint.openedProjects body) = ["foo.bfd"]
       /\ map ExtractData.e_url (Endpoint.missingProjects body) = ["foo.bfd"]
       /\ List.length (Endpoint.outcomes body) = 2
       /\ nodup string_dec
            (map Admission.url (Admission.accepted TwoNames.urls))
          = ["foo.bfd"].
Proof.
  split.
  - intros id shard r H. cbn [Endpoint.extractData TwoNames.world] in H.
    unfold TwoNames.extract in H.
    destruct (ExtractData.resolved _) as [r'|] eqn:Er; [|discriminate H].
    injection H as <-. exists (TwoNames.requests id), TwoNames.page.
    eexists. split; [|exact Er]. apply run_reachable. constructor.
  - eexists. eexists. split; [vm_compute; reflexivity|].
    repeat split.
Qed.

Lemma preload_retried_once_witness :
  exists q, ExtractData.index q = 5
    /\ In q (ExtractData.openedProjects
               (ExtractData.run Demo.requests Demo.page 30
                  (ExtractData.start Demo.fiveReferences))
             ++ ExtractData.fontSwapProjects
                  (ExtractData.run Demo.requests Demo.page 30
                     (ExtractData.start Demo.fiveReferences))
             ++ ExtractData.unopenedProjects
                  (ExtractData.run Demo.requests Demo.page 30
                     (ExtractData.start Demo.fiveReferences))).
Proof.
  refine (proj2 (proj2 (proj1 (proj2 (proj2
    (preload_retried_once Demo.requests Demo.page Demo.fiveReferences
       (ExtractData.run Demo.requests Demo.page 30
          (ExtractData.start Demo.fiveReferences)) 5 _ _)))
    "timeout" 4096%Z _ _)) _).
  - apply run_reachable. constructor.
  - vm_compute. lia.
  - reflexivity.
  - reflexivity.
  - vm_compute. discriminate.
Defined.

Lemma one_opening_at_a_time_witness :
  List.length
    (ExtractData.opening
       (ExtractData.run Demo.requests Demo.page 14
          (ExtractData.start Demo.fiveReferences))) <= 1
  /\ List.length
       (ExtractData.preloadedProjects
          (ExtractData.run Demo.requests Demo.page 14
             (ExtractData.start Demo.fiveReferences))) = 3.
Proof.
  split; [|reflexivity].
  apply (one_opening_at_a_time Demo.requests Demo.page Demo.fiveReferences).
  apply run_reachable. constructor.
Defined.

Lemma too_many_urls_witness :
  Endpoint.handler Demo.world Demo.idle Demo.tooMany
  = (Demo.idle, Endpoint.Sent (Endpoint.Status400 "Too many URLs. Limit = 225")).
Proof.
  apply (proj1 (too_many_urls Demo.world Demo.idle Demo.tooMany)).
  - reflexivity.
  - vm_compute. lia.
Defined.

(** C8, as worded. A request of 226 entries that arrives while a batch is
    running is refused with the 503, not with the 400; and in the
    endpoint that runs one instance for each request a request of 76
    entries, fewer than 225, is refused with the 400. *)
Lemma size_test_comes_second :
  List.length Demo.tooMany = 226
  /\ Endpoint.handler Demo.world
       (Endpoint.mkServer true (Endpoint.disk Demo.idle)) Demo.tooMany
     = (Endpoint.mkServer true (Endpoint.disk Demo.idle),
        Endpoint.Sent (Endpoint.Status503 "Already running, please wait."))
  /\ List.length (repeat "a.bfd" 76) <= 225
  /\ snd (SingleInstance.receive
            (SingleInstance.idle (Endpoint.disk Demo.idle))
            (repeat "a.bfd" 76))
     = Some (SingleInstance.Status400 "Too many URLs. Limit = 75").
Proof.
  split; [reflexivity|]. split; [reflexivity|].
  split; [vm_compute; lia | reflexivity].
Qed.

(** C9, as worded. A completed batch with a font swap whose font log
    cannot be written: the handler ends with the error of the write and
    the report is not sent. *)
Lemma log_failure_loses_report :
  Endpoint.everyPipelineCompletes Demo.diskFull
  /\ Endpoint.handler Demo.diskFull Demo.idle ["a.bfd"]
     = (Endpoint.mkServer true (Endpoint.disk Demo.idle), Endpoint.Thrown "ENOSPC")
  /\ (forall srv' body,
        Endpoint.handler Demo.diskFull Demo.idle ["a.bfd"]
        <> (srv', Endpoint.Sent (Endpoint.Status200 body))).
Proof.
  split; [apply demo_completes; reflexivity|].
  split; [vm_compute; reflexivity|].
  intros srv' body H. vm_compute in H. discriminate H.
Qed.

Lemma log_failure_fails_request_witness :
  Endpoint.handler Demo.diskFull Demo.idle ["a.bfd"]
  = (Endpoint.mkServer true (Endpoint.disk Demo.idle), Endpoint.Thrown "ENOSPC").
Proof.
  refine (proj1
    (log_failure_fails_request Demo.diskFull Demo.idle ["a.bfd"]
       [ExtractData.mkResult [] []
          [ExtractData.mkEntry "a.bfd" None (Some 2%Z) None (Some ["Arial"]) None]
          []]
       ["Arial"] _ _ _ _) "ENOSPC" _ _).
  - reflexivity.
  - vm_compute. lia.
  - vm_compute. reflexivity.
  - vm_compute. reflexivity.
  - discriminate.
  - reflexivity.
Defined.

(** ** The deadline *)

Section DeadlineFacts.

Import Deadline.

Local Abbreviation typeError := "termination.exit is not a function".

(** What holds of a batch in every state: [exit] is what the state of
    the pipeline makes it; while the handler waits, some pipeline is
    running and none has rejected; an armed timer means the handler
    waits or a pipeline has rejected; the timeout callback did not run
    without ending the process; a summary is only marked with the timer
    cleared and [timedOut] still [false]. *)
Local Abbreviation sound :=
  (fun b : Batch =>
     Forall (fun kv => consistent (snd kv)) (instances b)
     /\ (awaiting b = true ->
         Forall (fun kv => forall e, status (snd kv) <> Rejected e)
                (instances b)
         /\ exists kv, In kv (instances b) /\ status (snd kv) = Running)
     /\ (timer b = true ->
         awaiting b = true
         \/ exists kv e, In kv (instances b) /\ status (snd kv) = Rejected e)
     /\ (timedOut b = true -> uncaught b <> None)
     /\ (forall s, summary b = Some s ->
           timer b = false /\ timedOut b = false /\ s = resultText b)).

Lemma update_keeps {A} (k : nat) (x y z : A) (l : list A) :
  nth_error l k = Some z -> In y l -> y <> z -> In y (update k x l).
Proof.
  revert k. induction l as [|a t IH]; intros [|k] Hn Hin Hne; cbn in *;
    try discriminate Hn.
  - injection Hn as ->. destruct Hin as [H|H]; [congruence | now right].
  - destruct Hin as [H|H]; [now left | right; now apply IH].
Qed.

Lemma Forall_updated {A} (P : A -> Prop) (k : nat) (x : A) (l : list A) :
  Forall P l -> P x -> Forall P (update k x l).
Proof.
  intros H Hx. revert k. induction H as [|y t Hy Ht IH]; intros [|k];
    cbn [update]; constructor; auto.
Qed.

(** Pipelines that have not all returned, none of them rejected: one is
    running. *)
Lemma some_running (l : list (Coordinator.InstanceID * Instance)) :
  forallb (fun kv => isReturned (snd kv)) l = false ->
  Forall (fun kv => forall e, status (snd kv) <> Rejected e) l ->
  exists kv, In kv l /\ status (snd kv) = Running.
Proof.
  induction l as [|kv t IH]; cbn [forallb]; [discriminate|].
  intros H Hall. inversion Hall as [|x xs Hkv Ht]; subst.
  unfold isReturned in H at 1.
  destruct (status (snd kv)) as [| |e] eqn:E.
  - exists kv. split; [now left | exact E].
  - cbn [andb] in H. destruct (IH H Ht) as [kv' [Hin Hrun]].
    exists kv'. split; [now right | exact Hrun].
  - now destruct (Hkv e).
Qed.

(** An object without [exit] ends the loop of the callback. *)
Lemma callExits_throws (l : list (Coordinator.InstanceID * Instance)) :
  Forall (fun kv => consistent (snd kv)) l ->
  (exists kv, In kv l /\ status (snd kv) <> Returned) ->
  callExits l = Some typeError.
Proof.
  induction 1 as [|kv t Hkv Ht IH]; intros [kv' [Hin Hnot]]; [destruct Hin|].
  cbn [callExits]. destruct (exit (snd kv)) eqn:Ex; [reflexivity|].
  apply IH. destruct Hin as [<-|Hin]; [|now exists kv'].
  exfalso. unfold consistent in Hkv.
  destruct (status (snd kv)); congruence.
Qed.

Lemma sound_resume (b : Batch) :
  uncaught b = None ->
  Forall (fun kv => consistent (snd kv)) (instances b) ->
  (awaiting b = true ->
   Forall (fun kv => forall e, status (snd kv) <> Rejected e) (instances b)) ->
  (timer b = true ->
   awaiting b = true
   \/ exists kv e, In kv (instances b) /\ status (snd kv) = Rejected e) ->
  (timedOut b = true -> uncaught b <> None) ->
  (forall s, summary b = Some s ->
     timer b = false /\ timedOut b = false /\ s = resultText b) ->
  sound (resume b).
Proof.
  intros Hu Hc Ha Ht Hd Hs. unfold resume.
  destruct (awaiting b) eqn:Ea; cbn [andb].
  - destruct (forallb _ (instances b)) eqn:Eall.
    + cbn [instances awaiting timer timedOut uncaught summary resultText].
      split; [exact Hc|]. split; [discriminate|]. split; [discriminate|].
      split; [exact Hd|]. intros s [= <-].
      destruct (timedOut b) eqn:Et; [now destruct (Hd eq_refl)|].
      repeat split.
    + rewrite Ea. split; [exact Hc|]. split.
      * intros _. split; [now apply Ha|].
        apply some_running; [exact Eall | now apply Ha].
      * split; [exact Ht|]. split; assumption.
  - rewrite Ea. split; [exact Hc|]. split; [discriminate|].
    split; [exact Ht|]. split; assumption.
Qed.

Lemma sound_launch (ids : list Coordinator.InstanceID) (text : string) :
  sound (launch ids text).
Proof.
  unfold launch. apply sound_resume;
    cbn [instances awaiting timer timedOut uncaught summary];
    try discriminate; try reflexivity.
  - apply Forall_forall. intros kv Hin. apply in_map_iff in Hin.
    destruct Hin as [id [<- _]]. reflexivity.
  - intros _. apply Forall_forall. intros kv Hin. apply in_map_iff in Hin.
    destruct Hin as [id [<- _]]. discriminate.
  - intros _. now left.
Qed.

Lemma sound_turn (b b' : Batch) (ev : Event) :
  sound b -> turn b ev = Some b' -> sound b'.
Proof.
  intros [Hc [Ha [Ht [Hd Hs]]]] Hturn. unfold turn in Hturn.
  destruct (uncaught b) eqn:Eu; [discriminate Hturn|].
  destruct ev as [k|k e|].
  - destruct (nth_error (instances b) k) as [kv|] eqn:En; [|discriminate Hturn].
    destruct (status (snd kv)) eqn:Es; try discriminate Hturn.
    injection Hturn as <-. apply sound_resume; unfold withInstances;
      cbn [instances awaiting timer timedOut uncaught summary resultText];
      try assumption.
    + apply Forall_updated; [exact Hc | reflexivity].
    + intros Haw. apply Forall_updated; [now apply Ha | discriminate].
    + intros Htm. destruct (Ht Htm) as [H|[kv' [e [Hin Hrej]]]]; [now left|].
      right. exists kv', e. split; [|exact Hrej].
      eapply update_keeps; [exact En | exact Hin | congruence].
    + rewrite Eu. exact Hd.
  - destruct (nth_error (instances b) k) as [kv|] eqn:En; [|discriminate Hturn].
    destruct (status (snd kv)) eqn:Es; try discriminate Hturn.
    injection Hturn as <-.
    assert (Hc' : Forall (fun kv0 => consistent (snd kv0))
                    (update k (fst kv, rejected e (snd kv)) (instances b))).
    { apply Forall_updated; [exact Hc|]. unfold consistent, rejected. cbn.
      rewrite Forall_forall in Hc. specialize (Hc kv (nth_error_In _ _ En)).
      unfold consistent in Hc. now rewrite Es in Hc. }
    assert (Hrej : exists kv' e',
               In kv' (update k (fst kv, rejected e (snd kv)) (instances b))
               /\ status (snd kv') = Rejected e').
    { exists (fst kv, rejected e (snd kv)), e. split; [|reflexivity].
      clear -En. revert k En. induction (instances b) as [|a t IH];
        intros [|k] En; cbn in *; try discriminate En; [now left|].
      right. now apply IH. }
    unfold abandon, withInstances.
    cbn [instances awaiting timer timedOut uncaught summary resultText].
    destruct (awaiting b) eqn:Ea;
      cbn [instances awaiting timer timedOut uncaught summary resultText].
    + split; [exact Hc'|]. split; [discriminate|]. split; [now right|].
      split; [rewrite Eu; exact Hd | exact Hs].
    + split; [exact Hc'|]. split; [discriminate|]. split; [now right|].
      split; [rewrite Eu; exact Hd | exact Hs].
  - destruct (timer b) eqn:Etm; [|discriminate Hturn].
    injection Hturn as <-. unfold expire.
    cbn [instances awaiting timer timedOut uncaught summary resultText].
    split; [exact Hc|]. split; [exact Ha|]. split; [discriminate|]. split.
    + intros _. rewrite callExits_throws; [discriminate | exact Hc |].
      destruct (Ht eq_refl) as [Haw|[kv [e [Hin Hrej]]]].
      * destruct (Ha Haw) as [_ [kv [Hin Hrun]]]. exists kv.
        split; [exact Hin | congruence].
      * exists kv. split; [exact Hin | congruence].
    + intros s Hsum. destruct (Hs s Hsum) as [F _]. discriminate F.
Qed.

Lemma sound_reachable (ids : list Coordinator.InstanceID) (text : string)
  (b : Batch) :
  reachable (launch ids text) b -> sound b.
Proof.
  induction 1 as [|b ev b' _ IH Hturn].
  - apply sound_launch.
  - exact (sound_turn _ _ _ IH Hturn).
Qed.

(** C7, as the code runs. The batch of three pipelines whose second
    pipeline has returned is a state of the handler. When the timeout
    fires in it, [timedOut] is set, the [exit] of the pipeline that
    returned is the empty function [runBatch] left there, but the first
    object of [batchTerminations] has no [exit]: the call throws a
    [TypeError], no pipeline is told to stop, the exception leaves the
    callback, nothing runs afterwards and no summary is ever marked. In
    general: whenever the timer is armed some pipeline has not returned,
    so the callback always ends in that [TypeError] and changes no
    pipeline; a summary that the handler did mark was marked with
    [timedOut] still [false], so it never carries [Timed out. ]; and the
    summary of a reply is the text of [resultText] under that same mark,
    so a reply carries the prefix only if the handler found [timedOut]
    set. *)
Theorem deadline_call_throws :
  turns (launch Demo.threeIDs (Endpoint.resultText Demo.world 1 3 3))
        [Returns 1] = Some Demo.oneReturned
  /\ (exists expired,
        turn Demo.oneReturned Expires = Some expired
        /\ timedOut expired = true
        /\ uncaught expired = Some typeError
        /\ map snd (instances expired)
           = [mkInstance Undefined Running; mkInstance Noop Returned;
              mkInstance Undefined Running]
        /\ summary expired = None
        /\ forall ev, turn expired ev = None)
  /\ (exists late,
        turns (launch Demo.threeIDs (Endpoint.resultText Demo.world 1 3 3))
              [Rejects 0 "browserType.launch failed"; Returns 1; Returns 2;
               Expires] = Some late
        /\ thrown late = Some "browserType.launch failed"
        /\ awaiting late = false
        /\ uncaught late = Some typeError
        /\ summary late = None)
  /\ (forall ids text b,
        reachable (launch ids text) b -> timer b = true ->
        (exists kv, In kv (instances b) /\ status (snd kv) <> Returned)
        /\ uncaught (expire b) = Some typeError
        /\ instances (expire b) = instances b
        /\ summary (expire b) = None)
  /\ (forall ids text b,
        reachable (launch ids text) b ->
        Forall (fun kv => status (snd kv) = Returned <-> exit (snd kv) = Noop)
               (instances b)
        /\ forall s, summary b = Some s ->
             timedOut b = false /\ s = text
             /\ s <> Endpoint.mark true text)
  /\ (forall w srv srv' urls body,
        Endpoint.handler w srv urls
        = (srv', Endpoint.Sent (Endpoint.Status200 body)) ->
        exists instances,
          Endpoint.result body
          = Endpoint.mark (Endpoint.timedOut w)
              (Endpoint.resultText w
                 (List.length (Endpoint.openedProjects body))
                 (List.length (Admission.accepted urls)) instances)).
Proof.
  split; [reflexivity|]. split; [|split; [|split; [|split]]].
  - exists (expire Demo.oneReturned). repeat split.
  - eexists. split; [reflexivity|]. repeat split.
  - intros ids text b Hreach Htimer.
    destruct (sound_reachable _ _ _ Hreach) as [Hc [Ha [Ht [_ Hs]]]].
    assert (Hnot : exists kv, In kv (instances b) /\ status (snd kv) <> Returned).
    { destruct (Ht Htimer) as [Haw|[kv [e [Hin Hrej]]]].
      - destruct (Ha Haw) as [_ [kv [Hin Hrun]]]. exists kv.
        split; [exact Hin | congruence].
      - exists kv. split; [exact Hin | congruence]. }
    split; [exact Hnot|]. split; [now apply callExits_throws|].
    split; [reflexivity|]. cbn [expire summary].
    destruct (summary b) as [s|] eqn:E; [|reflexivity].
    destruct (Hs s eq_refl) as [F _]. congruence.
  - intros ids text b Hreach.
    assert (Htext : resultText b = text).
    { induction Hreach as [|b ev b' _ IH Hturn].
      - unfold launch, resume. now destruct (_ && _).
      - rewrite <- IH. unfold turn in Hturn.
        destruct (uncaught b); [discriminate Hturn|].
        destruct ev as [k|k e|].
        + destruct (nth_error (instances b) k); [|discriminate Hturn].
          destruct (status (snd p)); try discriminate Hturn.
          injection Hturn as <-. unfold resume. now destruct (_ && _).
        + destruct (nth_error (instances b) k); [|discriminate Hturn].
          destruct (status (snd p)); try discriminate Hturn.
          injection Hturn as <-. unfold abandon. cbn [withInstances awaiting].
          now destruct (awaiting b).
        + destruct (timer b); [|discriminate Hturn]. now injection Hturn as <-. }
    destruct (sound_reachable _ _ _ Hreach) as [Hc [_ [_ [_ Hs]]]]. split.
    + eapply Forall_impl; [|exact Hc]. intros kv Hkv. unfold consistent in Hkv.
      destruct (status (snd kv)); rewrite Hkv; split; congruence.
    + intros s Hsum. destruct (Hs s Hsum) as [_ [Ht ->]].
      rewrite Htext. split; [exact Ht|]. split; [reflexivity|].
      unfold Endpoint.mark. intros E.
      apply (f_equal String.length) in E. rewrite length_append in E.
      cbn [String.length] in E. lia.
  - intros w srv srv' urls body. unfold Endpoint.handler.
    destruct (Endpoint.isRunning srv); [discriminate|].
    destruct (Nat.ltb Endpoint.limit (List.length urls)); [discriminate|].
    destruct (Endpoint.promiseAll _ _) as [e|allResults]; [discriminate|].
    destruct (Endpoint.collectFonts _ _) as [e|fonts]; [discriminate|].
    destruct (Endpoint.appendIfAny _ Endpoint.MissingFontsCsv _ _)
      as [e|disk1]; [discriminate|].
    destruct (Endpoint.appendIfAny _ Endpoint.TransparencyMismatchesCsv _ _)
      as [e|disk2]; [discriminate|].
    intros [= _ <-]. exists (List.length allResults).
    cbn [Endpoint.combine Endpoint.result Endpoint.openedProjects].
    now rewrite length_map.
Qed.

End DeadlineFacts.

(* ================================================================== *)
(** * Part III: further properties of the code                         *)
(* ================================================================== *)

(** ** Duplicate removal and conversion, once more *)

Section AdmissionMore.

Import Admission.

Lemma keepFirst_app (seen l l' : list string) :
  keepFirst seen (l ++ l') = keepFirst seen l ++ keepFirst (l ++ seen) l'.
Proof.
  revert seen. induction l as [|u t IH]; intros seen; [reflexivity|].
  cbn [app keepFirst]. destruct (existsb (String.eqb u) seen) eqn:E.
  - rewrite IH. f_equal. apply keepFirst_ext. intros v.
    apply existsb_eqb_In in E. cbn [In]. rewrite !in_app_iff.
    split; [tauto|]. intros [->|H]; tauto.
  - cbn [app]. rewrite IH. do 2 f_equal. apply keepFirst_ext. intros v.
    cbn [In]. rewrite !in_app_iff. cbn [In]. tauto.
Qed.

Lemma keepFirst_seen (seen l : list string) :
  (forall u, In u l -> In u seen) -> keepFirst seen l = [].
Proof.
  induction l as [|u t IH]; intros H; [reflexivity|]. cbn [keepFirst].
  assert (E : existsb (String.eqb u) seen = true).
  { apply existsb_eqb_In, H. now left. }
  rewrite E. apply IH. intros v Hv. apply H. now right.
Qed.

Lemma keepFirst_fixed (seen l : list string) :
  NoDup l -> (forall u, In u l -> ~ In u seen) -> keepFirst seen l = l.
Proof.
  revert seen. induction l as [|u t IH]; intros seen Hnd H; [reflexivity|].
  inversion Hnd as [|x xs Hnot Hnd']; subst. cbn [keepFirst].
  destruct (existsb (String.eqb u) seen) eqn:E.
  - apply existsb_eqb_In in E. exfalso. apply (H u); [now left | exact E].
  - f_equal. apply IH; [exact Hnd'|].
    intros v Hv [<-|Hs]; [contradiction|]. apply (H v); [now right | exact Hs].
Qed.

(** X1. Entries that repeat an earlier entry of the list change nothing:
    neither the list kept by the duplicate filter nor the batch handed to
    the pipelines. Filtering twice is filtering once. *)
Theorem repeats_change_nothing (urls more : list string) :
  (forall u, In u more -> In u urls) ->
  removeDuplicates (urls ++ more) = removeDuplicates urls
  /\ accepted (urls ++ more) = accepted urls
  /\ removeDuplicates (removeDuplicates urls) = removeDuplicates urls.
Proof.
  intros H.
  assert (E : removeDuplicates (urls ++ more) = removeDuplicates urls).
  { rewrite !removeDuplicates_keepFirst, keepFirst_app.
    rewrite (keepFirst_seen (urls ++ []) more).
    - apply app_nil_r.
    - intros u Hu. apply in_app_iff. left. now apply H. }
  split; [exact E|]. split.
  - unfold accepted. now rewrite E.
  - rewrite (removeDuplicates_keepFirst (removeDuplicates urls)).
    apply keepFirst_fixed.
    + rewrite removeDuplicates_keepFirst. apply keepFirst_NoDup.
    + intros u _ [].
Qed.

Lemma repeats_change_nothing_witness :
  accepted (["a.bfd"; "b.bfd_thumb.png"] ++ ["b.bfd_thumb.png"; "a.bfd"])
  = accepted ["a.bfd"; "b.bfd_thumb.png"].
Proof.
  apply (repeats_change_nothing ["a.bfd"; "b.bfd_thumb.png"]
           ["b.bfd_thumb.png"; "a.bfd"]).
  intros u Hu. cbn in *. tauto.
Defined.

Lemma filterBoolean_In {A} (l : list (option A)) (x : A) :
  In x (filterBoolean l) <-> In (Some x) l.
Proof.
  induction l as [|[y|] t IH]; cbn [filterBoolean In].
  - tauto.
  - rewrite IH. split; intros [H|H]; auto; left; congruence.
  - rewrite IH. split; [tauto|]. intros [H|H]; [discriminate H | exact H].
Qed.

Lemma filterBoolean_length {A} (l : list (option A)) :
  List.length (filterBoolean l) <= List.length l.
Proof.
  induction l as [|[y|] t IH]; cbn [filterBoolean List.length]; lia.
Qed.

Lemma keepFirst_length (seen l : list string) :
  List.length (keepFirst seen l) <= List.length l.
Proof.
  revert seen. induction l as [|u t IH]; intros seen; cbn [keepFirst List.length];
    [lia|].
  destruct (existsb (String.eqb u) seen); cbn [List.length];
    [specialize (IH seen) | specialize (IH (u :: seen))]; lia.
Qed.

(** X2. A reference is in the batch exactly when some raw entry of the
    request converts to it; the batch is never longer than the request,
    and holds as many entries as distinct raw strings convert. *)
Theorem accepted_membership (urls : list string) :
  (forall r, In r (accepted urls)
             <-> exists u, In u urls /\ convert u = Some r)
  /\ List.length (accepted urls) <= List.length (removeDuplicates urls)
  /\ List.length (removeDuplicates urls) <= List.length urls.
Proof.
  split; [|split].
  - intros r. unfold accepted. rewrite filterBoolean_In, in_map_iff.
    split.
    + intros [u [E Hin]]. exists u. split; [|exact E].
      rewrite removeDuplicates_keepFirst, keepFirst_In in Hin. tauto.
    + intros [u [Hin E]]. exists u. split; [exact E|].
      rewrite removeDuplicates_keepFirst, keepFirst_In. cbn [In]. tauto.
  - unfold accepted.
    pose proof (filterBoolean_length (map convert (removeDuplicates urls))) as H.
    now rewrite length_map in H.
  - rewrite removeDuplicates_keepFirst. apply keepFirst_length.
Qed.

(** *** Strings cut in three *)

Lemma substring_length (s : string) (n m : nat) :
  String.length (substring n m s) = Nat.min m (String.length s - n).
Proof.
  revert n m. induction s as [|c s IH]; intros [|n] [|m]; cbn; try reflexivity.
  - now rewrite IH, Nat.sub_0_r.
  - now rewrite IH.
  - now rewrite IH.
Qed.

Lemma substring_plus (s : string) (n a b : nat) :
  substring n (a + b) s = (substring n a s ++ substring (n + a) b s)%string.
Proof.
  revert n a. induction s as [|c s IH]; intros n a.
  - destruct n, a, b; reflexivity.
  - destruct n as [|n].
    + destruct a as [|a]; [reflexivity|].
      cbn [Nat.add substring append]. now rewrite (IH 0 a).
    + cbn [Nat.add substring]. apply IH.
Qed.

Lemma substring_rest (s : string) (n : nat) :
  n <= String.length s ->
  s = (substring 0 n s ++ substring n (String.length s - n) s)%string.
Proof.
  revert n. induction s as [|c s IH]; intros [|n] Hn; cbn in *; try reflexivity;
    try lia.
  - f_equal. specialize (IH 0 ltac:(lia)). cbn in IH.
    rewrite Nat.sub_0_r in IH. destruct s; [reflexivity|]. cbn in *.
    now injection IH.
  - f_equal. apply IH. lia.
Qed.

(** A text that ends with a pattern holds it, and is the text before its
    first occurrence, the pattern, and the text after. *)
Lemma endsWith_occurs (s pattern : string) :
  pattern <> "" -> JS.endsWith s pattern = true ->
  exists a b, s = (a ++ pattern ++ b)%string
              /\ forall replacement,
                   JS.replace s pattern replacement = (a ++ replacement ++ b)%string.
Proof.
  intros Hne H. unfold JS.endsWith in H. apply andb_true_iff in H.
  destruct H as [Hle Heq]. apply Nat.leb_le in Hle. apply String.eqb_eq in Heq.
  destruct (index 0 pattern s) as [i|] eqn:Ei.
  - pose proof (index_correct1 _ _ _ _ Ei) as Hsub.
    assert (Hi : i + String.length pattern <= String.length s).
    { pose proof (substring_length s i (String.length pattern)) as Hl.
      rewrite Hsub in Hl.
      assert (0 < String.length pattern) by (destruct pattern; [congruence | cbn; lia]).
      lia. }
    exists (substring 0 i s),
      (substring (i + String.length pattern)
         (String.length s - (i + String.length pattern)) s).
    split.
    + assert (Hrest : substring i (String.length s - i) s
                      = (pattern
                         ++ substring (i + String.length pattern)
                              (String.length s - (i + String.length pattern)) s)%string).
      { replace (String.length s - i)
          with (String.length pattern
                + (String.length s - (i + String.length pattern))) by lia.
        now rewrite substring_plus, Hsub. }
      rewrite <- Hrest. apply substring_rest. lia.
    + intros replacement. unfold JS.replace. now rewrite Ei.
  - exfalso.
    apply (index_correct3 0 (String.length s - String.length pattern) _ _ Ei Hne);
      [lia | exact Heq].
Qed.

(** X3. The three spellings an entry can have. An entry is dropped exactly
    when it ends in none of [.bfd], [.bfd_thumb.jpg], [.bfd_thumb.png]. An
    entry that ends in [.bfd] is kept as it is, without a hint. Any other
    entry that is kept ends in [.bfd_thumb.] and [jpg] or [png]; its
    reference is the entry with one occurrence of that ending replaced by
    [.bfd], and its hint tells [png] from [jpg]. *)
Theorem convert_cases (u : string) :
  match convert u with
  | None =>
      JS.endsWith u ".bfd" = false /\ JS.endsWith u ".bfd_thumb.jpg" = false
      /\ JS.endsWith u ".bfd_thumb.png" = false
  | Some r =>
      (JS.endsWith u ".bfd" = true /\ r = mkReference u None)
      \/ (JS.endsWith u ".bfd" = false
          /\ exists ext a b,
               (ext = "jpg" \/ ext = "png")
               /\ JS.endsWith u (".bfd_thumb." ++ ext) = true
               /\ u = (a ++ (".bfd_thumb." ++ ext) ++ b)%string
               /\ r = mkReference (a ++ ".bfd" ++ b)
                                  (Some (ext =? "png")%string))
  end.
Proof.
  unfold convert, thumbMatch.
  destruct (JS.endsWith u ".bfd") eqn:E1; [left; now split|].
  destruct (JS.endsWith u ".bfd_thumb.jpg") eqn:E2.
  - right. split; [reflexivity|].
    destruct (endsWith_occurs u ".bfd_thumb.jpg" ltac:(discriminate) E2)
      as [a [b [Hu Hr]]].
    exists "jpg", a, b. repeat split; auto. now rewrite Hr.
  - destruct (JS.endsWith u ".bfd_thumb.png") eqn:E3; [|repeat split].
    right. split; [reflexivity|].
    destruct (endsWith_occurs u ".bfd_thumb.png" ltac:(discriminate) E3)
      as [a [b [Hu Hr]]].
    exists "png", a, b. repeat split; auto. now rewrite Hr.
Qed.

End AdmissionMore.

(** ** How many shards *)

Section DivideMore.

Import Coordinator.

Context {A : Type}.
Variable instances : nat.
Variable batch : string.
Variable letters : nat -> string.
Variable urls : list A.

Local Abbreviation size := (batchSize instances urls).
Local Abbreviation shard := (shardAt instances urls).
Local Abbreviation turns := (turns instances batch letters urls).
Local Abbreviation count := (JS.ceilDiv (List.length urls) size).

Lemma shard_empty_from (a : nat) :
  0 < instances -> (shard a = [] <-> count <= a).
Proof.
  intros Hpos.
  pose proof (ceilDiv_covers instances urls Hpos) as Hcov.
  pose proof (shard_length instances urls a) as Hlen.
  assert (Hnil : shard a = [] <-> List.length (shard a) = 0).
  { destruct (shard a); cbn; split; congruence. }
  rewrite Hnil, Hlen. unfold JS.ceilDiv.
  destruct size as [|sz] eqn:Es.
  - cbn. split; [lia|reflexivity].
  - split.
    + intros H.
      assert (Hle : List.length urls <= a * S sz) by lia.
      assert (Hlt : (List.length urls + (S sz - 1)) / S sz < S a).
      { apply Nat.Div0.div_lt_upper_bound; lia. }
      lia.
    + intros H.
      destruct (Nat.le_gt_cases (List.length urls) (a * S sz)) as [Hle|Hgt]; [lia|].
      exfalso.
      assert (Hq : S a <= (List.length urls + (S sz - 1)) / S sz).
      { apply Nat.div_le_lower_bound; lia. }
      lia.
Qed.

Lemma turns_length (a k : nat) :
  0 < instances -> List.length (turns a k) = Nat.min k (count - a).
Proof.
  intros Hpos. revert a. induction k as [|k IH]; intros a; [reflexivity|].
  cbn [Coordinator.turns].
  destruct (shard a) as [|x t] eqn:E.
  - rewrite IH. apply (shard_empty_from a Hpos) in E. lia.
  - cbn [List.length]. rewrite IH.
    assert (Hlt : ~ count <= a).
    { intros H. apply (shard_empty_from a Hpos) in H. congruence. }
    lia.
Qed.

Lemma turns_ordinals (a k : nat) :
  0 < instances ->
  map (fun kv => ordinal (fst kv)) (turns a k)
  = seq (a + 1) (List.length (turns a k)).
Proof.
  intros Hpos. revert a. induction k as [|k IH]; intros a; [reflexivity|].
  cbn [Coordinator.turns].
  destruct (shard a) as [|x t] eqn:E.
  - apply (shard_empty_from a Hpos) in E.
    assert (Hnone : turns (S a) k = []).
    { apply length_zero_iff_nil. rewrite turns_length by exact Hpos. lia. }
    now rewrite Hnone.
  - cbn [map List.length seq fst ordinal instanceID]. now rewrite IH.
Qed.

(** X4. The number of shards, and of Chrome instances started, is
    [ceil(N / ceil(N / K))]: never more than [K], and fewer than [K] for
    some sizes (four references and three instances give two shards of
    two). The keys of [batches] carry the ordinals 1, 2, ... without a
    gap. *)
Theorem divide_shard_count :
  0 < instances ->
  List.length (divide instances batch letters urls) = count
  /\ count <= instances
  /\ map (fun kv => ordinal (fst kv)) (divide instances batch letters urls)
     = seq 1 count.
Proof.
  intros Hpos.
  assert (Hle : count <= instances).
  { destruct (Nat.le_gt_cases count instances) as [H|H]; [exact H|].
    exfalso.
    assert (Hne : shard instances <> []).
    { intros E. apply (shard_empty_from instances Hpos) in E. lia. }
    pose proof (shard_length instances urls instances) as Hlen.
    pose proof (ceilDiv_covers instances urls Hpos) as Hcov.
    destruct (shard instances); [congruence|]. cbn in Hlen. lia. }
  rewrite divide_turns.
  assert (Hlen : List.length (turns 0 instances) = count).
  { rewrite turns_length by exact Hpos. lia. }
  split; [exact Hlen|]. split; [exact Hle|].
  rewrite turns_ordinals by exact Hpos. now rewrite Hlen.
Qed.

End DivideMore.

Lemma divide_shard_count_witness :
  List.length
    (Coordinator.batches "abc" (fun _ => "xyz")
       (Admission.accepted Demo.fourUrls)) = 2.
Proof.
  apply (divide_shard_count 3 "abc" (fun _ => "xyz")
           (Admission.accepted Demo.fourUrls)).
  lia.
Defined.


(** ** The queue against the pipeline run one entry at a time *)

Section SequentialFacts.

Import ExtractData Sequential.

Variable host : nat -> Requests.
Variable page : nat -> PageReplies.

Local Abbreviation Shape := (Shaped host page).
Local Abbreviation outcomeOf :=
  (fun x : nat * Admission.Reference => outcome host page (fst x) (snd x)).

Ltac fields :=
  cbn [queuedProjects loadingProjects preloadedProjects missingProjects
       fontSwapProjects unopenedProjects openedProjects isOpeningProject
       opening timers settled closing resolved] in *.

Lemma In_splice1 {A} (position : nat) (l : list A) (x : A) :
  In x (splice1 position l) -> In x l.
Proof.
  unfold splice1. revert position.
  induction l as [|a t IH]; intros [|position]; cbn; try tauto.
  intros [H|H]; [now left|right; now apply (IH position)].
Qed.

Lemma Forall_splice1 {A} (P : A -> Prop) (position : nat) (l : list A) :
  Forall P l -> Forall P (splice1 position l).
Proof.
  rewrite !Forall_forall. intros H x Hin. now apply H, (In_splice1 position).
Qed.

Lemma Forall_settle (P : Project -> Prop) (l : list Project) (p : Project) :
  Forall P l -> Forall P (settle l p).
Proof.
  induction 1 as [|q t Hq Ht IH]; cbn [settle]; [constructor|].
  destruct (sameProject q p); [exact Ht | now constructor].
Qed.

Lemma fresh_enqueue (i : nat) (urlsToProcess : list Admission.Reference) :
  Forall fresh (enqueue i urlsToProcess).
Proof.
  revert i. induction urlsToProcess as [|r t IH]; intros i; cbn [enqueue];
    constructor; [repeat split | apply IH].
Qed.

Lemma shaped_start (urlsToProcess : list Admission.Reference) :
  Shape (start urlsToProcess).
Proof.
  constructor; unfold start; fields; try constructor.
  rewrite app_nil_r. apply fresh_enqueue.
Qed.

Lemma shaped_preloadNextURL (s : State) : Shape s -> Shape (preloadNextURL s).
Proof.
  intros H. unfold preloadNextURL.
  destruct (queuedProjects s) as [|project rest] eqn:Eq; [exact H|].
  destruct (Nat.leb inParallel (List.length (loadingProjects s))); [exact H|].
  destruct H as [Hf Hr Hm Hfs Hu Ho].
  destruct s as [q l pre mis fs un opd iso op tm st cl res]. fields. subst q.
  constructor; fields; try assumption.
  cbn [app] in Hf. inversion Hf as [|x xs Hx Hxs]; subst.
  apply Forall_app in Hxs. destruct Hxs as [H1 H2].
  repeat (apply Forall_app; split); try assumption. now constructor.
Qed.

Lemma shaped_openNextProject (s : State) : Shape s -> Shape (openNextProject s).
Proof.
  intros H. unfold openNextProject.
  destruct (isOpeningProject s); [exact H|].
  destruct H as [Hf Hr Hm Hfs Hu Ho].
  destruct s as [q l pre mis fs un opd iso op tm st cl res]. fields.
  destruct pre as [|project rest].
  - destruct q as [|? ?]; [destruct l as [|? ?]|];
      constructor; fields; assumption.
  - constructor; fields; try assumption.
    cbn [app] in Hr. inversion Hr as [|x xs Hx Hxs]; subst.
    apply Forall_app in Hxs. destruct Hxs as [H1 H2].
    repeat (apply Forall_app; split); try assumption. now constructor.
Qed.

Lemma shaped_counters (s : State) (tm st cl : nat) (res : option Result) :
  Shape s ->
  Shape (mkState (queuedProjects s) (loadingProjects s) (preloadedProjects s)
           (missingProjects s) (fontSwapProjects s) (unopenedProjects s)
           (openedProjects s) (isOpeningProject s) (opening s) tm st cl res).
Proof.
  intros [Hf Hr Hm Hfs Hu Ho]. constructor; fields; assumption.
Qed.

Lemma shaped_preloadSettled (s : State) (project : Project) :
  In project (loadingProjects s) ->
  Shape s -> Shape (preloadSettled host project s).
Proof.
  intros Hin H.
  assert (Hp : fresh project).
  { destruct H as [Hf _ _ _ _ _]. apply Forall_app in Hf.
    destruct Hf as [_ Hf]. rewrite Forall_forall in Hf. now apply Hf. }
  destruct Hp as [Hsize [Herr [Hfonts Hrend]]].
  unfold preloadSettled, preloaded, preloadFailed.
  destruct (indexOfProject (loadingProjects s) project) as [position|];
    [|now destruct (fst (preload (host (index project))))].
  destruct H as [Hf Hr Hm Hfs Hu Ho].
  destruct s as [q l pre mis fs un opd iso op tm st cl res]. fields.
  assert (Hf' : Forall fresh (q ++ splice1 position l)).
  { apply Forall_app in Hf. destruct Hf as [H1 H2].
    apply Forall_app. split; [assumption | now apply Forall_splice1]. }
  destruct (fst (preload (host (index project)))) as [e|size] eqn:Ep;
    unfold awaitLastThen; fields; constructor; fields; try assumption.
  - apply Forall_app. split; [assumption|]. constructor; [|constructor].
    unfold settledAs, outcome, deleteIndex.
    cbn [index url isThumbTransparent sizeInKB error fontsToSwap rendered
         Admission.url Admission.isThumbTransparent].
    rewrite Ep, Hsize, Hfonts, Hrend. reflexivity.
  - rewrite <- app_assoc. apply Forall_app in Hr. destruct Hr as [H1 H2].
    apply Forall_app. split; [assumption|]. constructor; [|assumption].
    exists size.
    cbn [index url isThumbTransparent sizeInKB error fontsToSwap rendered].
    repeat split; assumption.
Qed.

Lemma shaped_opened (s : State) (project : Project) :
  In project (opening s) -> Shape s -> Shape (opened page project s).
Proof.
  intros Hin H. unfold opened. cbv zeta. apply shaped_openNextProject.
  assert (Hp : ready host project).
  { destruct H as [_ Hr _ _ _ _]. apply Forall_app in Hr.
    destruct Hr as [_ Hr]. rewrite Forall_forall in Hr. now apply Hr. }
  destruct Hp as [size [Ep [Hsize [Herr [Hfonts Hrend]]]]].
  destruct H as [Hf Hr Hm Hfs Hu Ho].
  destruct s as [q l pre mis fs un opd iso op tm st cl res]. fields.
  assert (Hr' : Forall (ready host) (pre ++ settle op project)).
  { apply Forall_app in Hr. destruct Hr as [H1 H2].
    apply Forall_app. split; [assumption | now apply Forall_settle]. }
  pose proof (open_result_classified (page (index project)) (url project)
                (isThumbTransparent project)) as Hcl.
  cbv zeta in Hcl.
  destruct Hcl as [[e [E1 [E2 E3]]]|[[fonts [E1 [E2 E3]]]|[r [E1 [E2 E3]]]]];
    rewrite E2, E3, E1; constructor; fields; try assumption;
    (apply Forall_app; split; [assumption|]); (constructor; [|constructor]);
    unfold settledAs, outcome, deleteIndex;
    cbn [index url isThumbTransparent sizeInKB error fontsToSwap rendered
         Admission.url Admission.isThumbTransparent];
    rewrite Ep, E1, ?Hsize, ?Herr, ?Hfonts, ?Hrend; reflexivity.
Qed.

Lemma shaped_step (s s' : State) :
  Shape s -> step host page s s' -> Shape s'.
Proof.
  intros H Hstep. destruct Hstep.
  - apply shaped_preloadNextURL. unfold withTimers. now apply shaped_counters.
  - now apply shaped_preloadSettled.
  - unfold preloadThen. apply shaped_preloadNextURL, shaped_openNextProject.
    unfold withSettled. now apply shaped_counters.
  - now apply shaped_opened.
  - unfold resolveQueue. now apply shaped_counters.
Qed.

Lemma shaped_reachable (urlsToProcess : list Admission.Reference) (s : State) :
  reachable host page (start urlsToProcess) s -> Shape s.
Proof.
  induction 1 as [|s s' _ IH Hstep].
  - apply shaped_start.
  - exact (shaped_step _ _ IH Hstep).
Qed.

Lemma outcomes_enqueue (i : nat) (urlsToProcess : list Admission.Reference) :
  map outcomeOf (map base (enqueue i urlsToProcess))
  = outcomes host page i urlsToProcess.
Proof.
  revert i. induction urlsToProcess as [|[u h] t IH]; intros i; [reflexivity|].
  cbn [enqueue map outcomes]. now rewrite IH.
Qed.

Lemma settled_outcome (b : Bucket) (l : list Project) :
  Forall (settledAs host page b) l ->
  map outcomeOf (map base l) = map (fun p => (b, deleteIndex p)) l.
Proof.
  induction 1 as [|p t Hp Ht IH]; [reflexivity|].
  cbn [map]. rewrite IH. f_equal. exact Hp.
Qed.

Lemma Permutation_filter {A} (f : A -> bool) (l l' : list A) :
  Permutation l l' -> Permutation (filter f l) (filter f l').
Proof.
  induction 1 as [|x l l' H IH|x y l|l l' l'' H1 IH1 H2 IH2]; cbn [filter].
  - constructor.
  - destruct (f x); [now constructor | exact IH].
  - destruct (f x), (f y); try reflexivity. apply perm_swap.
  - now transitivity (filter f l').
Qed.

Lemma filter_settled (b b' : Bucket) (l : list Project) :
  map snd (filter (fun o => sameBucket (fst o) b)
             (map (fun p => (b', deleteIndex p)) l))
  = if sameBucket b' b then map deleteIndex l else [].
Proof.
  induction l as [|p t IH]; cbn [map filter fst].
  - now destruct (sameBucket b' b).
  - destruct (sameBucket b' b) eqn:E; [cbn [map snd]; now rewrite IH | exact IH].
Qed.

(** X5. Whatever the order in which preloads settle, the four lists a
    queue resolves with are, list by list and up to the order of their
    entries, what opening the entries one after the other gives: an entry
    is reported missing exactly when its preload failed, and otherwise as
    a font swap, unopened or opened after what its opening returned; each
    reported entry carries the fields of that case and no other. *)
Theorem queue_agrees_with_sequential
  (urlsToProcess : list Admission.Reference) (r : Result) :
  resolvesWith host page urlsToProcess r ->
  Permutation (r_openedProjects r) (bucket host page Opened urlsToProcess)
  /\ Permutation (r_fontSwapProjects r)
       (bucket host page FontSwap urlsToProcess)
  /\ Permutation (r_missingProjects r)
       (bucket host page Missing urlsToProcess)
  /\ Permutation (r_unopenedProjects r)
       (bucket host page Unopened urlsToProcess).
Proof.
  intros [s [Hreach Hres]].
  destruct (resolved_state host page _ _ _ Hreach Hres) as [-> Hperm].
  destruct (shaped_reachable _ _ Hreach) as [_ _ Hm Hfs Hu Ho].
  apply (Permutation_map outcomeOf) in Hperm.
  rewrite outcomes_enqueue in Hperm. rewrite !map_app in Hperm.
  rewrite (settled_outcome _ _ Hm), (settled_outcome _ _ Hfs),
    (settled_outcome _ _ Hu), (settled_outcome _ _ Ho) in Hperm.
  assert (Hb : forall b,
             Permutation
               (map snd (filter (fun o => sameBucket (fst o) b)
                  (map (fun p => (Missing, deleteIndex p)) (missingProjects s)
                   ++ map (fun p => (FontSwap, deleteIndex p))
                        (fontSwapProjects s)
                   ++ map (fun p => (Unopened, deleteIndex p))
                        (unopenedProjects s)
                   ++ map (fun p => (Opened, deleteIndex p))
                        (openedProjects s))))
               (bucket host page b urlsToProcess)).
  { intros b. unfold bucket. now apply Permutation_map, Permutation_filter. }
  unfold report.
  cbn [r_openedProjects r_fontSwapProjects r_missingProjects
       r_unopenedProjects].
  repeat split.
  - specialize (Hb Opened). rewrite !filter_app, !map_app, !filter_settled in Hb.
    cbn [sameBucket app] in Hb. exact Hb.
  - specialize (Hb FontSwap).
    rewrite !filter_app, !map_app, !filter_settled in Hb.
    cbn [sameBucket app] in Hb. now rewrite app_nil_r in Hb.
  - specialize (Hb Missing).
    rewrite !filter_app, !map_app, !filter_settled in Hb.
    cbn [sameBucket app] in Hb. now rewrite app_nil_r in Hb.
  - specialize (Hb Unopened).
    rewrite !filter_app, !map_app, !filter_settled in Hb.
    cbn [sameBucket app] in Hb. now rewrite app_nil_r in Hb.
Qed.

End SequentialFacts.


Lemma queue_agrees_with_sequential_witness :
  Permutation
    (ExtractData.r_openedProjects
       (ExtractData.report
          (ExtractData.run Demo.requests Demo.page 40
             (ExtractData.start Demo.fiveReferences))))
    (Sequential.bucket Demo.requests Demo.page Sequential.Opened
       Demo.fiveReferences)
  /\ List.length
       (Sequential.bucket Demo.requests Demo.page Sequential.Opened
          Demo.fiveReferences) = 2.
Proof.
  split; [|reflexivity].
  refine (proj1 (queue_agrees_with_sequential Demo.requests Demo.page
                   Demo.fiveReferences _ _)).
  exists (ExtractData.run Demo.requests Demo.page 40
            (ExtractData.start Demo.fiveReferences)).
  split; [apply run_reachable; constructor|].
  vm_compute. reflexivity.
Defined.

(** ** Preload slots *)

Section PipelineMore.

Import ExtractData.

Variable host : nat -> Requests.
Variable page : nat -> PageReplies.

Ltac fields :=
  cbn [queuedProjects loadingProjects preloadedProjects missingProjects
       fontSwapProjects unopenedProjects openedProjects isOpeningProject
       opening timers settled closing resolved] in *.

(** What a preload chain holds at any time: a timer, a slot of
    [loadingProjects], or a last [.then] that has not run yet. *)
Local Abbreviation chains :=
  (fun s : State => timers s + settled s + List.length (loadingProjects s)).

Lemma indexOfProject_position (l : list Project) (p : Project) (position : nat) :
  indexOfProject l p = Some position -> position < List.length l.
Proof.
  revert position. induction l as [|q t IH]; intros position; cbn; [discriminate|].
  destruct (sameProject q p).
  - intros [= <-]. lia.
  - destruct (indexOfProject t p) as [n|]; cbn; [|discriminate].
    intros [= <-]. specialize (IH n eq_refl). lia.
Qed.

Lemma length_splice1 {A} (position : nat) (l : list A) :
  position < List.length l ->
  S (List.length (splice1 position l)) = List.length l.
Proof.
  intros H. unfold splice1. rewrite length_app, length_firstn, length_skipn. lia.
Qed.

Lemma chains_preloadNextURL (s : State) :
  chains (preloadNextURL s) <= S (chains s)
  /\ (List.length (loadingProjects s) < inParallel ->
      List.length (loadingProjects (preloadNextURL s)) <= inParallel).
Proof.
  unfold preloadNextURL. destruct (queuedProjects s) as [|p rest]; [lia|].
  destruct (Nat.leb inParallel (List.length (loadingProjects s))); [lia|].
  fields. rewrite length_app. cbn [List.length]. lia.
Qed.

Lemma chains_openNextProject (s : State) :
  timers (openNextProject s) = timers s
  /\ settled (openNextProject s) = settled s
  /\ loadingProjects (openNextProject s) = loadingProjects s.
Proof.
  unfold openNextProject. destruct (isOpeningProject s); [tauto|].
  destruct (preloadedProjects s); [|fields; tauto].
  destruct (queuedProjects s); [|tauto].
  destruct (loadingProjects s) eqn:E; fields; rewrite ?E; tauto.
Qed.

Lemma chains_preloadSettled (s : State) (project : Project) :
  chains (preloadSettled host project s) = chains s.
Proof.
  unfold preloadSettled, preloaded, preloadFailed.
  destruct (indexOfProject (loadingProjects s) project) as [position|] eqn:E;
    [|now destruct (fst (preload (host (index project))))].
  apply indexOfProject_position, length_splice1 in E.
  destruct (fst (preload (host (index project)))); unfold awaitLastThen; fields;
    lia.
Qed.

Lemma chains_step (s s' : State) :
  step host page s s' -> chains s <= inParallel -> chains s' <= inParallel.
Proof.
  intros Hstep H. destruct Hstep as [s n E|s p _|s n E|s p _|s _].
  - pose proof (proj1 (chains_preloadNextURL (withTimers n s))) as Hn.
    unfold withTimers in Hn at 2. fields. lia.
  - now rewrite chains_preloadSettled.
  - unfold preloadThen.
    pose proof (proj1 (chains_preloadNextURL
                         (openNextProject (withSettled n s)))) as Hn.
    destruct (chains_openNextProject (withSettled n s)) as [E1 [E2 E3]].
    cbv beta in *. rewrite E1, E2, E3 in Hn.
    cbn [withSettled timers settled loadingProjects] in Hn. lia.
  - unfold opened. cbv zeta.
    match goal with
    | |- context [openNextProject ?t] =>
        destruct (chains_openNextProject t) as [E1 [E2 E3]]
    end.
    rewrite E1, E2, E3. fields. exact H.
  - unfold resolveQueue. fields. exact H.
Qed.

(** X6. However the preloads settle, at most [inParallel] of them are in
    flight: a timer not yet fired, an entry being loaded and a last
    [.then] not yet run never number more than five together. So when
    [preloadNextURL] is about to run (a timer or a last [.then] is
    pending) fewer than five entries are loading, and its test
    [loadingProjects.length >= inParallel] is never what stops it. *)
Theorem preloads_in_flight (urlsToProcess : list Admission.Reference)
  (s : State) :
  reachable host page (start urlsToProcess) s ->
  timers s + settled s + List.length (loadingProjects s) <= inParallel
  /\ List.length (loadingProjects s) <= inParallel
  /\ (0 < timers s + settled s ->
      List.length (loadingProjects s) < inParallel).
Proof.
  intros Hreach.
  assert (H : chains s <= inParallel).
  { induction Hreach as [|s s' _ IH Hstep].
    - unfold start. fields. cbn [List.length]. lia.
    - now apply (chains_step s s'). }
  cbv beta in H. lia.
Qed.

(** The queue of an empty list only counts its timers down. *)
Lemma empty_queue_states (s : State) :
  reachable host page (start []) s -> s = withTimers (timers s) (start []).
Proof.
  induction 1 as [|s s' _ IH Hstep]; [reflexivity|].
  rewrite IH in Hstep.
  inversion Hstep as [s0 n E|s0 p Hin|s0 n E|s0 p Hin|s0 Hc]; subst;
    cbn in *; try discriminate; try contradiction; try lia.
  reflexivity.
Qed.

(** X7. Called with an empty list the queue never resolves: the five
    timers find nothing to preload, [openNextProject] (the only caller of
    [resolveQueue]) is only called after a preload, and so the promise
    returned stays pending and the browser is never closed; once the
    timers have fired nothing is left that could run. *)
Theorem empty_queue_never_resolves (s : State) :
  reachable host page (start []) s ->
  resolved s = None /\ closing s = 0
  /\ (timers s = 0 -> forall s', ~ step host page s s').
Proof.
  intros Hreach. apply empty_queue_states in Hreach.
  rewrite Hreach. cbn. repeat split.
  intros Et s' Hstep. rewrite Et in Hstep.
  inversion Hstep as [s0 n E|s0 p Hin|s0 n E|s0 p Hin|s0 Hc]; subst;
    cbn in *; try discriminate; try contradiction; lia.
Qed.

End PipelineMore.

Lemma preloads_in_flight_witness :
  List.length
    (ExtractData.loadingProjects
       (ExtractData.run Demo.requests Demo.page 5
          (ExtractData.start Demo.tenReferences))) <= ExtractData.inParallel
  /\ List.length
       (ExtractData.loadingProjects
          (ExtractData.run Demo.requests Demo.page 5
             (ExtractData.start Demo.tenReferences))) = 5.
Proof.
  split; [|reflexivity].
  refine (proj1 (proj2 (preloads_in_flight Demo.requests Demo.page
                          Demo.tenReferences _ _))).
  apply run_reachable. constructor.
Defined.

Lemma empty_queue_never_resolves_witness :
  ExtractData.resolved
    (ExtractData.run Demo.requests Demo.page 50 (ExtractData.start [])) = None.
Proof.
  refine (proj1 (empty_queue_never_resolves Demo.requests Demo.page _ _)).
  apply run_reachable. constructor.
Defined.


(** ** Where a thumbnail is written *)

Section ThumbnailFacts.

Import ExtractData Text.

Lemma hasChar_app (c : ascii) (a b : string) :
  hasChar c (a ++ b) = hasChar c a || hasChar c b.
Proof.
  induction a as [|d a IH]; cbn [append hasChar]; [reflexivity|].
  rewrite IH. now rewrite orb_assoc.
Qed.

Lemma hasChar_substring (c : ascii) (s : string) (n m : nat) :
  hasChar c s = false -> hasChar c (substring n m s) = false.
Proof.
  revert n m. induction s as [|d s IH]; intros n m H.
  - now destruct n, m.
  - cbn [hasChar] in H. apply orb_false_iff in H. destruct H as [H1 H2].
    destruct n as [|n]; cbn [substring].
    + destruct m as [|m]; [reflexivity|].
      cbn [hasChar]. now rewrite H1, (IH 0 m H2).
    + now apply IH.
Qed.

Lemma hasChar_lastSegment (acc s : string) :
  hasChar "/" acc = false -> hasChar "/" (JS.lastSegment acc s) = false.
Proof.
  revert acc. induction s as [|d s IH]; intros acc H; cbn [JS.lastSegment].
  - exact H.
  - destruct (Ascii.eqb d "/") eqn:E.
    + now apply IH.
    + apply IH. rewrite hasChar_app, H. cbn [hasChar]. now rewrite E.
Qed.

Lemma hasChar_replace (c : ascii) (s pattern replacement : string) :
  hasChar c s = false -> hasChar c replacement = false ->
  hasChar c (JS.replace s pattern replacement) = false.
Proof.
  intros Hs Hr. unfold JS.replace.
  destruct (String.index 0 pattern s) as [i|]; [|exact Hs].
  rewrite !hasChar_app, Hr, !hasChar_substring; [reflexivity|exact Hs|exact Hs].
Qed.

Ltac returned H :=
  unfold openProjectAndGenerateThumbnail, bind in H;
  destruct (JS.truthy _) in H; cbn [negb] in H; [|discriminate H];
  destruct (getBefunkyBfd _) in H; [discriminate H|];
  destruct (loadingComplete _) in H; [discriminate H|];
  destruct (swappedFonts _) as [|[|? ?]] in H;
    [discriminate H| |discriminate H];
  destruct (projectVO _) in H; [discriminate H|];
  destruct (thumbnailBlob _) as [|blob] in H; [discriminate H|];
  destruct (downloadPath _) as [|[file|]] in H;
    [discriminate H| |discriminate H];
  destruct (JS.truthy file) in H; cbn [negb] in H; [|discriminate H];
  destruct (copyFile _) in H; [discriminate H|];
  destruct (resetApp _) in H; [discriminate H|];
  injection H as H.

(** X8. The thumbnail of a project that was opened is written under a
    name that holds no [/]: the copy lands in [thumbnailFolder] itself,
    whatever directories the project URL names, and the [thumbURL]
    reported is [/thumbnails/] followed by that name. *)
Theorem thumbnail_in_folder (replies : PageReplies) (bfdUrl : string)
  (hint : option bool) (r : Rendered) :
  openProjectAndGenerateThumbnail replies bfdUrl hint = inr (ThumbObject r) ->
  exists name,
    thumbURL r = ("/thumbnails/" ++ name)%string
    /\ hasChar "/" name = false.
Proof.
  intros H. returned H. subst r. cbn [thumbURL].
  eexists. split; [reflexivity|].
  apply hasChar_replace; [now apply hasChar_lastSegment|].
  now destruct (fst blob =? "image/jpeg")%string.
Qed.

(** X9. The name of a thumbnail is made from the last segment of the
    project URL and from the type of the image, and from nothing else:
    two projects with the same file name in different directories, both
    rendered as JPEG or both as PNG, get the same [thumbURL], that is the
    same file of [thumbnailFolder], the later copy replacing the earlier
    one. *)
Theorem thumbnails_share_name (replies replies' : PageReplies)
  (bfdUrl bfdUrl' : string) (hint hint' : option bool) (r r' : Rendered)
  (blob blob' : string * bool) :
  openProjectAndGenerateThumbnail replies bfdUrl hint = inr (ThumbObject r) ->
  openProjectAndGenerateThumbnail replies' bfdUrl' hint'
  = inr (ThumbObject r') ->
  JS.lastSegment "" bfdUrl = JS.lastSegment "" bfdUrl' ->
  thumbnailBlob replies = inr blob ->
  thumbnailBlob replies' = inr blob' ->
  (fst blob =? "image/jpeg")%string = (fst blob' =? "image/jpeg")%string ->
  thumbURL r = thumbURL r'.
Proof.
  intros H H' Hname Hb Hb' Htype.
  unfold openProjectAndGenerateThumbnail, bind in H, H'.
  rewrite Hb in H. rewrite Hb' in H'.
  destruct (JS.truthy bfdUrl); cbn [negb] in H; [|discriminate H].
  destruct (JS.truthy bfdUrl'); cbn [negb] in H'; [|discriminate H'].
  destruct (getBefunkyBfd replies); [discriminate H|].
  destruct (getBefunkyBfd replies'); [discriminate H'|].
  destruct (loadingComplete replies); [discriminate H|].
  destruct (loadingComplete replies'); [discriminate H'|].
  destruct (swappedFonts replies) as [|[|? ?]];
    [discriminate H| |discriminate H].
  destruct (swappedFonts replies') as [|[|? ?]];
    [discriminate H'| |discriminate H'].
  destruct (projectVO replies); [discriminate H|].
  destruct (projectVO replies'); [discriminate H'|].
  destruct (downloadPath replies) as [|[file|]];
    [discriminate H| |discriminate H].
  destruct (downloadPath replies') as [|[file'|]];
    [discriminate H'| |discriminate H'].
  destruct (JS.truthy file); cbn [negb] in H; [|discriminate H].
  destruct (JS.truthy file'); cbn [negb] in H'; [|discriminate H'].
  destruct (copyFile replies); [discriminate H|].
  destruct (copyFile replies'); [discriminate H'|].
  destruct (resetApp replies); [discriminate H|].
  destruct (resetApp replies'); [discriminate H'|].
  injection H as <-. injection H' as <-. cbn [thumbURL].
  now rewrite Hname, Htype.
Qed.

End ThumbnailFacts.


(** ** The handler and what the pipelines return *)

Section EndpointMore.

Import ExtractData Endpoint.

(** The rejection named is the one of a promise of the list, and no
    promise of the list rejects before it. *)
Lemma firstRejection_earliest {A} (when : nat -> nat) (i : nat)
  (l : list (Error + A)) (time : nat) (e : Error) :
  firstRejection when i l = Some (time, e) ->
  (exists k, nth_error l k = Some (inl e) /\ when (i + k) = time)
  /\ (forall k e', nth_error l k = Some (inl e') -> time <= when (i + k)).
Proof.
  revert i time e. induction l as [|[e0|a] t IH]; intros i time e H;
    cbn [firstRejection] in H.
  - discriminate H.
  - destruct (firstRejection when (S i) t) as [[time' e']|] eqn:E.
    + destruct (IH (S i) time' e' E) as [[k [Hk Ht]] Hmin].
      destruct (Nat.ltb_spec time' (when i)) as [Hlt|Hge];
        injection H as <- <-.
      * split.
        -- exists (S k). split; [exact Hk|].
           now replace (i + S k) with (S i + k) by lia.
        -- intros [|j] e1 Hj.
           ++ rewrite Nat.add_0_r. lia.
           ++ replace (i + S j) with (S i + j) by lia. now apply (Hmin j e1).
      * split.
        -- exists 0. split; [reflexivity | now rewrite Nat.add_0_r].
        -- intros [|j] e1 Hj.
           ++ rewrite Nat.add_0_r. lia.
           ++ replace (i + S j) with (S i + j) by lia.
              specialize (Hmin j e1 Hj). lia.
    + injection H as <- <-. split.
      * exists 0. split; [reflexivity | now rewrite Nat.add_0_r].
      * intros [|j] e1 Hj.
        -- rewrite Nat.add_0_r. lia.
        -- exfalso. cbn [nth_error] in Hj. clear IH.
           assert (Hall : t = map inr (fulfilled t))
             by exact (firstRejection_none _ _ _ E).
           rewrite Hall in Hj. rewrite nth_error_map in Hj.
           destruct (nth_error (fulfilled t) j); discriminate Hj.
  - destruct (IH (S i) time e H) as [[k [Hk Ht]] Hmin]. split.
    + exists (S k). split; [exact Hk|].
      now replace (i + S k) with (S i + k) by lia.
    + intros [|j] e1 Hj; [discriminate Hj|].
      replace (i + S j) with (S i + j) by lia. now apply (Hmin j e1).
Qed.

Lemma promiseAll_rejected {A} (when : nat -> nat) (l : list (Error + A))
  (e : Error) :
  promiseAll when l = inl e -> In (inl e) l.
Proof.
  unfold promiseAll.
  destruct (firstRejection when 0 l) as [[time e']|] eqn:E; [|discriminate].
  intros [= ->].
  destruct (proj1 (firstRejection_earliest _ _ _ _ _ E)) as [k [Hk _]].
  eapply nth_error_In. exact Hk.
Qed.

(** Each result of a completed request is what the queue of its shard
    resolved with. *)
Lemma results_resolved (w : World)
  (shards : list (Coordinator.InstanceID * list Admission.Reference))
  (allResults : list Result) :
  everyPipelineCompletes w ->
  map (fun kv => extractData w (fst kv) (snd kv)) shards = map inr allResults ->
  Forall (fun r => exists host page kv,
              In kv shards /\ resolvesWith host page (snd kv) r) allResults.
Proof.
  intros Hall. revert allResults.
  induction shards as [|[id shard] t IH]; intros [|r rs] H; cbn [map] in H;
    try discriminate H; [constructor|].
  injection H as Hr Hrest. constructor.
  - destruct (Hall id shard r Hr) as [host [page Hres]].
    exists host, page, (id, shard). split; [now left | exact Hres].
  - eapply Forall_impl; [|exact (IH rs Hrest)].
    intros r' [host [page [kv [Hin Hres]]]].
    exists host, page, kv. split; [now right | exact Hres].
Qed.

Lemma resolved_fontSwap (host : nat -> Requests) (page : nat -> PageReplies)
  (urlsToProcess : list Admission.Reference) (r : Result) :
  resolvesWith host page urlsToProcess r ->
  Forall (fun e => exists fonts, e_fontsToSwap e = Some fonts)
         (r_fontSwapProjects r).
Proof.
  intros [s [Hreach Hres]]. apply invariant_reachable in Hreach.
  destruct Hreach as [_ _ _ Hr _ _ Hfs _ _].
  rewrite (Hr r Hres). unfold report. cbn [r_fontSwapProjects].
  apply Forall_map. eapply Forall_impl; [|exact Hfs].
  intros p [fonts [_ E]]. now exists fonts.
Qed.

(** The fonts of an entry as the [forEach] of the handler reads them. *)
Local Abbreviation fontsOf :=
  (fun e : Entry => match e_fontsToSwap e with
                    | Some fonts => fonts
                    | None => []
                    end).

(** What [appendIfAny] adds to a file. *)
Local Abbreviation written :=
  (fun lines : list string =>
     match lines with
     | [] => EmptyString
     | _ :: _ => (String.concat newline lines ++ newline)%string
     end).

Lemma collectFonts_flat_map (fonts out : list string) (l : list Entry) :
  collectFonts fonts l = inr out -> out = fonts ++ flat_map fontsOf l.
Proof.
  revert fonts. induction l as [|e t IH]; intros fonts; cbn [collectFonts flat_map].
  - intros [= <-]. now rewrite app_nil_r.
  - destruct (e_fontsToSwap e) as [f|]; [|discriminate].
    intros H. apply IH in H. now rewrite <- app_assoc in H.
Qed.

Lemma collectFonts_returns (fonts : list string) (l : list Entry) :
  Forall (fun e => exists f, e_fontsToSwap e = Some f) l ->
  exists out, collectFonts fonts l = inr out.
Proof.
  intros H. revert fonts. induction H as [|e t [f E] Ht IH]; intros fonts;
    cbn [collectFonts]; [eauto|].
  rewrite E. apply IH.
Qed.

Lemma appendIfAny_written (w : World) (log : Log) (lines : list string)
  (d d' : Disk) :
  appendIfAny w log lines d = inr d' ->
  d' = match log with
       | MissingFontsCsv =>
           mkDisk (missingFonts d ++ written lines)%string
                  (transparencyMismatches d)
       | TransparencyMismatchesCsv =>
           mkDisk (missingFonts d)
                  (transparencyMismatches d ++ written lines)%string
       end.
Proof.
  assert (Hnil : forall s : string, (s ++ "")%string = s).
  { induction s as [|c s IH]; cbn; [reflexivity | now rewrite IH]. }
  unfold appendIfAny, appendFileSync. destruct lines as [|x t].
  - intros [= <-]. destruct log, d; cbn; now rewrite Hnil.
  - destruct (appendFails w log); [discriminate|]. intros [= <-].
    now destruct log.
Qed.

Lemma appendIfAny_fails (w : World) (log : Log) (lines : list string)
  (d : Disk) (e : Error) :
  appendIfAny w log lines d = inl e -> appendFails w log = Some e.
Proof.
  unfold appendIfAny, appendFileSync. destruct lines; [discriminate|].
  destruct (appendFails w log); [|discriminate]. now intros [= ->].
Qed.

Lemma merged_fontSwap (w : World) (urls : list string)
  (allResults : list Result) :
  everyPipelineCompletes w ->
  promiseAll (settledAt w)
    (map (fun kv => extractData w (fst kv) (snd kv))
       (Coordinator.batches (batchLetters w) (instanceLetters w)
          (Admission.accepted urls))) = inr allResults ->
  Forall (fun e => exists f, e_fontsToSwap e = Some f)
    (JS.concatAll (map r_fontSwapProjects allResults)).
Proof.
  intros Hall Hp. apply promiseAll_resolved in Hp.
  pose proof (results_resolved _ _ _ Hall Hp) as Hres.
  unfold JS.concatAll. apply Forall_concat, Forall_map.
  eapply Forall_impl; [|exact Hres].
  intros r [host [page [kv [_ H]]]]. exact (resolved_fontSwap _ _ _ _ H).
Qed.

(** X10. When every pipeline that returns ran its queue to the end, an
    exception leaves the handler only as the rejection of a pipeline or
    as a failed append to one of the two files: the spread of
    [fontsToSwap] never throws, because every entry a queue reports in
    [fontSwapProjects] has its [fontsToSwap]. *)
Theorem exceptions_come_from_outside (w : World) (srv srv' : Server)
  (urls : list string) (e : Error) :
  everyPipelineCompletes w ->
  handler w srv urls = (srv', Thrown e) ->
  (exists kv,
      In kv (Coordinator.batches (batchLetters w) (instanceLetters w)
               (Admission.accepted urls))
      /\ extractData w (fst kv) (snd kv) = inl e)
  \/ appendFails w MissingFontsCsv = Some e
  \/ appendFails w TransparencyMismatchesCsv = Some e.
Proof.
  intros Hall. unfold handler.
  destruct (isRunning srv); [discriminate|].
  destruct (Nat.ltb limit (List.length urls)); [discriminate|].
  destruct (promiseAll _ _) as [e'|allResults] eqn:Hp.
  - intros [= _ ->]. left. apply promiseAll_rejected in Hp.
    apply in_map_iff in Hp. destruct Hp as [kv [E Hin]]. now exists kv.
  - cbn [combine fontSwapProjects openedProjects].
    destruct (collectFonts_returns [] _ (merged_fontSwap _ _ _ Hall Hp))
      as [fonts Hf].
    rewrite Hf.
    destruct (appendIfAny w MissingFontsCsv fonts (disk srv)) as [e'|disk1] eqn:E1.
    + intros [= _ ->]. right. left. exact (appendIfAny_fails _ _ _ _ _ E1).
    + destruct (appendIfAny w TransparencyMismatchesCsv _ disk1)
        as [e'|disk2] eqn:E2; [|discriminate].
      intros [= _ ->]. right. right. exact (appendIfAny_fails _ _ _ _ _ E2).
Qed.

Lemma collectMismatches_reported (l : list Entry) (line : string) :
  In line (collectMismatches l) ->
  exists entry r,
    In entry (map deleteMismatch l)
    /\ e_rendered entry = Some r /\ thumbURL r = line.
Proof.
  induction l as [|entry t IH]; intros Hin; [destruct Hin|].
  cbn [collectMismatches] in Hin.
  assert (Hstep : In line (collectMismatches t) ->
                  exists entry0 r, In entry0 (map deleteMismatch (entry :: t))
                    /\ e_rendered entry0 = Some r /\ thumbURL r = line).
  { intros H. destruct (IH H) as [e0 [r [H1 H2]]]. exists e0, r.
    split; [cbn [map]; right; exact H1 | exact H2]. }
  destruct (e_rendered entry) as [r|] eqn:Er; [|now apply Hstep].
  destruct (transparencyMismatch r) as [[|]|]; try now apply Hstep.
  destruct Hin as [<-|Hin]; [|now apply Hstep].
  exists (deleteMismatch entry). eexists. split; [now left|].
  unfold deleteMismatch. rewrite Er. cbn [e_rendered thumbURL]. split; reflexivity.
Qed.

(** X11. The fonts a 200 reply reports are the lines added to
    [missing-fonts.csv]: the file grows by the [fontsToSwap] of the
    font-swap entries of the reply, in their order, one font on each
    line, and by nothing when there is none; the other file grows by
    [thumbURL]s of opened entries of the reply only. *)
Theorem fonts_logged_as_reported (w : World) (srv srv' : Server)
  (urls : list string) (body : Report) :
  handler w srv urls = (srv', Sent (Status200 body)) ->
  missingFonts (disk srv')
  = (missingFonts (disk srv)
     ++ written (flat_map fontsOf (fontSwapProjects body)))%string
  /\ exists lines,
       transparencyMismatches (disk srv')
       = (transparencyMismatches (disk srv) ++ written lines)%string
       /\ forall line, In line lines ->
            exists entry r,
              In entry (openedProjects body)
              /\ e_rendered entry = Some r /\ thumbURL r = line.
Proof.
  unfold handler.
  destruct (isRunning srv); [discriminate|].
  destruct (Nat.ltb limit (List.length urls)); [discriminate|].
  destruct (promiseAll _ _) as [e'|allResults]; [discriminate|].
  destruct (collectFonts _ _) as [e'|fonts] eqn:Hf; [discriminate|].
  destruct (appendIfAny w MissingFontsCsv fonts (disk srv)) as [e'|disk1] eqn:E1;
    [discriminate|].
  destruct (appendIfAny w TransparencyMismatchesCsv _ disk1)
    as [e'|disk2] eqn:E2; [discriminate|].
  intros [= <- <-]. cbn [disk fontSwapProjects openedProjects].
  apply collectFonts_flat_map in Hf. cbn [app] in Hf. subst fonts.
  apply appendIfAny_written in E1, E2. subst disk2 disk1.
  cbn [missingFonts transparencyMismatches]. split; [reflexivity|].
  eexists. split; [reflexivity|].
  intros line. apply collectMismatches_reported.
Qed.

End EndpointMore.


(** ** Requests of design payloads, and requests with nothing usable *)

Section PayloadFacts.

Import ExtractData Endpoint.

(** The flag of a thumbnail is the comparison of the hint with what the
    page says of the project. *)
Lemma open_result_mismatch (replies : PageReplies) (bfdUrl : string)
  (hint : option bool) (r : Rendered) :
  openProjectAndGenerateThumbnail replies bfdUrl hint = inr (ThumbObject r) ->
  exists blob,
    thumbnailBlob replies = inr blob
    /\ transparencyMismatch r = Some (mismatch hint (snd blob)).
Proof.
  unfold openProjectAndGenerateThumbnail, bind.
  destruct (JS.truthy bfdUrl); cbn [negb]; [|discriminate].
  destruct (getBefunkyBfd replies); [discriminate|].
  destruct (loadingComplete replies); [discriminate|].
  destruct (swappedFonts replies) as [|[|f fonts]]; [discriminate| |discriminate].
  destruct (projectVO replies); [discriminate|].
  destruct (thumbnailBlob replies) as [|blob]; [discriminate|].
  destruct (downloadPath replies) as [|[file|]]; [discriminate| |discriminate].
  destruct (JS.truthy file); cbn [negb]; [|discriminate].
  destruct (copyFile replies); [discriminate|].
  destruct (resetApp replies); [discriminate|].
  intros [= <-]. exists blob. split; reflexivity.
Qed.

Lemma resolved_opened_hints (host : nat -> Requests)
  (page : nat -> PageReplies) (urlsToProcess : list Admission.Reference)
  (r : Result) :
  resolvesWith host page urlsToProcess r ->
  Forall (fun e => exists rd b,
              e_rendered e = Some rd
              /\ transparencyMismatch rd
                 = Some (mismatch (e_isThumbTransparent e) b)
              /\ In (referenceOf e) urlsToProcess)
         (r_openedProjects r).
Proof.
  intros Hres. pose proof (resolved_partition _ _ _ _ Hres) as Hperm.
  destruct Hres as [s [Hreach Hres]]. apply invariant_reachable in Hreach.
  destruct Hreach as [_ _ _ Hr _ _ _ _ Ho].
  rewrite (Hr r Hres) in *. unfold report in *. cbn [r_openedProjects] in *.
  rewrite Forall_forall. intros e Hin.
  assert (Href : In (referenceOf e) urlsToProcess).
  { eapply Permutation_in; [exact Hperm|].
    rewrite map_app. apply in_or_app. left. now apply in_map. }
  apply in_map_iff in Hin. destruct Hin as [p [<- Hin]].
  rewrite Forall_forall in Ho. destruct (Ho p Hin) as [rd [Hopen Hrend]].
  destruct (open_result_mismatch _ _ _ _ Hopen) as [blob [_ Hm]].
  exists rd, (snd blob). repeat split; assumption.
Qed.

Lemma collectMismatches_none (l : list Entry) :
  Forall (fun e => exists rd, e_rendered e = Some rd
                              /\ transparencyMismatch rd = Some false) l ->
  collectMismatches l = [].
Proof.
  induction 1 as [|e t [rd [E1 E2]] Ht IH]; cbn [collectMismatches];
    [reflexivity|].
  now rewrite E1, E2.
Qed.

Lemma accepted_payloads (urls : list string) (r : Admission.Reference) :
  (forall u, In u urls -> JS.endsWith u ".bfd" = true) ->
  In r (Admission.accepted urls) -> Admission.isThumbTransparent r = None.
Proof.
  intros Hall Hin. unfold Admission.accepted in Hin.
  rewrite filterBoolean_In, in_map_iff in Hin. destruct Hin as [u [E Hin]].
  rewrite removeDuplicates_keepFirst, keepFirst_In in Hin.
  destruct Hin as [Hin _].
  rewrite (convert_design_payload u (Hall u Hin)) in E. now injection E as <-.
Qed.

Lemma batches_concat (batch : string) (letters : nat -> string)
  (urls : list Admission.Reference) :
  JS.concatAll (map snd (Coordinator.batches batch letters urls)) = urls.
Proof.
  unfold Coordinator.batches. apply divide_concat.
  unfold Admission.maxChromeInstances. lia.
Qed.

(** X12. A request whose raw entries all name design payloads (they end
    in [.bfd], so none carries a transparency hint) adds nothing to
    [transparency-mismatches.csv], whatever the pages answer: without a
    hint [args.isThumbTransparent === !isProjectTransparent] is false for
    a transparent and for an opaque project alike. *)
Theorem payloads_leave_mismatch_log (w : World) (srv srv' : Server)
  (urls : list string) (out : Outcome) :
  everyPipelineCompletes w ->
  (forall u, In u urls -> JS.endsWith u ".bfd" = true) ->
  handler w srv urls = (srv', out) ->
  transparencyMismatches (disk srv') = transparencyMismatches (disk srv).
Proof.
  intros Hall Hpay. unfold handler.
  destruct (isRunning srv); [now intros [= <- _]|].
  destruct (Nat.ltb limit (List.length urls)); [now intros [= <- _]|].
  destruct (promiseAll _ _) as [e'|allResults] eqn:Hp; [now intros [= <- _]|].
  destruct (collectFonts _ _) as [e'|fonts]; [now intros [= <- _]|].
  destruct (appendIfAny w MissingFontsCsv fonts (disk srv)) as [e'|disk1] eqn:E1;
    [now intros [= <- _]|].
  apply appendIfAny_written in E1.
  assert (Hnone : collectMismatches
                    (openedProjects
                       (combine w (List.length (Admission.accepted urls))
                          allResults)) = []).
  { apply collectMismatches_none. cbn [combine openedProjects].
    apply promiseAll_resolved in Hp.
    pose proof (results_resolved _ _ _ Hall Hp) as Hres.
    unfold JS.concatAll. apply Forall_concat, Forall_map.
    eapply Forall_impl; [|exact Hres].
    intros r [host [page [kv [Hkv H]]]].
    eapply Forall_impl; [|exact (resolved_opened_hints _ _ _ _ H)].
    intros e [rd [b [Hrd [Hm Href]]]]. exists rd. split; [exact Hrd|].
    assert (Hacc : In (referenceOf e) (Admission.accepted urls)).
    { rewrite <- (batches_concat (batchLetters w) (instanceLetters w)).
      unfold JS.concatAll. apply in_concat. exists (snd kv).
      split; [now apply in_map | exact Href]. }
    apply (accepted_payloads _ _ Hpay) in Hacc.
    cbn [referenceOf Admission.isThumbTransparent] in Hacc.
    now rewrite Hacc in Hm. }
  rewrite Hnone. cbn [appendIfAny].
  intros [= <- _]. subst disk1. reflexivity.
Qed.

(** X13. A request none of whose entries is usable (no entry ends in
    [.bfd], [.bfd_thumb.jpg] or [.bfd_thumb.png]) starts no pipeline: it
    is answered at once with status 200 and four empty lists, the files
    are left as they are and [isRunning] is back to [false], whether a
    browser could have been launched or not. *)
Theorem nothing_usable_answers_empty (w : World) (srv : Server)
  (urls : list string) :
  isRunning srv = false ->
  List.length urls <= limit ->
  (forall u, In u urls -> Admission.convert u = None) ->
  handler w srv urls
  = (mkServer false (disk srv),
     Sent (Status200
             (mkReport (mark (timedOut w) (resultText w 0 0 0)) [] [] [] []))).
Proof.
  intros Hrun Hlen Hnone.
  assert (Hacc : Admission.accepted urls = []).
  { destruct (Admission.accepted urls) as [|r t] eqn:E; [reflexivity|].
    assert (Hin : In r (Admission.accepted urls)) by (rewrite E; now left).
    unfold Admission.accepted in Hin.
    rewrite filterBoolean_In, in_map_iff in Hin. destruct Hin as [u [Eu Hin]].
    rewrite removeDuplicates_keepFirst, keepFirst_In in Hin.
    destruct Hin as [Hin _]. rewrite (Hnone u Hin) in Eu. discriminate Eu. }
  unfold handler. rewrite Hrun, Hacc.
  destruct (Nat.ltb_spec limit (List.length urls)); [lia|].
  destruct srv as [running d]. reflexivity.
Qed.

End PayloadFacts.


Lemma thumbnail_in_folder_witness :
  exists name,
    ("/thumbnails/e.bfd_thumb_v1.jpg" = "/thumbnails/" ++ name)%string
    /\ Text.hasChar "/" name = false.
Proof.
  refine (thumbnail_in_folder (Demo.page 5) "dir/e.bfd" (Some false)
            (ExtractData.mkRendered "/thumbnails/e.bfd_thumb_v1.jpg" 10 20
               "hello" "designer" 3 "" (Some false)) _).
  reflexivity.
Defined.

Lemma thumbnails_share_name_witness :
  ExtractData.thumbURL
    (ExtractData.mkRendered "/thumbnails/e.bfd_thumb_v1.jpg" 10 20
       "hello" "designer" 3 "" (Some false))
  = ExtractData.thumbURL
      (ExtractData.mkRendered "/thumbnails/e.bfd_thumb_v1.jpg" 10 20
         "hello" "designer" 3 "" (Some true)).
Proof.
  refine (thumbnails_share_name (Demo.page 5) (Demo.page 2)
            "dir/e.bfd" "other/e.bfd" (Some false) (Some true) _ _
            ("image/jpeg", false) ("image/jpeg", false) _ _ _ _ _ _);
    reflexivity.
Defined.

Lemma exceptions_come_from_outside_witness :
  (exists kv,
      In kv (Coordinator.batches "abc" (fun _ => "xyz")
               (Admission.accepted Demo.fourUrls))
      /\ Demo.extract (fst kv) (snd kv) = inl "ENOSPC")
  \/ Endpoint.appendFails Demo.diskFull Endpoint.MissingFontsCsv
     = Some "ENOSPC"
  \/ Endpoint.appendFails Demo.diskFull Endpoint.TransparencyMismatchesCsv
     = Some "ENOSPC".
Proof.
  refine (exceptions_come_from_outside Demo.diskFull Demo.idle
            (Endpoint.mkServer true (Endpoint.mkDisk "" "")) Demo.fourUrls
            "ENOSPC" _ _).
  - apply demo_completes. reflexivity.
  - vm_compute. reflexivity.
Defined.

Lemma fonts_logged_as_reported_witness :
  Endpoint.missingFonts
    (Endpoint.disk (fst (Endpoint.handler Demo.world Demo.idle Demo.fourUrls)))
  = (String.concat Endpoint.newline ["Arial"; "Arial"] ++ Endpoint.newline)%string.
Proof.
  refine (proj1 (fonts_logged_as_reported Demo.world Demo.idle _ Demo.fourUrls
                   (match snd (Endpoint.handler Demo.world Demo.idle
                                 Demo.fourUrls) with
                    | Endpoint.Sent (Endpoint.Status200 body) => body
                    | _ => Endpoint.mkReport "" [] [] [] []
                    end) _)).
  vm_compute. reflexivity.
Defined.

Lemma payloads_leave_mismatch_log_witness :
  Endpoint.transparencyMismatches
    (Endpoint.disk
       (fst (Endpoint.handler Demo.world Demo.idle
               ["a.bfd"; "b.bfd"; "c.bfd"; "d.bfd"])))
  = Endpoint.transparencyMismatches (Endpoint.disk Demo.idle)
  /\ List.length
       (Endpoint.openedProjects
          (match snd (Endpoint.handler Demo.world Demo.idle
                        ["a.bfd"; "b.bfd"; "c.bfd"; "d.bfd"]) with
           | Endpoint.Sent (Endpoint.Status200 body) => body
           | _ => Endpoint.mkReport "" [] [] [] []
           end)) = 2.
Proof.
  split; [|reflexivity].
  refine (payloads_leave_mismatch_log Demo.world Demo.idle _
            ["a.bfd"; "b.bfd"; "c.bfd"; "d.bfd"]
            (snd (Endpoint.handler Demo.world Demo.idle
                    ["a.bfd"; "b.bfd"; "c.bfd"; "d.bfd"])) _ _ _).
  - apply demo_completes. reflexivity.
  - intros u [<-|[<-|[<-|[<-|[]]]]]; reflexivity.
  - apply surjective_pairing.
Defined.

Lemma nothing_usable_answers_empty_witness :
  Endpoint.handler Demo.noBrowser Demo.idle ["notes.txt"; "b.bfd_thumb.gif"]
  = (Demo.idle,
     Endpoint.Sent
       (Endpoint.Status200
          (Endpoint.mkReport
             (Endpoint.resultText Demo.noBrowser 0 0 0) [] [] [] []))).
Proof.
  refine (nothing_usable_answers_empty Demo.noBrowser Demo.idle
            ["notes.txt"; "b.bfd_thumb.gif"] _ _ _).
  - reflexivity.
  - vm_compute. lia.
  - intros u [<-|[<-|[]]]; reflexivity.
Defined.


(** ** The counter of [endpoints/extract.js] *)

Section SingleInstanceFacts.

Import ExtractData SingleInstance.

Variable w : World.
Variable d : Endpoint.Disk.

(** What one request adds to [armed]. *)
Local Abbreviation arm := (fun p : Pending => if timeout p then 1 else 0).

Lemma armed_cons (p : Pending) (l : list Pending) :
  armed (p :: l) = arm p + armed l.
Proof. unfold armed. cbn [List.filter]. now destruct (timeout p). Qed.

Lemma armed_app (l : list Pending) (p : Pending) :
  armed (l ++ [p]) = armed l + arm p.
Proof.
  induction l as [|q t IH]; cbn [app]; rewrite !armed_cons; [cbn; lia|].
  rewrite IH. lia.
Qed.

Lemma armed_update (i : nat) (p p' : Pending) (l : list Pending) :
  nth_error l i = Some p ->
  armed (update i p' l) + arm p = armed l + arm p'.
Proof.
  revert i. induction l as [|q t IH]; intros [|i] H; cbn in H; try discriminate H.
  - injection H as ->. cbn [update]. rewrite !armed_cons. lia.
  - cbn [update]. rewrite !armed_cons. specialize (IH i H). lia.
Qed.

Lemma armed_find (l : list Pending) :
  0 < armed l -> exists i p, nth_error l i = Some p /\ timeout p = true.
Proof.
  induction l as [|q t IH]; [cbn; lia|].
  rewrite armed_cons. destruct (timeout q) eqn:E.
  - intros _. exists 0, q. split; [reflexivity | exact E].
  - intros H. destruct (IH H) as [i [p [Hn Ht]]]. exists (S i), p.
    split; [exact Hn | exact Ht].
Qed.

Lemma Forall_update {A} (P : A -> Prop) (i : nat) (x : A) (l : list A) :
  Forall P l -> P x -> Forall P (update i x l).
Proof.
  intros H Hx. revert i. induction H as [|y t Hy Ht IH]; intros [|i];
    cbn [update]; constructor; auto.
Qed.

(** A request is in one of three states: its timer is armed and nothing
    was sent; its timer fired and the 503 was sent; or its pipeline
    resolved in time and the handler ran to its end. *)
Local Abbreviation well :=
  (fun p : Pending =>
     (timeout p = true -> hasTimedOut p = false /\ sent p = [])
     /\ (hasTimedOut p = true -> sent p = [Status503 "Timed out"])
     /\ (awaiting p = true -> hasTimedOut p = false -> timeout p = true)
     /\ List.length (sent p) <= 1).

(** The decrement that an uncaught exception skipped. *)
Local Abbreviation skipped :=
  (fun srv : Server =>
     match uncaught srv with Some _ => 1%Z | None => 0%Z end).

Local Abbreviation counted :=
  (fun srv : Server =>
     activeChromeInstances srv
     = (Z.of_nat (armed (pending srv)) + skipped srv)%Z
     /\ (activeChromeInstances srv <= maxChromeInstances)%Z
     /\ Forall well (pending srv)).

Ltac settle_request En p' :=
  let Ha := fresh "Ha" in
  pose proof (armed_update _ _ p' _ En) as Ha;
  cbn [timeout] in Ha.

(** The counter, turn by turn. *)
Lemma counted_turn (srv srv' : Server) (ev : Event) :
  turn w srv ev = Some srv' -> counted srv -> counted srv'.
Proof.
  intros Hturn [Hc [Hmax Hp]]. unfold turn in Hturn.
  destruct (uncaught srv) as [|] eqn:Eu; [discriminate Hturn|].
  destruct ev as [raw|i|i result|i e].
  - injection Hturn as <-. unfold receive.
    destruct (Z.leb_spec maxChromeInstances (activeChromeInstances srv));
      [cbn [fst]; rewrite Eu; now repeat split|].
    destruct (Nat.ltb maxBatchSize (List.length raw));
      [cbn [fst]; rewrite Eu; now repeat split|].
    cbn [fst activeChromeInstances pending uncaught]. rewrite Eu.
    split; [|split].
    + rewrite armed_app. cbn [timeout]. lia.
    + lia.
    + apply Forall_app. split; [exact Hp|]. constructor; [|constructor].
      cbn [timeout hasTimedOut sent awaiting List.length].
      repeat split; try discriminate; lia.
  - destruct (nth_error (pending srv) i) as [p|] eqn:En; [|discriminate Hturn].
    destruct (timeout p) eqn:Et; [|discriminate Hturn].
    injection Hturn as <-.
    assert (Hw : well p).
    { rewrite Forall_forall in Hp. apply (Hp p). eapply nth_error_In. exact En. }
    destruct Hw as [H1 _]. destruct (H1 Et) as [Hh Hs].
    unfold timedOut. rewrite Hs. cbn [app].
    settle_request En (mkPending (urls p) true false (awaiting p)
                         [Status503 "Timed out"] (thrown p)).
    rewrite Et in Ha.
    destruct (exit w i) as [e|] eqn:Ee;
      cbn [activeChromeInstances pending uncaught]; rewrite ?Eu;
      (split; [lia|split; [lia|]]);
      (apply Forall_update; [exact Hp|]);
      cbn [timeout hasTimedOut sent awaiting List.length];
      repeat split; try discriminate; lia.
  - destruct (nth_error (pending srv) i) as [p|] eqn:En; [|discriminate Hturn].
    destruct (awaiting p) eqn:Ea; [|discriminate Hturn].
    injection Hturn as <-. unfold resolved.
    assert (Hw : well p).
    { rewrite Forall_forall in Hp. apply (Hp p). eapply nth_error_In. exact En. }
    destruct Hw as [H1 [H2 [H3 H4]]].
    destruct (hasTimedOut p) eqn:Eh.
    + cbn [activeChromeInstances pending uncaught]. rewrite Eu.
      settle_request En (mkPending (urls p) true (timeout p) false (sent p)
                           (thrown p)).
      split; [lia|split; [lia|]].
      apply Forall_update; [exact Hp|].
      cbn [timeout hasTimedOut sent awaiting].
      split; [intros T; destruct (H1 T) as [F _]; discriminate F|].
      split; [exact H2|]. split; [discriminate | exact H4].
    + specialize (H3 Ea eq_refl). destruct (H1 H3) as [_ Hs].
      destruct (logAndReply w result (disk srv)) as [disk' [e|reply]];
        cbn [activeChromeInstances pending uncaught]; rewrite Eu.
      * settle_request En (mkPending (urls p) false false false (sent p) (Some e)).
        rewrite H3 in Ha. split; [lia|split; [lia|]].
        apply Forall_update; [exact Hp|].
        cbn [timeout hasTimedOut sent awaiting]. rewrite Hs.
        repeat split; try discriminate; cbn; lia.
      * settle_request En (mkPending (urls p) false false false
                             (sent p ++ [reply]) (thrown p)).
        rewrite H3 in Ha. split; [lia|split; [lia|]].
        apply Forall_update; [exact Hp|].
        cbn [timeout hasTimedOut sent awaiting]. rewrite Hs.
        repeat split; try discriminate; cbn; lia.
  - destruct (nth_error (pending srv) i) as [p|] eqn:En; [|discriminate Hturn].
    destruct (awaiting p) eqn:Ea; [|discriminate Hturn].
    injection Hturn as <-. unfold rejected.
    assert (Hw : well p).
    { rewrite Forall_forall in Hp. apply (Hp p). eapply nth_error_In. exact En. }
    destruct Hw as [H1 [H2 [H3 H4]]].
    cbn [activeChromeInstances pending uncaught]. rewrite Eu.
    settle_request En (mkPending (urls p) (hasTimedOut p) (timeout p) false
                         (sent p) (Some e)).
    split; [lia|split; [lia|]].
    apply Forall_update; [exact Hp|].
    cbn [timeout hasTimedOut sent awaiting].
    split; [exact H1|]. split; [exact H2|]. split; [discriminate | exact H4].
Qed.

Lemma counted_reachable (srv : Server) : reachable w d srv -> counted srv.
Proof.
  induction 1 as [|srv ev srv' _ IH Hturn].
  - split; [reflexivity|]. split; [|constructor].
    unfold maxChromeInstances. cbn. lia.
  - exact (counted_turn _ _ _ Hturn IH).
Qed.

Lemma turns_reachable (evs : list Event) (srv srv' : Server) :
  reachable w d srv -> turns w srv evs = Some srv' -> reachable w d srv'.
Proof.
  revert srv. induction evs as [|ev rest IH]; intros srv Hreach Hturns;
    cbn [turns] in Hturns.
  - now injection Hturns as <-.
  - destruct (turn w srv ev) as [srv1|] eqn:E; [|discriminate Hturns].
    apply (IH srv1); [|exact Hturns].
    eapply reach_turn; [exact Hreach | exact E].
Qed.

(** X14. While the process runs, [activeChromeInstances] is the number
    of requests whose timer is armed: a request holds its slot from its
    admission until its pipeline resolves in time or its timer fires,
    and a request whose pipeline was rejected holds it until its timeout.
    The counter stays between 0 and 3 and is back to 0 when no timer is
    armed. The only decrement ever skipped is the one behind a
    [forceTerminate.exit()] that throws, and that exception ends the
    process. *)
Theorem counter_counts_timers (srv : Server) :
  reachable w d srv ->
  activeChromeInstances srv
  = (Z.of_nat (armed (pending srv))
     + match uncaught srv with Some _ => 1 | None => 0 end)%Z
  /\ (0 <= activeChromeInstances srv <= maxChromeInstances)%Z
  /\ (uncaught srv = None ->
      Forall (fun p => timeout p = false) (pending srv) ->
      activeChromeInstances srv = 0%Z).
Proof.
  intros H. destruct (counted_reachable _ H) as [Hc [Hmax _]].
  split; [exact Hc|]. split; [destruct (uncaught srv); lia|].
  intros Eu Hoff. rewrite Hc, Eu.
  assert (E : armed (pending srv) = 0).
  { clear Hc. induction Hoff as [|p t Hp Ht IH]; [reflexivity|].
    rewrite armed_cons, Hp, IH. reflexivity. }
  now rewrite E.
Qed.

(** X15. The handler answers each request it started at most once: while
    the timer is armed nothing was sent; a request that timed out got the
    503 [Timed out] and nothing else, even when its pipeline resolves
    afterwards; and a request that is still waiting for its pipeline
    without having timed out has its timer armed. *)
Theorem one_reply_for_each_request (srv : Server) :
  reachable w d srv ->
  Forall (fun p =>
            List.length (sent p) <= 1
            /\ (timeout p = true -> sent p = [])
            /\ (hasTimedOut p = true -> sent p = [Status503 "Timed out"])
            /\ (awaiting p = true -> hasTimedOut p = false ->
                timeout p = true))
         (pending srv).
Proof.
  intros H. destruct (counted_reachable _ H) as [_ [_ Hp]].
  eapply Forall_impl; [|exact Hp].
  intros p [H1 [H2 [H3 H4]]]. repeat split; auto.
  intros Et. now destruct (H1 Et).
Qed.

Lemma timedOut_update (i : nat) (p p' : Pending) (l : list Pending) :
  nth_error l i = Some p ->
  List.length (List.filter hasTimedOut (update i p' l))
  + (if hasTimedOut p then 1 else 0)
  = List.length (List.filter hasTimedOut l)
    + (if hasTimedOut p' then 1 else 0).
Proof.
  revert i. induction l as [|q t IH]; intros [|i] H; cbn in H; try discriminate H.
  - injection H as ->. cbn [update List.filter].
    destruct (hasTimedOut p), (hasTimedOut p'); cbn [List.length]; lia.
  - cbn [update List.filter]. specialize (IH i H).
    destruct (hasTimedOut q); cbn [List.length]; lia.
Qed.

(** Where every call of [exit] throws, the requests that timed out are
    as many as the processes that ended. *)
Lemma timedOut_turn (srv srv' : Server) (ev : Event) :
  (forall request, exit w request <> None) ->
  counted srv -> turn w srv ev = Some srv' ->
  List.length (List.filter hasTimedOut (pending srv))
  = (match uncaught srv with Some _ => 1 | None => 0 end) ->
  List.length (List.filter hasTimedOut (pending srv'))
  = match uncaught srv' with Some _ => 1 | None => 0 end.
Proof.
  intros Hexit [_ [_ Hp]] Hturn Hn. unfold turn in Hturn.
  destruct (uncaught srv) as [|] eqn:Eu; [discriminate Hturn|].
  destruct ev as [raw|i|i result|i e].
  - injection Hturn as <-. unfold receive.
    destruct (Z.leb maxChromeInstances (activeChromeInstances srv));
      [cbn [fst]; now rewrite Eu|].
    destruct (Nat.ltb maxBatchSize (List.length raw));
      [cbn [fst]; now rewrite Eu|].
    cbn [fst pending uncaught]. rewrite Eu, filter_app, length_app.
    cbn [List.filter hasTimedOut List.length]. lia.
  - destruct (nth_error (pending srv) i) as [p|] eqn:En; [|discriminate Hturn].
    destruct (timeout p) eqn:Et; [|discriminate Hturn].
    injection Hturn as <-.
    assert (Hh : hasTimedOut p = false).
    { rewrite Forall_forall in Hp.
      destruct (Hp p (nth_error_In _ _ En)) as [H1 _]. now destruct (H1 Et). }
    unfold timedOut.
    pose proof (timedOut_update i p
                  (mkPending (urls p) true false (awaiting p)
                     (sent p ++ [Status503 "Timed out"]) (thrown p)) _ En)
      as Hc.
    cbn [hasTimedOut] in Hc. rewrite Hh in Hc.
    destruct (exit w i) as [e|] eqn:Ee; [|now destruct (Hexit i)].
    cbn [pending uncaught]. lia.
  - destruct (nth_error (pending srv) i) as [p|] eqn:En; [|discriminate Hturn].
    destruct (awaiting p); [|discriminate Hturn].
    injection Hturn as <-. unfold resolved.
    destruct (hasTimedOut p) eqn:Eh.
    + cbn [pending uncaught]. rewrite Eu.
      pose proof (timedOut_update i p
                    (mkPending (urls p) true (timeout p) false (sent p)
                       (thrown p)) _ En) as Hc.
      cbn [hasTimedOut] in Hc. rewrite Eh in Hc. lia.
    + destruct (logAndReply w result (disk srv)) as [disk' [e|reply]];
        cbn [pending uncaught]; rewrite Eu.
      * pose proof (timedOut_update i p
                      (mkPending (urls p) false false false (sent p) (Some e))
                      _ En) as Hc.
        cbn [hasTimedOut] in Hc. rewrite Eh in Hc. lia.
      * pose proof (timedOut_update i p
                      (mkPending (urls p) false false false
                         (sent p ++ [reply]) (thrown p)) _ En) as Hc.
        cbn [hasTimedOut] in Hc. rewrite Eh in Hc. lia.
  - destruct (nth_error (pending srv) i) as [p|] eqn:En; [|discriminate Hturn].
    destruct (awaiting p); [|discriminate Hturn].
    injection Hturn as <-. unfold rejected. cbn [pending uncaught]. rewrite Eu.
    pose proof (timedOut_update i p
                  (mkPending (urls p) (hasTimedOut p) (timeout p) false
                     (sent p) (Some e)) _ En) as Hc.
    cbn [hasTimedOut] in Hc. destruct (hasTimedOut p); lia.
Qed.

(** X16. With the pipeline as it is, nothing assigns
    [forceTerminate.exit], so the call of the timeout callback throws:
    the first timeout ends the process. In every state the requests that
    timed out are none while the process runs and exactly one once it
    has ended; that request got its 503, its decrement of
    [activeChromeInstances] was skipped, every other request that was
    waiting is left without an answer, and no turn is taken any more. *)
Theorem timeout_ends_process (srv : Server) :
  (forall request, exit w request <> None) ->
  reachable w d srv ->
  List.length (List.filter hasTimedOut (pending srv))
  = (match uncaught srv with Some _ => 1 | None => 0 end)
  /\ (uncaught srv <> None ->
      activeChromeInstances srv = (Z.of_nat (armed (pending srv)) + 1)%Z
      /\ (forall ev, turn w srv ev = None)
      /\ exists p, In p (pending srv)
                   /\ hasTimedOut p = true
                   /\ sent p = [Status503 "Timed out"])
  /\ (uncaught srv = None ->
      Forall (fun p => hasTimedOut p = false) (pending srv)).
Proof.
  intros Hexit Hreach.
  assert (Hn : List.length (List.filter hasTimedOut (pending srv))
               = match uncaught srv with Some _ => 1 | None => 0 end).
  { induction Hreach as [|srv ev srv' Hreach IH Hturn]; [reflexivity|].
    exact (timedOut_turn _ _ _ Hexit (counted_reachable _ Hreach) Hturn IH). }
  destruct (counted_reachable _ Hreach) as [Hc [_ Hp]].
  split; [exact Hn|]. split.
  - intros Hu. destruct (uncaught srv) as [e|] eqn:Eu; [|congruence].
    split; [exact Hc|]. split.
    + intros ev. unfold turn. now rewrite Eu.
    + destruct (List.filter hasTimedOut (pending srv)) as [|p t] eqn:Ef;
        [discriminate Hn|].
      assert (Hin : In p (List.filter hasTimedOut (pending srv)))
        by (rewrite Ef; now left).
      apply filter_In in Hin. destruct Hin as [Hin Hh].
      exists p. split; [exact Hin|]. split; [exact Hh|].
      rewrite Forall_forall in Hp. destruct (Hp p Hin) as [_ [H2 _]].
      now apply H2.
  - intros Eu. rewrite Eu in Hn. apply Forall_forall. intros p Hin.
    destruct (hasTimedOut p) eqn:Eh; [|reflexivity].
    assert (Hf : In p (List.filter hasTimedOut (pending srv)))
      by (apply filter_In; split; assumption).
    destruct (List.filter hasTimedOut (pending srv)); [destruct Hf|].
    discriminate Hn.
Qed.

End SingleInstanceFacts.

Lemma demo_after_reachable (w : SingleInstance.World)
  (evs : list SingleInstance.Event) :
  SingleInstance.reachable w DemoSingle.empty (DemoSingle.after w evs).
Proof.
  unfold DemoSingle.after.
  destruct (SingleInstance.turns w (SingleInstance.idle DemoSingle.empty) evs)
    as [srv|] eqn:E; [|constructor].
  eapply turns_reachable; [constructor | exact E].
Qed.

Lemma counter_counts_timers_witness :
  SingleInstance.activeChromeInstances
    (DemoSingle.after DemoSingle.returning DemoSingle.threeRequests)
  = (Z.of_nat
       (SingleInstance.armed
          (SingleInstance.pending
             (DemoSingle.after DemoSingle.returning DemoSingle.threeRequests)))
     + 0)%Z
  /\ SingleInstance.armed
       (SingleInstance.pending
          (DemoSingle.after DemoSingle.returning DemoSingle.threeRequests)) = 2.
Proof.
  split; [|reflexivity].
  refine (proj1 (counter_counts_timers DemoSingle.returning DemoSingle.empty
                   _ (demo_after_reachable _ _))).
Defined.

Lemma one_reply_for_each_request_witness :
  Forall (fun p =>
            List.length (SingleInstance.sent p) <= 1
            /\ (SingleInstance.timeout p = true -> SingleInstance.sent p = [])
            /\ (SingleInstance.hasTimedOut p = true ->
                SingleInstance.sent p
                = [SingleInstance.Status503 "Timed out"])
            /\ (SingleInstance.awaiting p = true ->
                SingleInstance.hasTimedOut p = false ->
                SingleInstance.timeout p = true))
    (SingleInstance.pending
       (DemoSingle.after DemoSingle.returning DemoSingle.threeRequests))
  /\ List.length
       (SingleInstance.pending
          (DemoSingle.after DemoSingle.returning DemoSingle.threeRequests)) = 3.
Proof.
  split; [|reflexivity].
  apply (one_reply_for_each_request DemoSingle.returning DemoSingle.empty).
  apply demo_after_reachable.
Defined.

Lemma timeout_ends_process_witness :
  SingleInstance.activeChromeInstances
    (DemoSingle.after DemoSingle.throwing DemoSingle.oneTimeout)
  = (Z.of_nat
       (SingleInstance.armed
          (SingleInstance.pending
             (DemoSingle.after DemoSingle.throwing DemoSingle.oneTimeout)))
     + 1)%Z
  /\ SingleInstance.armed
       (SingleInstance.pending
          (DemoSingle.after DemoSingle.throwing DemoSingle.oneTimeout)) = 1.
Proof.
  split; [|reflexivity].
  refine (proj1 (proj1 (proj2 (timeout_ends_process DemoSingle.throwing
                                 DemoSingle.empty _ _ _)) _)).
  - intros request. discriminate.
  - apply demo_after_reachable.
  - discriminate.
Defined.

(** ** Every order of the turns comes to an end *)

Section EveryOrder.

Import ExtractData.

Variable host : nat -> Requests.
Variable page : nat -> PageReplies.

Ltac fields :=
  cbn [queuedProjects loadingProjects preloadedProjects missingProjects
       fontSwapProjects unopenedProjects openedProjects isOpeningProject
       opening timers settled closing resolved] in *.

(** Not only the turn the scheduler picks: every turn the event loop can
    take lowers the weight. *)
Lemma step_lowers (urlsToProcess : list Admission.Reference) (s s' : State) :
  Invariant host page urlsToProcess s -> step host page s s' ->
  weight s' < weight s.
Proof.
  intros Hinv Hstep. destruct Hstep as [s n Et|s p Hin|s n Es|s p Hin|s Hc].
  - pose proof (weight_preloadNextURL (withTimers n s)) as Hw.
    unfold weight, withTimers in *. fields. lia.
  - destruct (indexOfProject_found _ _
                (invariant_loading_distinct host page _ _ Hinv) Hin)
      as [position [l1 [l2 [Hi [Hl Hsp]]]]].
    unfold preloadSettled, preloaded, preloadFailed. rewrite Hi, Hsp.
    destruct (fst (preload (host (index p))));
      unfold weight, awaitLastThen; fields; rewrite Hl, ?length_app;
      cbn [List.length]; lia.
  - unfold preloadThen.
    pose proof (weight_preloadNextURL (openNextProject (withSettled n s))) as H1.
    pose proof (weight_openNextProject (withSettled n s)) as H2.
    assert (weight (withSettled n s) + 2 = weight s).
    { unfold weight, withSettled. fields. lia. }
    lia.
  - destruct Hinv as [_ Hs _ _ _ _ _ _ _].
    destruct Hs as [[E _]|[q [E _]]]; [rewrite E in Hin; destruct Hin|].
    rewrite E in Hin. destruct Hin as [<-|[]].
    unfold opened. cbv zeta.
    match goal with |- weight (openNextProject ?t) < _ =>
      pose proof (weight_openNextProject t) as Hw;
      assert (weight t + 2 = weight s)
    end.
    { unfold weight. fields. rewrite E. cbn [settle]. unfold sameProject.
      rewrite Nat.eqb_refl. cbn [List.length]. lia. }
    lia.
  - unfold weight, resolveQueue. fields. lia.
Qed.

(** X17. Whatever the order in which timers fire and preloads and
    openings settle, the queue of a list that is not empty comes to its
    end and resolves: every turn lowers a measure that starts at
    [5 + 7 * urlsToProcess.length], so no run takes more turns than
    that, and a state in which no turn is left is one in which
    [resolveQueue] has been called. *)
Theorem every_order_resolves (urlsToProcess : list Admission.Reference)
  (s : State) :
  urlsToProcess <> [] ->
  reachable host page (start urlsToProcess) s ->
  (forall s', step host page s s' -> weight s' < weight s)
  /\ weight s <= 5 + 7 * List.length urlsToProcess
  /\ ((forall s', ~ step host page s s') -> exists r, resolved s = Some r).
Proof.
  intros Hne Hreach. split; [|split].
  - intros s'. apply (step_lowers urlsToProcess).
    now apply invariant_reachable.
  - induction Hreach as [|s s' Hreach IH Hstep].
    + unfold weight, start. fields. rewrite enqueue_length.
      cbn [List.length]. unfold inParallel. lia.
    + pose proof (step_lowers urlsToProcess s s'
                    (invariant_reachable host page _ _ Hreach) Hstep).
      lia.
  - intros Hstuck.
    pose proof (live_reachable host page _ _ Hne Hreach) as [L1 L2 L3].
    assert (Et : timers s = 0).
    { destruct (timers s) as [|n] eqn:E; [reflexivity|].
      exfalso. eapply Hstuck. apply (step_timer host page s n E). }
    assert (Es : settled s = 0).
    { destruct (settled s) as [|n] eqn:E; [reflexivity|].
      exfalso. eapply Hstuck. apply (step_preload_then host page s n E). }
    assert (El : loadingProjects s = []).
    { destruct (loadingProjects s) as [|p l] eqn:E; [reflexivity|].
      exfalso. eapply Hstuck. apply (step_preload_settled host page s p).
      rewrite E. now left. }
    assert (Eo : opening s = []).
    { destruct (opening s) as [|p l] eqn:E; [reflexivity|].
      exfalso. eapply Hstuck. apply (step_opened host page s p).
      rewrite E. now left. }
    assert (Ec : closing s = 0).
    { destruct (closing s) as [|n] eqn:E; [reflexivity|].
      exfalso. eapply Hstuck. apply (step_resolve host page s). lia. }
    assert (Hres : resolved s <> None).
    { apply L3; try assumption.
      - destruct (queuedProjects s); [reflexivity|].
        specialize (L1 ltac:(discriminate)). rewrite Et, Es, El in L1.
        cbn in L1. unfold inParallel in L1. lia.
      - destruct (preloadedProjects s); [reflexivity|].
        destruct (L2 ltac:(discriminate)) as [H|H]; [congruence|lia]. }
    destruct (resolved s) as [r|]; [now exists r | congruence].
Qed.

End EveryOrder.

Lemma every_order_resolves_witness :
  ExtractData.weight
    (ExtractData.run Demo.requests Demo.page 10
       (ExtractData.start Demo.fiveReferences)) <= 5 + 7 * 5.
Proof.
  refine (proj1 (proj2 (every_order_resolves Demo.requests Demo.page
                          Demo.fiveReferences _ _ _))).
  - intros H. vm_compute in H. discriminate H.
  - apply run_reachable. constructor.
Defined.
